(** * bm2: a background process supervisor

    Shallow embedding of the supervisor engine ([ProcessManager],
    process-manager.ts), of the control-plane listener ([Daemon],
    daemon.ts) and of the client ([SocketManager], socket-manager.ts; the
    [start] and [stop] handlers of [CLI], cli.ts; [DaemonManager],
    daemon-manager.ts), followed by the verification of their specification
    and of further properties of the code.

    Conventions of the embedding.
    - A JavaScript number that the code uses as an index, a length, a
      capacity, a clock reading or an exit code is an integer of [Z].
    - A JavaScript string is a [string]: the bytes of its UTF-8 form.  The
      bytes of a [Buffer] are a [string] too; [toString] decodes them.
    - Every read of the wall clock ([Date.now()], [new Date()]) is an explicit
      argument of the operation that performs it.
    - Objects that the code shares by reference (a [ProcessInfo] is reachable
      from the registry, from the configuration mirror and from the closures
      of its child's stream and exit handlers) live in a store and are named
      by their index in it.
    - [socket.write (JSON.stringify d + "\n")] is recorded as the document
      [d] appended to the trace of documents written.
    - The write of the configuration mirror ([saveConfig]) is taken to
      succeed; the mirror is kept as the list [config] and is never read.
      [Bun.spawn] is taken to return, except in the event in which a
      request meets a [Bun.spawn] that throws.  What a child does is an
      event from outside: a chunk on one of its streams, or its end, by
      itself with an exit code or by a signal.
    - The members of a parsed message are read as the code reads them; a
      [start] message whose [script] or [options] do not have the types
      their declarations give them is outside the embedding. *)

From Stdlib Require Import ZArith Lia Ascii String.
From stdpp Require Import base tactics option list strings pretty gmap.

Local Open Scope Z_scope.
#[local] Set Warnings "-clear-no-such-hyp".

(** ** JavaScript library functions used by the code *)

Module JS.

(** Relative index of [Array.prototype.slice]: a negative index counts from
    the end; the result is clamped to [0 .. len]. *)
Definition rel_index (len k : Z) : Z :=
  if k <? 0 then Z.max (len + k) 0 else Z.min k len.

(** [l.slice(start, end)]; [end_ = None] when the argument is omitted. *)
Definition slice {A} (l : list A) (start : Z) (end_ : option Z) : list A :=
  let len := Z.of_nat (length l) in
  let k := rel_index len start in
  let final := match end_ with None => len | Some e => rel_index len e end in
  take (Z.to_nat (final - k)) (drop (Z.to_nat k) l).

(** [s.endsWith(t)] *)
Definition endsWith (s t : string) : bool :=
  let n := String.length s in
  let k := String.length t in
  (k <=? n)%nat && String.eqb (substring (n - k) k s) t.

(** [x || d] on an optional number: [undefined], and [0], are falsy. *)
Definition or_default (x : option Z) (d : Z) : Z :=
  match x with
  | None => d
  | Some v => if v =? 0 then d else v
  end.

(** A [Map] with string keys iterates in insertion order; [set] on a key
    that is present replaces the value where it stands. *)
Section Map.
Context {V : Type}.

Fixpoint Map_get (k : string) (m : list (string * V)) : option V :=
  match m with
  | [] => None
  | (k', v) :: m' => if String.eqb k k' then Some v else Map_get k m'
  end.

Fixpoint Map_set (k : string) (v : V) (m : list (string * V)) : list (string * V) :=
  match m with
  | [] => [(k, v)]
  | (k', v') :: m' =>
      if String.eqb k k' then (k, v) :: m' else (k', v') :: Map_set k v m'
  end.

Fixpoint Map_delete (k : string) (m : list (string * V)) : list (string * V) :=
  match m with
  | [] => []
  | (k', v') :: m' =>
      if String.eqb k k' then m' else (k', v') :: Map_delete k m'
  end.

Definition Map_values (m : list (string * V)) : list V := m.*2.
Definition Map_keys (m : list (string * V)) : list string := m.*1.
End Map.

(** [chunk.toString()] on the bytes of a [Buffer]: the UTF-8 decoder of the
    Encoding Standard, the text being written in UTF-8 again.  A well-formed
    sequence is kept; every maximal ill-formed part, and a sequence that the
    end of the bytes cuts short, becomes U+FFFD. *)
Inductive utf8_state :=
| Idle
| Expect (more : nat) (lower upper : N) (seen : list ascii).
(* inside a sequence: [seen] so far, the next byte within [lower..upper],
   [more] bytes after it *)

Definition replacement : list ascii :=
  [ascii_of_nat 239; ascii_of_nat 191; ascii_of_nat 189].

Inductive byte_class :=
| Single
| Lead (more : nat) (lower upper : N)
| Invalid.

Definition classify (b : ascii) : byte_class :=
  let n := N_of_ascii b in
  if (n <? 128)%N then Single
  else if (194 <=? n)%N && (n <=? 223)%N then Lead 0 128 191
  else if (224 <=? n)%N && (n <=? 239)%N then
    Lead 1 (if (n =? 224)%N then 160 else 128)%N (if (n =? 237)%N then 159 else 191)%N
  else if (240 <=? n)%N && (n <=? 244)%N then
    Lead 2 (if (n =? 240)%N then 144 else 128)%N (if (n =? 244)%N then 143 else 191)%N
  else Invalid.

Definition first_byte (b : ascii) : list ascii * utf8_state :=
  match classify b with
  | Single => ([b], Idle)
  | Lead more lower upper => ([], Expect more lower upper [b])
  | Invalid => (replacement, Idle)
  end.

Definition within (lower upper : N) (b : ascii) : bool :=
  ((lower <=? N_of_ascii b) && (N_of_ascii b <=? upper))%N.

(** One byte: what is written, and the state after it. *)
Definition feed (st : utf8_state) (b : ascii) : list ascii * utf8_state :=
  match st with
  | Idle => first_byte b
  | Expect more lower upper seen =>
      if within lower upper b then
        match more with
        | O => (seen ++ [b], Idle)
        | S more' => ([], Expect more' 128 191 (seen ++ [b]))
        end
      else
        let '(out, st') := first_byte b in (replacement ++ out, st')
  end.

Fixpoint decode (st : utf8_state) (bytes : list ascii) : list ascii :=
  match bytes with
  | [] => match st with Idle => [] | Expect _ _ _ _ => replacement end
  | b :: rest => let '(out, st') := feed st b in out ++ decode st' rest
  end.

Definition toString (chunk : string) : string :=
  string_of_list_ascii (decode Idle (list_ascii_of_string chunk)).

(** The bytes are the UTF-8 form of a string: the decoder replaces nothing. *)
Fixpoint well_formed_from (st : utf8_state) (bytes : list ascii) : bool :=
  match bytes with
  | [] => match st with Idle => true | Expect _ _ _ _ => false end
  | b :: rest =>
      match st with
      | Idle =>
          match classify b with
          | Single => well_formed_from Idle rest
          | Lead more lower upper => well_formed_from (Expect more lower upper [b]) rest
          | Invalid => false
          end
      | Expect more lower upper seen =>
          within lower upper b
          && match more with
             | O => well_formed_from Idle rest
             | S more' => well_formed_from (Expect more' 128 191 (seen ++ [b])) rest
             end
      end
  end.

Definition well_formed (text : string) : bool :=
  well_formed_from Idle (list_ascii_of_string text).

(** The state in which the decoder is after the bytes; a chunk is complete
    when it does not end inside a sequence. *)
Fixpoint state_after (st : utf8_state) (bytes : list ascii) : utf8_state :=
  match bytes with
  | [] => st
  | b :: rest => state_after (feed st b).2 rest
  end.

Definition complete (chunk : string) : bool :=
  match state_after Idle (list_ascii_of_string chunk) with
  | Idle => true
  | Expect _ _ _ _ => false
  end.

(** Inside a sequence the decoder waits for a byte that is not a character
    of one byte. *)
Definition sound (st : utf8_state) : Prop :=
  match st with
  | Idle => True
  | Expect _ lower _ _ => (128 ≤ lower)%N
  end.

End JS.

(** ** [JSON.parse]

    A model of the library function after the JSON grammar (ECMA-404): a
    lexer from characters to tokens and a parser from tokens to values.
    Strings are decoded to bytes; a [\uXXXX] escape is decoded to the UTF-8
    encoding of its code unit.  A number keeps the parts of its literal. *)

Module JSON.

Record number := mkNumber {
  negative : bool;
  int_digits : list ascii;
  frac_digits : list ascii;            (* empty: no fraction *)
  exponent : option (bool * list ascii) (* sign is negative, digits *)
}.

#[local] Unset Elimination Schemes.
Inductive value :=
| Null
| Bool (b : bool)
| Number (n : number)
| Str (s : string)
| Array (elements : list value)
| Object (members : list (string * value)).
#[local] Set Elimination Schemes.

Inductive token :=
| TLBrace | TRBrace | TLBracket | TRBracket | TColon | TComma
| TTrue | TFalse | TNull
| TString (s : string)
| TNumber (n : number).

Definition chr (n : nat) : ascii := ascii_of_nat n.

Definition is_ws (c : ascii) : bool :=
  Ascii.eqb c " " || Ascii.eqb c (chr 9) || Ascii.eqb c (chr 10) || Ascii.eqb c (chr 13).

Definition is_digit (c : ascii) : bool :=
  (48 <=? nat_of_ascii c)%nat && (nat_of_ascii c <=? 57)%nat.

Definition hex_digit (c : ascii) : option N :=
  let n := N_of_ascii c in
  if (48 <=? n)%N && (n <=? 57)%N then Some (n - 48)%N
  else if (65 <=? n)%N && (n <=? 70)%N then Some (n - 55)%N
  else if (97 <=? n)%N && (n <=? 102)%N then Some (n - 87)%N
  else None.

Definition utf8 (u : N) : list ascii :=
  if (u <? 128)%N then [ascii_of_N u]
  else if (u <? 2048)%N then
    [ascii_of_N (192 + u / 64); ascii_of_N (128 + u mod 64)]
  else
    [ascii_of_N (224 + u / 4096); ascii_of_N (128 + (u / 64) mod 64);
     ascii_of_N (128 + u mod 64)].

(** The characters of a string literal after its opening quote, up to and
    including the closing quote. *)
Inductive smode :=
| Plain
| Escape
| Unicode (remaining : nat) (acc : N).

(** The double quote and the backslash. *)
Definition dquote : ascii := chr 34.
Definition backslash : ascii := chr 92.

(** The character that a one-letter escape denotes. *)
Definition escape_char (c : ascii) : option ascii :=
  if Ascii.eqb c dquote then Some dquote
  else if Ascii.eqb c backslash then Some backslash
  else if Ascii.eqb c "/" then Some "/"%char
  else if Ascii.eqb c "b" then Some (chr 8)
  else if Ascii.eqb c "f" then Some (chr 12)
  else if Ascii.eqb c "n" then Some (chr 10)
  else if Ascii.eqb c "r" then Some (chr 13)
  else if Ascii.eqb c "t" then Some (chr 9)
  else None.

Fixpoint lex_string (m : smode) (cs : list ascii) : option (list ascii * list ascii) :=
  match cs with
  | [] => None
  | c :: r =>
      match m with
      | Plain =>
          if Ascii.eqb c dquote then Some ([], r)
          else if Ascii.eqb c backslash then lex_string Escape r
          else if (nat_of_ascii c <? 32)%nat then None
          else '(s, r') ← lex_string Plain r; Some (c :: s, r')
      | Escape =>
          if Ascii.eqb c "u" then lex_string (Unicode 3 0) r
          else e ← escape_char c;
               '(s, r') ← lex_string Plain r; Some (e :: s, r')
      | Unicode k acc =>
          h ← hex_digit c;
          match k with
          | O => '(s, r') ← lex_string Plain r; Some (utf8 (16 * acc + h) ++ s, r')
          | S k' => lex_string (Unicode k' (16 * acc + h)%N) r
          end
      end
  end.

Fixpoint span_digits (cs : list ascii) : list ascii * list ascii :=
  match cs with
  | c :: r => if is_digit c then let '(ds, r') := span_digits r in (c :: ds, r')
              else ([], cs)
  | [] => ([], [])
  end.

(** [int = 0 | [1-9][0-9]*] *)
Definition int_ok (ds : list ascii) : bool :=
  match ds with
  | [] => false
  | [_] => true
  | d :: _ => negb (Ascii.eqb d "0")
  end.

Definition lex_frac (cs : list ascii) : option (list ascii * list ascii) :=
  match cs with
  | c :: r =>
      if Ascii.eqb c "." then
        let '(fs, r') := span_digits r in
        match fs with [] => None | _ => Some (fs, r') end
      else Some ([], cs)
  | [] => Some ([], [])
  end.

Definition lex_sign (cs : list ascii) : bool * list ascii :=
  match cs with
  | c :: r =>
      if Ascii.eqb c "-" then (true, r)
      else if Ascii.eqb c "+" then (false, r)
      else (false, cs)
  | [] => (false, [])
  end.

Definition lex_exp (cs : list ascii) : option (option (bool * list ascii) * list ascii) :=
  match cs with
  | c :: r =>
      if Ascii.eqb c "e" || Ascii.eqb c "E" then
        let '(sg, r1) := lex_sign r in
        let '(es, r2) := span_digits r1 in
        match es with [] => None | _ => Some (Some (sg, es), r2) end
      else Some (None, cs)
  | [] => Some (None, [])
  end.

Definition lex_number (neg : bool) (cs : list ascii) : option (number * list ascii) :=
  let '(ds, r1) := span_digits cs in
  if int_ok ds then
    '(fs, r2) ← lex_frac r1;
    '(ex, r3) ← lex_exp r2;
    Some (mkNumber neg ds fs ex, r3)
  else None.

Fixpoint strip (p cs : list ascii) : option (list ascii) :=
  match p, cs with
  | [], _ => Some cs
  | a :: p', c :: cs' => if Ascii.eqb a c then strip p' cs' else None
  | _ :: _, [] => None
  end.

(** The token that starts with character [c], or [None] for white space,
    and the characters after it. *)
Definition next (c : ascii) (r : list ascii) : option (option token * list ascii) :=
  if is_ws c then Some (None, r)
  else if Ascii.eqb c "{" then Some (Some TLBrace, r)
  else if Ascii.eqb c "}" then Some (Some TRBrace, r)
  else if Ascii.eqb c "[" then Some (Some TLBracket, r)
  else if Ascii.eqb c "]" then Some (Some TRBracket, r)
  else if Ascii.eqb c ":" then Some (Some TColon, r)
  else if Ascii.eqb c "," then Some (Some TComma, r)
  else if Ascii.eqb c "t" then r' ← strip (list_ascii_of_string "rue") r; Some (Some TTrue, r')
  else if Ascii.eqb c "f" then r' ← strip (list_ascii_of_string "alse") r; Some (Some TFalse, r')
  else if Ascii.eqb c "n" then r' ← strip (list_ascii_of_string "ull") r; Some (Some TNull, r')
  else if Ascii.eqb c dquote then
    '(s, r') ← lex_string Plain r; Some (Some (TString (string_of_list_ascii s)), r')
  else if Ascii.eqb c "-" then
    '(n, r') ← lex_number true r; Some (Some (TNumber n), r')
  else if is_digit c then
    '(n, r') ← lex_number false (c :: r); Some (Some (TNumber n), r')
  else None.

Definition push_token (ot : option token) (ts : list token) : list token :=
  match ot with Some t => t :: ts | None => ts end.

Fixpoint lex (fuel : nat) (cs : list ascii) : option (list token) :=
  match fuel with
  | O => None
  | S f =>
      match cs with
      | [] => Some []
      | c :: r => '(ot, r') ← next c r; ts ← lex f r'; Some (push_token ot ts)
      end
  end.

Fixpoint parse_value (fuel : nat) (ts : list token) : option (value * list token) :=
  match fuel with
  | O => None
  | S f =>
      match ts with
      | TNull :: r => Some (Null, r)
      | TTrue :: r => Some (Bool true, r)
      | TFalse :: r => Some (Bool false, r)
      | TString s :: r => Some (Str s, r)
      | TNumber n :: r => Some (Number n, r)
      | TLBracket :: TRBracket :: r => Some (Array [], r)
      | TLBracket :: r => '(vs, r') ← parse_elements f r; Some (Array vs, r')
      | TLBrace :: TRBrace :: r => Some (Object [], r)
      | TLBrace :: r => '(ms, r') ← parse_members f r; Some (Object ms, r')
      | _ => None
      end
  end
with parse_elements (fuel : nat) (ts : list token) : option (list value * list token) :=
  match fuel with
  | O => None
  | S f =>
      match parse_value f ts with
      | Some (v, TComma :: r) => '(vs, r') ← parse_elements f r; Some (v :: vs, r')
      | Some (v, TRBracket :: r) => Some ([v], r)
      | _ => None
      end
  end
with parse_members (fuel : nat) (ts : list token) : option (list (string * value) * list token) :=
  match fuel with
  | O => None
  | S f =>
      match ts with
      | TString k :: TColon :: r =>
          match parse_value f r with
          | Some (v, TComma :: r') => '(ms, r'') ← parse_members f r'; Some ((k, v) :: ms, r'')
          | Some (v, TRBrace :: r') => Some ([(k, v)], r')
          | _ => None
          end
      | _ => None
      end
  end.

(** [JSON.parse(text)]; [None] when it throws a SyntaxError. *)
Definition parse (text : string) : option value :=
  ts ← lex (S (String.length text)) (list_ascii_of_string text);
  match parse_value (S (length ts)) ts with
  | Some (v, []) => Some v
  | _ => None
  end.

(** Reading property [k] of a parsed value, for the keys the daemon reads
    ([type], [script], [options], [processId], [restart], [maxLogLines]).
    - [Throws]: the value is [null] (a TypeError);
    - [Undefined]: the value has no such property;
    - of duplicate members of an object the last one counts. *)
Inductive access := Throws | Undefined | Got (v : value).

Fixpoint member (k : string) (ms : list (string * value)) : option value :=
  match ms with
  | [] => None
  | (k', v) :: ms' =>
      match member k ms' with
      | Some v' => Some v'
      | None => if String.eqb k k' then Some v else None
      end
  end.

Definition get (v : value) (k : string) : access :=
  match v with
  | Null => Throws
  | Object ms => match member k ms with Some x => Got x | None => Undefined end
  | _ => Undefined
  end.

Fixpoint digits_value (acc : N) (ds : list ascii) : N :=
  match ds with
  | [] => acc
  | d :: ds' => digits_value (10 * acc + (N_of_ascii d - 48))%N ds'
  end.

(** The integer a number literal denotes when it is written without a
    fraction and without an exponent. *)
Definition to_integer (n : number) : option Z :=
  match frac_digits n, exponent n with
  | [], None =>
      let a := Z.of_N (digits_value 0 (int_digits n)) in
      Some (if negative n then - a else a)
  | _, _ => None
  end.

End JSON.

(** ** Data model (manager/types.ts, cli/types.ts) *)

Definition Socket := nat.
Bind Scope nat_scope with Socket.

Record LogEntry := mkLogEntry {
  timestamp : Z;
  message : string;
  isError : bool
}.

Record ProcessOptions := mkOptions {
  restart : option bool;
  maxLogLines : option Z
}.

Record ProcessListInfo := mkListInfo {
  li_id : string;
  li_script : string;
  li_uptime : Z;
  li_status : string
}.

(** The documents the daemon writes to a connection. *)
Inductive Document :=
| OkId (id : string)                   (* { status: "ok", id } *)
| Stopped                              (* { status: "stopped" } *)
| OkList (list_ : list ProcessListInfo)(* { status: "ok", list } *)
| OkLogs (logs_ : list LogEntry)       (* { status: "ok", logs } *)
| ErrorDoc (reason : string)           (* { error: reason } *)
| EntryDoc (entry : LogEntry).         (* a log entry, as attach emits it *)

Definition Wire := list (Socket * Document).

(** The [logs] array of a process: its elements and, when an attach session
    has assigned to its [push] property, the chain of proxies installed on
    it, outermost first.  Each proxy writes the pushed entry to its socket
    and then applies the [push] it wraps. *)
Record LogArray := mkLogArray {
  items : list LogEntry;
  push_proxies : list Socket
}.

Definition empty_array : LogArray := mkLogArray [] [].

(** [logs.push(entry)] *)
Definition Array_push (a : LogArray) (e : LogEntry) : LogArray * Wire :=
  (mkLogArray (items a ++ [e]) (push_proxies a),
   (λ s, (s, EntryDoc e)) <$> push_proxies a).

(** [logs.slice(start)]: a fresh array, which has no [push] of its own. *)
Definition Array_slice (a : LogArray) (start : Z) : LogArray :=
  mkLogArray (JS.slice (items a) start None) [].

(** [Bun.Subprocess], as far as the code observes it. *)
Record Subprocess := mkSubprocess {
  exitCode : option Z;
  killed : bool
}.

Record ProcessInfo := mkProcessInfo {
  id : string;
  script : string;
  process : Subprocess;
  startTime : Z;
  logs : LogArray;
  options : ProcessOptions
}.

Definition set_logs (p : ProcessInfo) (a : LogArray) : ProcessInfo :=
  mkProcessInfo (id p) (script p) (process p) (startTime p) a (options p).

Definition set_process (p : ProcessInfo) (s : Subprocess) : ProcessInfo :=
  mkProcessInfo (id p) (script p) s (startTime p) (logs p) (options p).

(** ** ProcessManager (process-manager.ts) *)

(** A clock: the successive readings of the wall clock during one run of a
    handler. *)
Definition Clock := nat → Z.

(** [objects] is the store of [ProcessInfo] objects; [processes] is the
    registry [Map<string, ProcessInfo>] and [config] the mirror
    [config.processes], both holding references into the store.  The
    closures that [start] creates for a child (the stream handlers and the
    exit callback) capture the record and the arguments [script] and
    [options] of that call: [spawned !! r] holds the arguments captured for
    the child whose record is object [r]. *)
Record ProcessManager := mkManager {
  processes : list (string * nat);
  objects : list ProcessInfo;
  config : list nat;
  spawned : list (string * ProcessOptions)
}.

Definition new_manager : ProcessManager := mkManager [] [] [] [].

Definition set_objects (m : ProcessManager) (os : list ProcessInfo) : ProcessManager :=
  mkManager (processes m) os (config m) (spawned m).

(** [processInfo.options.maxLogLines || 1000] *)
Definition capacity (o : ProcessOptions) : Z := JS.or_default (maxLogLines o) 1000.

(** [{ maxLogLines: 1000, ...options }] *)
Definition with_defaults (o : ProcessOptions) : ProcessOptions :=
  mkOptions (restart o)
            (match maxLogLines o with Some m => Some m | None => Some 1000 end).

(** [addLog(processInfo, message, isError)], reading the clock at [now]. *)
Definition addLog (now : Z) (p : ProcessInfo) (msg : string) (isErr : bool)
  : ProcessInfo * Wire :=
  let logEntry := mkLogEntry now msg isErr in
  let '(a, w) := Array_push (logs p) logEntry in
  if Z.of_nat (length (items a)) >? capacity (options p)
  then (set_logs p (Array_slice a (- capacity (options p))), w)
  else (set_logs p a, w).

(** [start(script, options)]: reading 0 of the clock is [Date.now()], which
    becomes the id, reading 1 is [new Date()], the start time. *)
Definition start (clock : Clock) (scr : string) (o : ProcessOptions)
    (m : ProcessManager) : string * ProcessManager :=
  let processId : string := pretty (clock 0%nat) in
  let r := length (objects m) in
  let processInfo :=
    mkProcessInfo processId scr (mkSubprocess None false) (clock 1%nat)
                  empty_array (with_defaults o) in
  (processId,
   mkManager (JS.Map_set processId r (processes m))
             (objects m ++ [processInfo])
             (config m ++ [r])
             (spawned m ++ [(scr, o)])).

(** The stream handlers of the child whose record is object [r]:
    [stdoutHandler.write] has [isErr = false], [stderrHandler.write] has
    [isErr = true]; the chunk is decoded and handed to [addLog].  [chunk]
    is the decoded text, [new TextDecoder().decode(chunk)]. *)
Definition handler_write (r : nat) (isErr : bool) (now : Z) (chunk : string)
    (m : ProcessManager) : ProcessManager * Wire :=
  match objects m !! r with
  | Some p =>
      let '(p', w) := addLog now p chunk isErr in
      (set_objects m (<[r := p']> (objects m)), w)
  | None => (m, [])
  end.

(** [code !== 0 && options.restart] *)
Definition restart_wanted (code : Z) (o : ProcessOptions) : bool :=
  negb (code =? 0) && default false (restart o).

(** How a child ends: by itself, with an exit code, or by a signal. *)
Inductive Termination :=
| ExitCode (code : Z)
| Signal (signal : positive).

(** What [process.exited] resolves with: the exit code, or 128 plus the
    number of the signal. *)
Definition resolved (t : Termination) : Z :=
  match t with
  | ExitCode code => code
  | Signal signal => 128 + Z.pos signal
  end.

(** [exitCode] of the handle once the child has ended: the runtime sets it
    to the exit code; after a signal it leaves it as it was ([null] for a
    child that has not ended before) and sets [signalCode], which the code
    does not read. *)
Definition exitCode_after (t : Termination) (before : option Z) : option Z :=
  match t with
  | ExitCode code => Some code
  | Signal _ => before
  end.

(** The child whose record is object [r] ends: the runtime updates its
    handle, then the callback of [process.exited.then] runs with the code
    that the promise resolves with. *)
Definition terminated (r : nat) (t : Termination) (clock : Clock) (m : ProcessManager)
  : ProcessManager :=
  match objects m !! r, spawned m !! r with
  | Some p, Some (scr, o) =>
      let p' := set_process p (mkSubprocess (exitCode_after t (exitCode (process p)))
                                            (killed (process p))) in
      let m' := set_objects m (<[r := p']> (objects m)) in
      if restart_wanted (resolved t) o then (start clock scr o m').2 else m'
  | _, _ => m
  end.

(** The child ends by itself with [code]. *)
Definition exited (r : nat) (code : Z) (clock : Clock) (m : ProcessManager)
  : ProcessManager :=
  terminated r (ExitCode code) clock m.

(** The child is ended by [signal]. *)
Definition signaled (r : nat) (signal : positive) (clock : Clock) (m : ProcessManager)
  : ProcessManager :=
  terminated r (Signal signal) clock m.

(** [list()] (named [list_], since [list] is the type of lists).  The clock
    is read once for every record. *)
Definition status_of (p : ProcessInfo) : string :=
  match exitCode (process p) with None => "running" | Some _ => "stopped" end.

Definition list_entry (now : Z) (p : ProcessInfo) : ProcessListInfo :=
  mkListInfo (id p) (script p) (now - startTime p) (status_of p).

Definition registered (m : ProcessManager) : list ProcessInfo :=
  omap (λ r, objects m !! r) (JS.Map_values (processes m)).

Definition list_ (clock : Clock) (m : ProcessManager) : list ProcessListInfo :=
  imap (λ i p, list_entry (clock i) p) (registered m).

(** [getProcess(processId)] *)
Definition getProcess (processId : string) (m : ProcessManager) : option ProcessInfo :=
  r ← JS.Map_get processId (processes m); objects m !! r.

Inductive Error := NotFound (processId : string).

(** [getLogs(processId, startIndex = 0, count = 200)] *)
Definition getLogs (processId : string) (startIndex count : Z) (m : ProcessManager)
  : Error + list LogEntry :=
  match getProcess processId m with
  | None => inl (NotFound processId)
  | Some processInfo =>
      let logs_ := items (logs processInfo) in
      let endIndex := Z.min (startIndex + count) (Z.of_nat (length logs_)) in
      inr (JS.slice logs_ startIndex (Some endIndex))
  end.

(** [stop(processId)] *)
Definition kill (p : ProcessInfo) : ProcessInfo :=
  set_process p (mkSubprocess (exitCode (process p)) true).

Definition stop (processId : string) (m : ProcessManager) : ProcessManager :=
  match JS.Map_get processId (processes m) with
  | Some r =>
      mkManager (JS.Map_delete processId (processes m))
                (alter kill r (objects m))
                (config m)
                (spawned m)
  | None => m
  end.

(** ** Daemon (daemon.ts)

    One run of the [data] handler of a connection is one step: the code
    between the only [await] of the handler (on [manager.start]) and the
    write of the response is taken with it. *)

Record Daemon := mkDaemon {
  manager : ProcessManager;
  buffers : gmap Socket string;   (* the variable [buffer] of each connection *)
  wire : Wire;                    (* the documents written, oldest first *)
  ended : list Socket             (* the connections the daemon has ended *)
}.

Definition new_daemon : Daemon := mkDaemon new_manager ∅ [] [].

Definition newline : string := String (JSON.chr 10) EmptyString.

Definition buffer_of (sock : Socket) (d : Daemon) : string :=
  default EmptyString (buffers d !! sock).

Definition set_buffer (sock : Socket) (b : string) (d : Daemon) : Daemon :=
  mkDaemon (manager d) (<[sock := b]> (buffers d)) (wire d) (ended d).

Definition set_manager (d : Daemon) (m : ProcessManager) : Daemon :=
  mkDaemon m (buffers d) (wire d) (ended d).

Definition emit (w : Wire) (d : Daemon) : Daemon :=
  mkDaemon (manager d) (buffers d) (wire d ++ w) (ended d).

(** [socket.write(JSON.stringify(doc) + "\n")] *)
Definition socket_write (sock : Socket) (doc : Document) (d : Daemon) : Daemon :=
  emit [(sock, doc)] d.

(** [socket.end(JSON.stringify(doc) + "\n")] *)
Definition socket_end (sock : Socket) (doc : Document) (d : Daemon) : Daemon :=
  let d' := socket_write sock doc d in
  mkDaemon (manager d') (buffers d') (wire d') (sock :: ended d').

(** The [catch] clause of the handler. *)
Definition catch (sock : Socket) (d : Daemon) : Daemon :=
  set_buffer sock EmptyString (socket_write sock (ErrorDoc "Invalid message format") d).

(** The registry has string keys only: a [processId] that is not a string
    (or is missing) is the key of no record. *)
Definition key_of (a : JSON.access) : option string :=
  match a with JSON.Got (JSON.Str s) => Some s | _ => None end.

(** The arguments of [manager.start(msg.script, msg.options)] when they have
    the declared types ([script : string]; [options] absent or an object
    with no other members than [restart? : boolean] and
    [maxLogLines? : number], the number being an integer literal); [None]
    otherwise. *)
Definition decode_script (a : JSON.access) : option string :=
  match a with JSON.Got (JSON.Str s) => Some s | _ => None end.

Definition decode_restart (a : JSON.access) : option (option bool) :=
  match a with
  | JSON.Undefined => Some None
  | JSON.Got (JSON.Bool b) => Some (Some b)
  | _ => None
  end.

Definition decode_maxLogLines (a : JSON.access) : option (option Z) :=
  match a with
  | JSON.Undefined => Some None
  | JSON.Got (JSON.Number n) => Some <$> JSON.to_integer n
  | _ => None
  end.

(** [start] spreads the whole [options] object into the options of
    [Bun.spawn]: an object with any member besides [restart] and
    [maxLogLines] is not of the declared type. *)
Definition declared_member (k : string) : bool :=
  String.eqb k "restart" || String.eqb k "maxLogLines".

Definition decode_options (a : JSON.access) : option ProcessOptions :=
  match a with
  | JSON.Undefined => Some (mkOptions None None)     (* [options = {}] *)
  | JSON.Got (JSON.Object ms) =>
      if forallb (λ kv : string * JSON.value, declared_member kv.1) ms then
        r ← decode_restart (JSON.get (JSON.Object ms) "restart");
        n ← decode_maxLogLines (JSON.get (JSON.Object ms) "maxLogLines");
        Some (mkOptions r n)
      else None
  | _ => None
  end.

(** The [attach] case for a process that was found: the past entries are
    written, then [proc.logs.push] is replaced by a proxy around it. *)
Definition attach (sock : Socket) (r : nat) (proc : ProcessInfo) (d : Daemon) : Daemon :=
  let d1 := emit ((λ log, (sock, EntryDoc log)) <$> items (logs proc)) d in
  let proc' :=
    set_logs proc (mkLogArray (items (logs proc)) (sock :: push_proxies (logs proc))) in
  set_manager d1 (set_objects (manager d1) (<[r := proc']> (objects (manager d1)))).

(** What [Bun.spawn] does when [manager.start] calls it. *)
Inductive SpawnResult :=
| SpawnReturns
| SpawnThrows.

(** The [switch (msg.type)] of the handler.  When [Bun.spawn] throws,
    [start] has changed nothing yet and the [catch] clause of the handler
    answers.  The result is [None] when [Bun.spawn] is called for a [start]
    whose arguments do not have the declared types and returns, which the
    embedding does not describe. *)
Definition dispatch_when (spawn : SpawnResult) (sock : Socket) (clock : Clock)
    (msg : JSON.value) (d : Daemon) : option Daemon :=
  let m := manager d in
  let type := match JSON.get msg "type" with
              | JSON.Got (JSON.Str s) => s
              | _ => EmptyString      (* matches no case *)
              end in
  if String.eqb type "start" then
    match spawn with
    | SpawnThrows => Some (catch sock d)
    | SpawnReturns =>
        match decode_script (JSON.get msg "script"),
              decode_options (JSON.get msg "options") with
        | Some scr, Some o =>
            let '(id_, m') := start clock scr o m in
            Some (socket_write sock (OkId id_) (set_manager d m'))
        | _, _ => None
        end
    end
  else if String.eqb type "stop" then
    let m' := match key_of (JSON.get msg "processId") with
              | Some k => stop k m
              | None => m
              end in
    Some (socket_write sock Stopped (set_manager d m'))
  else if String.eqb type "list" then
    Some (socket_write sock (OkList (list_ clock m)) d)
  else if String.eqb type "logs" then
    match key_of (JSON.get msg "processId") with
    | Some k =>
        match getLogs k 0 200 m with
        | inr logs_ => Some (socket_write sock (OkLogs logs_) d)
        | inl _ => Some (catch sock d)
        end
    | None => Some (catch sock d)
    end
  else if String.eqb type "attach" then
    match key_of (JSON.get msg "processId") with
    | Some k =>
        match JS.Map_get k (processes m) with
        | Some r =>
            match objects m !! r with
            | Some proc => Some (attach sock r proc d)
            | None => Some (socket_end sock (ErrorDoc "Not found") d)
            end
        | None => Some (socket_end sock (ErrorDoc "Not found") d)
        end
    | None => Some (socket_end sock (ErrorDoc "Not found") d)
    end
  else
    Some (socket_write sock (ErrorDoc "Invalid message type") d).

(** The handler where [Bun.spawn] returns. *)
Definition dispatch (sock : Socket) (clock : Clock) (msg : JSON.value) (d : Daemon)
  : option Daemon :=
  dispatch_when SpawnReturns sock clock msg d.

(** [socket.on("data", chunk => ...)]: [buffer += chunk.toString()] decodes
    the chunk on its own. *)
Definition on_data_when (spawn : SpawnResult) (sock : Socket) (clock : Clock)
    (chunk : string) (d : Daemon) : option Daemon :=
  let buffer := buffer_of sock d +:+ JS.toString chunk in
  let d := set_buffer sock buffer d in
  if JS.endsWith buffer newline then
    match JSON.parse buffer with
    | None => Some (catch sock d)
    | Some msg =>
        let d := set_buffer sock EmptyString d in
        match JSON.get msg "type" with
        | JSON.Throws => Some (catch sock d)
        | _ => dispatch_when spawn sock clock msg d
        end
    end
  else Some d.

Definition on_data (sock : Socket) (clock : Clock) (chunk : string) (d : Daemon)
  : option Daemon :=
  on_data_when SpawnReturns sock clock chunk d.

(** ** The events of the daemon's single control flow

    [SocketData]: a chunk arrives on a connection, and [Bun.spawn], if the
    handling of the chunk calls it, returns; [SpawnFailure]: a chunk arrives
    and [Bun.spawn], if the handling of the chunk calls it, throws.
    [ChildOutput]: the text that a chunk written by a child decodes to
    reaches a stream handler.  [ChildExit]: a child ends by itself;
    [ChildSignal]: a child is ended by a signal. *)

Inductive Event :=
| SocketData (sock : Socket) (clock : Clock) (chunk : string)
| ChildOutput (r : nat) (isErr : bool) (now : Z) (chunk : string)
| ChildExit (r : nat) (code : Z) (clock : Clock)
| SpawnFailure (sock : Socket) (clock : Clock) (chunk : string)
| ChildSignal (r : nat) (signal : positive) (clock : Clock).

Definition step (e : Event) (d : Daemon) : option Daemon :=
  match e with
  | SocketData sock clock chunk => on_data sock clock chunk d
  | ChildOutput r isErr now chunk =>
      let '(m', w) := handler_write r isErr now chunk (manager d) in
      Some (emit w (set_manager d m'))
  | ChildExit r code clock => Some (set_manager d (exited r code clock (manager d)))
  | SpawnFailure sock clock chunk => on_data_when SpawnThrows sock clock chunk d
  | ChildSignal r signal clock =>
      Some (set_manager d (signaled r signal clock (manager d)))
  end.

Fixpoint run (es : list Event) (d : Daemon) : option Daemon :=
  match es with
  | [] => Some d
  | e :: es' => d' ← step e d; run es' d'
  end.

(** What a connection has been sent. *)
Definition received (sock : Socket) (d : Daemon) : list Document :=
  omap (λ x : Socket * Document, if Nat.eqb x.1 sock then Some x.2 else None) (wire d).

(** * The client side: [SocketManager] (socket-manager.ts)

    Conventions.
    - A socket of the client is seen through the events that it reports to
      the handlers registered on it, in the order in which it reports them.
    - A promise is its state: pending, or settled once and for all;
      [resolve] and [reject] on a settled promise have no effect.  An
      [await] of a promise that stays pending never returns.
    - The message of [sendMessage] enters by its text,
      [JSON.stringify message]; [retries] is an integer.
    - The trace of a call lists its attempts, its pauses and what it logs. *)

Module SocketManager.

(** An error object: [new Error(message)] or an error that the socket
    reports, by its message; the [SyntaxError] of [JSON.parse]; the
    [TypeError] of reading a property of [null]. *)
Inductive Error :=
| Err (message : string)
| SyntaxError
| TypeError.

Inductive SocketEvent :=
| OnConnect
| OnData (data : string)
| OnError (err : Error)
| OnTimeout.

Inductive SocketAction :=
| SockWrite (text : string)
| SockEnd
| SockDestroy.

Inductive Settled (A : Type) :=
| Fulfilled (value : A)
| Rejected (reason : Error).
Arguments Fulfilled {A} value.
Arguments Rejected {A} reason.

(** The promise of one attempt, with the socket that its executor made. *)
Record Attempt (A : Type) := mkAttempt {
  buffer : string;                    (* [let buffer] of [sendMessage] *)
  state : option (Settled A);         (* [None]: pending *)
  actions : list SocketAction         (* done to the socket, oldest first *)
}.
Arguments mkAttempt {A} buffer state actions.
Arguments buffer {A} a.
Arguments state {A} a.
Arguments actions {A} a.

Definition pending {A} : Attempt A := mkAttempt EmptyString None [].

Definition settle {A} (s : Settled A) (a : Attempt A) : Attempt A :=
  match state a with
  | None => mkAttempt (buffer a) (Some s) (actions a)
  | Some _ => a
  end.

Definition resolve {A} (v : A) : Attempt A → Attempt A := settle (Fulfilled v).
Definition reject {A} (e : Error) : Attempt A → Attempt A := settle (Rejected e).

Definition act {A} (x : SocketAction) (a : Attempt A) : Attempt A :=
  mkAttempt (buffer a) (state a) (actions a ++ [x]).

Definition socket_timeout : Error := Err "Socket timeout".

(** The handlers that [connect] registers. *)
Definition connect_handler (ev : SocketEvent) (a : Attempt unit) : Attempt unit :=
  match ev with
  | OnConnect => resolve tt (act SockEnd a)
  | OnError err => reject err (act SockDestroy a)
  | OnTimeout => reject socket_timeout (act SockDestroy a)
  | OnData _ => a
  end.

(** The handlers that [sendMessage] registers. *)
Definition send_handler (request : string) (ev : SocketEvent)
    (a : Attempt JSON.value) : Attempt JSON.value :=
  match ev with
  | OnConnect => act (SockWrite (request +:+ newline)) a
  | OnData data =>
      let a := mkAttempt (buffer a +:+ JS.toString data) (state a) (actions a) in
      if JS.endsWith (buffer a) newline then
        match JSON.parse (buffer a) with
        | Some parsed => act SockEnd (resolve parsed a)
        | None => reject SyntaxError a
        end
      else a
  | OnError err => reject err (act SockDestroy a)
  | OnTimeout => reject socket_timeout (act SockDestroy a)
  end.

(** The events of one socket, delivered to the handlers. *)
Definition deliver {A} (handler : SocketEvent → Attempt A → Attempt A)
    (events : list SocketEvent) (a : Attempt A) : Attempt A :=
  foldl (λ a ev, handler ev a) a events.

(** The promise that iteration [i] of [connect] awaits, once its socket
    has reported its events. *)
Definition connect_attempt (sockets : Z → list SocketEvent) (i : Z)
    : option (Settled unit) :=
  state (deliver connect_handler (sockets i) pending).

Definition send_attempt (request : string) (sockets : Z → list SocketEvent) (i : Z)
    : option (Settled JSON.value) :=
  state (deliver (send_handler request) (sockets i) pending).

(** How a call ends. *)
Inductive Completion (A : Type) :=
| Returns (value : A)
| Throws (e : Error)
| Never.
Arguments Returns {A} value.
Arguments Throws {A} e.
Arguments Never {A}.

Inductive Step :=
| Tried (i : Z)                       (* the attempt of iteration [i] *)
| Slept (ms : Z)
| Logged (text : string).

(** [connect]: the loop from iteration [i] on; [fuel] bounds the number of
    iterations left, which is [5 - i]. *)
Fixpoint connect_from (fuel : nat) (sockets : Z → list SocketEvent) (i : Z)
    : Completion bool * list Step :=
  match fuel with
  | O => (Returns false, [])
  | S fuel =>
      if i <? 5 then
        match connect_attempt sockets i with
        | Some (Fulfilled _) => (Returns true, [Tried i])
        | Some (Rejected error) =>
            if i =? 4 then (Returns false, [Tried i; Logged "Failed to connect to daemon:"])
            else
              let (c, t) := connect_from fuel sockets (i + 1) in
              (c, Tried i :: Slept 1000 :: t)
        | None => (Never, [Tried i])
        end
      else (Returns false, [])
  end.

Definition connect (sockets : Z → list SocketEvent) : Completion bool * list Step :=
  connect_from 5 sockets 0.

Definition failed_after_retries : Error := Err "Failed to send message after retries".

(** [sendMessage]: the loop from iteration [i] on; [fuel] bounds the number
    of iterations left, which is [retries - i]. *)
Fixpoint sendMessage_from (fuel : nat) (request : string) (retries : Z)
    (sockets : Z → list SocketEvent) (i : Z) : Completion JSON.value * list Step :=
  match fuel with
  | O => (Throws failed_after_retries, [])
  | S fuel =>
      if i <? retries then
        match send_attempt request sockets i with
        | Some (Fulfilled response) => (Returns response, [Tried i])
        | Some (Rejected err) =>
            if i =? retries - 1 then (Throws err, [Tried i])
            else
              let (c, t) := sendMessage_from fuel request retries sockets (i + 1) in
              (c, Tried i :: Slept 1000 :: t)
        | None => (Never, [Tried i])
        end
      else (Throws failed_after_retries, [])
  end.

Definition sendMessage (request : string) (retries : Z) (sockets : Z → list SocketEvent)
    : Completion JSON.value * list Step :=
  sendMessage_from (Z.to_nat retries) request retries sockets 0.

End SocketManager.

(** ** [JSON.stringify], for the texts that the client and the daemon
    exchange

    [quote] is the quotation of a string (QuoteJSONString of ECMA-262) on
    the bytes of its UTF-8 form: the double quote, the backslash and the
    control characters are escaped, every other byte is kept.  An object is
    written with its members in the order of their creation and without
    white space. *)

Module Stringify.

Definition hex_char (n : nat) : ascii :=
  if (n <? 10)%nat then JSON.chr (48 + n) else JSON.chr (87 + n).

Definition quote_char (c : ascii) : list ascii :=
  if Ascii.eqb c JSON.dquote then [JSON.backslash; JSON.dquote]
  else if Ascii.eqb c JSON.backslash then [JSON.backslash; JSON.backslash]
  else if Ascii.eqb c (JSON.chr 8) then [JSON.backslash; "b"%char]
  else if Ascii.eqb c (JSON.chr 12) then [JSON.backslash; "f"%char]
  else if Ascii.eqb c (JSON.chr 10) then [JSON.backslash; "n"%char]
  else if Ascii.eqb c (JSON.chr 13) then [JSON.backslash; "r"%char]
  else if Ascii.eqb c (JSON.chr 9) then [JSON.backslash; "t"%char]
  else if (nat_of_ascii c <? 32)%nat then
    [JSON.backslash; "u"%char; "0"%char; "0"%char;
     hex_char (nat_of_ascii c / 16); hex_char (nat_of_ascii c mod 16)]
  else [c].

Definition quote (s : string) : string :=
  string_of_list_ascii
    (JSON.dquote :: (list_ascii_of_string s ≫= quote_char) ++ [JSON.dquote]).

Definition member (k : string) (v : string) : string := quote k +:+ ":" +:+ v.

Fixpoint members (ms : list string) : string :=
  match ms with
  | [] => EmptyString
  | [m] => m
  | m :: ms' => m +:+ "," +:+ members ms'
  end.

Definition object (ms : list string) : string := "{" +:+ members ms +:+ "}".

Definition boolean (b : bool) : string := if b then "true" else "false".

End Stringify.

(** * The command line client: [CLI] (cli.ts)

    The handlers of [start] and [stop].  What a handler logs is its result;
    an error that it does not catch ends it.  [None]: the response has a
    member that the handler prints and that is neither a string, a boolean,
    [null] nor absent, which the embedding does not describe. *)

Module CLI.

Inductive Output :=
| LogInfo (text : string)             (* [Logger.info] *)
| LogError (text : string).           (* [Logger.error] *)

(** [args[0]] when it is truthy. *)
Definition first_argument (args : list string) : option string :=
  match args with
  | a :: _ => if String.eqb a EmptyString then None else Some a
  | [] => None
  end.

(** [args.includes(flag)] *)
Definition includes (args : list string) (flag : string) : bool :=
  existsb (String.eqb flag) args.

(** [JSON.stringify({ type: "start", script, options: { restart } })] *)
Definition start_message (script : string) (restart : bool) : string :=
  Stringify.object
    [Stringify.member "type" (Stringify.quote "start");
     Stringify.member "script" (Stringify.quote script);
     Stringify.member "options"
       (Stringify.object [Stringify.member "restart" (Stringify.boolean restart)])].

(** [JSON.stringify({ type: "stop", processId })] *)
Definition stop_message (processId : string) : string :=
  Stringify.object
    [Stringify.member "type" (Stringify.quote "stop");
     Stringify.member "processId" (Stringify.quote processId)].

(** A member of the response inside a template literal. *)
Definition interpolate (a : JSON.access) : option string :=
  match a with
  | JSON.Got (JSON.Str s) => Some s
  | JSON.Got (JSON.Bool b) => Some (Stringify.boolean b)
  | JSON.Got JSON.Null => Some "null"
  | JSON.Undefined => Some "undefined"
  | _ => None
  end.

(** [response.status === "ok"]; [None] when reading [status] throws. *)
Definition status_ok (response : JSON.value) : option bool :=
  match JSON.get response "status" with
  | JSON.Throws => None
  | JSON.Got (JSON.Str s) => Some (String.eqb s "ok")
  | _ => Some false
  end.

Definition handleStart (args : list string)
    (sockets : Z → list SocketManager.SocketEvent)
    : option (SocketManager.Completion (list Output)) :=
  match first_argument args with
  | None => Some (SocketManager.Returns [LogError "Please provide a script to run"])
  | Some script =>
      let message := start_message script (includes args "--restart") in
      match (SocketManager.sendMessage message 3 sockets).1 with
      | SocketManager.Returns response =>
          match status_ok response with
          | None => Some (SocketManager.Throws SocketManager.TypeError)
          | Some true =>
              id_ ← interpolate (JSON.get response "id");
              Some (SocketManager.Returns
                      [LogInfo ("Started process with ID: " +:+ id_)])
          | Some false =>
              error ← interpolate (JSON.get response "error");
              Some (SocketManager.Returns
                      [LogError ("Failed to start process: " +:+ error)])
          end
      | SocketManager.Throws e => Some (SocketManager.Throws e)
      | SocketManager.Never => Some SocketManager.Never
      end
  end.

Definition handleStop (args : list string)
    (sockets : Z → list SocketManager.SocketEvent)
    : SocketManager.Completion (list Output) :=
  match first_argument args with
  | None => SocketManager.Returns [LogError "Provide a process ID"]
  | Some processId =>
      match (SocketManager.sendMessage (stop_message processId) 3 sockets).1 with
      | SocketManager.Returns response =>
          match status_ok response with
          | None => SocketManager.Throws SocketManager.TypeError
          | Some true =>
              SocketManager.Returns
                [LogInfo ("Process " +:+ processId +:+ " stopped")]
          | Some false =>
              SocketManager.Returns
                [LogError ("Failed to stop process " +:+ processId)]
          end
      | SocketManager.Throws e => SocketManager.Throws e
      | SocketManager.Never => SocketManager.Never
      end
  end.

End CLI.

(** ** The replies of the daemon as texts

    [written doc] is the line that [socket.write(JSON.stringify(doc) + "\n")]
    sends for the replies that hold strings only; a list of processes and a
    log entry hold numbers and dates, whose texts the embedding does not
    describe. *)
Definition written (doc : Document) : option string :=
  match doc with
  | OkId id_ =>
      Some (Stringify.object [Stringify.member "status" (Stringify.quote "ok");
                              Stringify.member "id" (Stringify.quote id_)]
            +:+ newline)
  | Stopped =>
      Some (Stringify.object [Stringify.member "status" (Stringify.quote "stopped")]
            +:+ newline)
  | ErrorDoc reason =>
      Some (Stringify.object [Stringify.member "error" (Stringify.quote reason)]
            +:+ newline)
  | _ => None
  end.

(** * The daemon's supervisor on the client side: [DaemonManager]
      (daemon-manager.ts)

    Conventions.
    - The world of the client is the PID file ([None]: it does not exist)
      and the socket file.  Reading and writing a file, and removing the
      socket file, are taken to succeed.
    - [Number(text)] on a text that is not empty, and the answer of the
      system to [process.kill(pid, 0)], are parameters.  [String(pid)] of an
      integer is its decimal form.
    - The trace of a call lists the signals it sends and the processes it
      spawns. *)

Module DaemonManager.

(** A JavaScript number, as far as the code tells numbers apart. *)
Inductive number :=
| NaN
| Integer (z : Z)
| NonInteger (positive : bool).         (* a fraction or an infinity *)

Definition isNaN (n : number) : bool :=
  match n with NaN => true | _ => false end.

(** [n <= 0] *)
Definition not_positive (n : number) : bool :=
  match n with
  | NaN => false
  | Integer z => z <=? 0
  | NonInteger positive => negb positive
  end.

Record World := mkWorld {
  pid_file : option string;
  socket_file : bool
}.

Inductive Action :=
| Probe (pid : number)                  (* [process.kill(pid, 0)] *)
| Terminate (pid : number)              (* [process.kill(pid)] *)
| Spawn.                                (* [spawn("bun", [daemon.ts])] *)

(** [Bun.write(PID_FILE, text)] *)
Definition write_pid (text : string) (w : World) : World :=
  mkWorld (Some text) (socket_file w).

(** How [ensureDaemonRunning] ends. *)
Inductive Outcome :=
| Done
| Exit (code : Z)                       (* [process.exit(code)] *)
| Raise (e : SocketManager.Error)
| Hang.

Section Library.
Variable number_of : string → number.   (* [Number] on a text that is not empty *)
Variable probe : number → bool.         (* does [process.kill(pid, 0)] return? *)

(** [Number(text)]: the empty text is 0. *)
Definition Number_ (text : string) : number :=
  if String.eqb text EmptyString then Integer 0 else number_of text.

Definition isDaemonRunning (w : World) : bool * World * list Action :=
  match pid_file w with
  | None => (false, w, [])
  | Some pidFileContent =>
      let pid := Number_ pidFileContent in
      if String.eqb pidFileContent EmptyString || isNaN pid || not_positive pid
      then (false, write_pid EmptyString w, [])
      else if probe pid then (true, w, [Probe pid])
      else (false, write_pid EmptyString w, [Probe pid])
  end.

Definition stopDaemon (w : World) : World * list Action :=
  match pid_file w with
  | None => (w, [])
  | Some text =>
      let pid := Number_ text in
      if isNaN pid then (write_pid EmptyString w, [])
      else (write_pid EmptyString w, [Terminate pid])
  end.

(** [spawned]: the [pid] of the child that [spawn] returns, if it has one;
    [sockets]: what the sockets of [connect] report; [bound]: whether the
    daemon has bound its socket, which creates the socket file, by the end
    of a call in which no connection succeeds.  A connection that succeeds
    has found the socket of the daemon: the socket file exists. *)
Definition ensureDaemonRunning (spawned : option Z) (bound : bool)
    (sockets : Z → list SocketManager.SocketEvent) (w : World)
    : Outcome * World * list Action :=
  let '(running, w, t) := isDaemonRunning w in
  if running then (Done, w, t)
  else
    let w := mkWorld (pid_file w) false in
    match spawned with
    | None => (Done, w, t ++ [Spawn])
    | Some pid =>
        if pid =? 0 then (Done, mkWorld (pid_file w) bound, t ++ [Spawn])
        else
          let w := write_pid (pretty pid) w in
          match (SocketManager.connect sockets).1 with
          | SocketManager.Returns true =>
              (Done, mkWorld (pid_file w) true, t ++ [Spawn])
          | SocketManager.Returns false =>
              (Exit 1, mkWorld (pid_file w) bound, t ++ [Spawn])
          | SocketManager.Throws e =>
              (Raise e, mkWorld (pid_file w) bound, t ++ [Spawn])
          | SocketManager.Never => (Hang, mkWorld (pid_file w) bound, t ++ [Spawn])
          end
    end.

(** [handleDaemonCommand(command)]: the world, the signals and what is
    logged. *)
Definition handleDaemonCommand (command : string) (w : World)
    : World * list Action * string :=
  if String.eqb command "stop" then
    let '(w, t) := stopDaemon w in (w, t, "Daemon stopped")
  else
    let '(running, w, t) := isDaemonRunning w in
    (w, t, if running then "Daemon is running" else "Daemon is not running").

End Library.

End DaemonManager.

(** * Verification *)

(** ** Definitions used by the statements *)

(** One append: the clock reading, the text and the origin of a chunk. *)
Record Append := mkAppend {
  ap_now : Z;
  ap_message : string;
  ap_isError : bool
}.

(** The entry that [addLog] makes of it. *)
Definition entry_of (a : Append) : LogEntry :=
  mkLogEntry (ap_now a) (ap_message a) (ap_isError a).

(** [addLog] called once for every element of [aps], in order. *)
Definition append_all (p : ProcessInfo) (aps : list Append) : ProcessInfo :=
  foldl (λ q a, (addLog (ap_now a) q (ap_message a) (ap_isError a)).1) p aps.

(** The [k] most recent elements of [l], in their order. *)
Definition most_recent {A} (k : nat) (l : list A) : list A :=
  drop (length l - k) l.

(** How many entries a buffer of capacity [cap] retains of [n] appended. *)
Definition retained (n : nat) (cap : Z) : nat :=
  Z.to_nat (Z.min (Z.of_nat n) cap).

(** The record that [start] creates: no exit code, an empty buffer. *)
Definition fresh_record (i scr : string) (t : Z) (o : ProcessOptions) : ProcessInfo :=
  mkProcessInfo i scr (mkSubprocess None false) t empty_array (with_defaults o).

(** Two records have the same buffer: the same entries and options. *)
Definition same_buffer (p q : ProcessInfo) : Prop :=
  items (logs q) = items (logs p) ∧ options q = options p.

(** The chunks that the child of record [r] writes during the events [es]. *)
Definition outputs_of (r : nat) (es : list Event) : list Append :=
  omap (λ e, match e with
             | ChildOutput r' isErr now chunk =>
                 if decide (r' = r) then Some (mkAppend now chunk isErr) else None
             | _ => None
             end) es.

(** The invariant of the manager.  The keys of the registry are distinct;
    every reference of the registry names an object of the store, whose
    [id] is the key; every object has the closure arguments of the [start]
    call that made it, and its script and options come from them. *)
Record wf (m : ProcessManager) : Prop := mk_wf {
  wf_keys : NoDup (JS.Map_keys (processes m));
  wf_refs : ∀ k r, (k, r) ∈ processes m →
            ∃ p, objects m !! r = Some p ∧ id p = k;
  wf_length : length (spawned m) = length (objects m);
  wf_closures : ∀ r p, objects m !! r = Some p →
            ∃ o, spawned m !! r = Some (script p, o) ∧ options p = with_defaults o
}.

(** Two records are the same process: everything but the log buffer and the
    state of the child agrees. *)
Definition same_process (p q : ProcessInfo) : Prop :=
  id q = id p ∧ script q = script p ∧ startTime q = startTime p
  ∧ options q = options p.

(** The states the daemon reaches from its initial state. *)
Definition reachable (d : Daemon) : Prop := ∃ es, run es new_daemon = Some d.

(** A process id is registered when the registry has a record under it. *)
Definition is_registered (k : string) (m : ProcessManager) : Prop :=
  is_Some (JS.Map_get k (processes m)).

(** The order of two ids as the numbers they render. *)
Definition id_le (s1 s2 : string) : Prop :=
  ∃ t1 t2 : Z, s1 = pretty t1 ∧ s2 = pretty t2 ∧ t1 ≤ t2.

(** A parser reads a prefix of the tokens: what follows the value is left
    untouched, and more fuel changes nothing. *)
Definition stable {A} (parse : nat → list JSON.token → option (A * list JSON.token)) (f : nat) : Prop :=
  ∀ ts v r, parse f ts = Some (v, r) →
  ∀ f' ts', (f ≤ f')%nat → parse f' (ts ++ ts') = Some (v, r ++ ts').

(** The delimiter of the framing. *)
Definition newline_char : ascii := JSON.chr 10.

(** A clock whose first reading is [a] and whose later readings are [b]. *)
Definition sample_clock (a b : Z) : Clock := λ i, match i with O => a | _ => b end.

(** A manager with one process, ["5"], whose buffer holds three entries. *)
Definition three_entries : ProcessManager :=
  let m0 := (start (sample_clock 5 5) "app.js" (mkOptions None None) new_manager).2 in
  let m1 := (handler_write 0 false 6 "one" m0).1 in
  let m2 := (handler_write 0 true 7 "two" m1).1 in
  (handler_write 0 false 8 "three" m2).1.

(** A process started at reading 5 without restart, whose child exits with
    [code] at reading 9. *)
Definition exited_with (code : Z) : ProcessManager :=
  exited 0 code (sample_clock 9 9)
    (start (sample_clock 5 5) "app.js" (mkOptions (Some false) None) new_manager).2.

(** The same process, whose child is ended by [signal] at reading 9. *)
Definition ended_by (signal : positive) : ProcessManager :=
  signaled 0 signal (sample_clock 9 9)
    (start (sample_clock 5 5) "app.js" (mkOptions (Some false) None) new_manager).2.

(** Two children, started with restart at readings 1 and 2. *)
Definition two_crash_loopers : ProcessManager :=
  let m1 := (start (sample_clock 1 1) "a.js" (mkOptions (Some true) None) new_manager).2 in
  (start (sample_clock 2 2) "b.js" (mkOptions (Some true) None) m1).2.

(** The text of a JSON string without escapes, and the requests of the
    examples. *)
Definition quoted (s : string) : string :=
  String JSON.dquote (s +:+ String JSON.dquote EmptyString).

Definition member_text (k v : string) : string := quoted k +:+ ":" +:+ v.

Definition stop_request (k : string) : string :=
  "{" +:+ member_text "type" (quoted "stop") +:+ ","
  +:+ member_text "processId" (quoted k) +:+ "}" +:+ newline.

Definition logs_request (k : string) (startIndex count : string) : string :=
  "{" +:+ member_text "type" (quoted "logs") +:+ ","
  +:+ member_text "processId" (quoted k) +:+ ","
  +:+ member_text "startIndex" startIndex +:+ ","
  +:+ member_text "count" count +:+ "}" +:+ newline.

Definition attach_request (k : string) : string :=
  "{" +:+ member_text "type" (quoted "attach") +:+ ","
  +:+ member_text "processId" (quoted k) +:+ "}" +:+ newline.

Definition start_request_capacity_1 : string :=
  "{" +:+ member_text "type" (quoted "start") +:+ ","
  +:+ member_text "script" (quoted "app.js") +:+ ","
  +:+ member_text "options" ("{" +:+ member_text "maxLogLines" "1" +:+ "}")
  +:+ "}" +:+ newline.

Definition list_document : string := "{" +:+ member_text "type" (quoted "list") +:+ "}".

Definition list_request : string := list_document +:+ newline.

(** The [list] request cut in two. *)
Definition list_request_head : string := "{" +:+ quoted "type".

Definition list_request_tail : string := ":" +:+ quoted "list" +:+ "}" +:+ newline.

(** A daemon with one process, ["5"], of capacity 1, which has written one
    chunk. *)
Definition one_line_daemon : Daemon :=
  default new_daemon
    (run [SocketData 0 (sample_clock 5 5) start_request_capacity_1;
          ChildOutput 0 false 6 "zero"] new_daemon).

(** ** Definitions used by the statements about whole runs *)


(** The events in which the child of record [r] writes the chunks [aps]. *)
Definition output_events (r : nat) (aps : list Append) : list Event :=
  (λ a, ChildOutput r (ap_isError a) (ap_now a) (ap_message a)) <$> aps.

(** The configuration mirror of [m'] is the one of [m] followed by the
    records created since, in the order of their creation. *)
Definition mirror_grown (m m' : ProcessManager) : Prop :=
  (length (objects m) ≤ length (objects m'))%nat
  ∧ config m'
    = config m ++ seq (length (objects m)) (length (objects m') - length (objects m)).

(** The types of message that the listener knows. *)
Definition known_types : list string := ["start"; "stop"; "list"; "logs"; "attach"].

(** A run of the daemon: a process of capacity 1 is started, writes a chunk,
    is attached to, and exits with code 1. *)
Definition sample_events : list Event :=
  [SocketData 0 (sample_clock 5 5) start_request_capacity_1;
   ChildOutput 0 false 6 "zero";
   SocketData 1 (sample_clock 7 7) (attach_request "5");
   ChildExit 0 1 (sample_clock 9 9)].

Definition sample_daemon : Daemon := default new_daemon (run sample_events new_daemon).

(** ** Definitions used by the statements about the client *)

(** The trace of the failed attempts [i .. j-1], each followed by its pause. *)
Definition retried (i j : Z) : list SocketManager.Step :=
  seqZ i (j - i) ≫= λ k, [SocketManager.Tried k; SocketManager.Slept 1000].

Definition is_rejected {A} (s : option (SocketManager.Settled A)) : Prop :=
  ∃ e, s = Some (SocketManager.Rejected e).

(** How a call ends when the attempt that decides it has ended as [s]. *)
Definition completion_of {A} (s : option (SocketManager.Settled A))
    : SocketManager.Completion A :=
  match s with
  | Some (SocketManager.Fulfilled v) => SocketManager.Returns v
  | Some (SocketManager.Rejected e) => SocketManager.Throws e
  | None => SocketManager.Never
  end.

(** The chunks of a text, put together again. *)
Definition joined (chunks : list string) : string := foldr String.append EmptyString chunks.

(** The outcome of an attempt of [sendMessage] that has read [text]. *)
Definition parsed_reply (text : string) : SocketManager.Settled JSON.value :=
  match JSON.parse text with
  | Some v => SocketManager.Fulfilled v
  | None => SocketManager.Rejected SocketManager.SyntaxError
  end.

(** No control character (in particular no newline) occurs in the text. *)
Definition printable (s : string) : Prop :=
  Forall (λ c, (32 ≤ nat_of_ascii c)%nat) (list_ascii_of_string s).

(** Every character of the text is one byte: however the bytes are cut,
    no cut falls inside a character. *)
Definition plain_char (c : ascii) : bool := (N_of_ascii c <? 128)%N.

Definition plain (s : string) : bool := forallb plain_char (list_ascii_of_string s).

(** The message of a [start] request, parsed. *)
Definition start_value (script : string) (restart : bool) : JSON.value :=
  JSON.Object [("type", JSON.Str "start"); ("script", JSON.Str script);
               ("options", JSON.Object [("restart", JSON.Bool restart)])].

(** A socket that reports its connection and then the chunks. *)
Definition replies (chunks : list string) : list SocketManager.SocketEvent :=
  SocketManager.OnConnect :: (SocketManager.OnData <$> chunks).

(** Sockets for the examples: attempt 0 is refused, attempt 1 times out,
    attempt 2 gets the chunks, every later attempt is refused. *)
Definition third_time_lucky (chunks : list string) (i : Z)
    : list SocketManager.SocketEvent :=
  if i =? 0 then [SocketManager.OnError (SocketManager.Err "ECONNREFUSED")]
  else if i =? 1 then [SocketManager.OnTimeout]
  else if i =? 2 then replies chunks
  else [SocketManager.OnError (SocketManager.Err "ECONNREFUSED")].

(** The reply to [stop], cut into three chunks. *)
Definition stopped_chunks : list string :=
  ["{"; Stringify.quote "status" +:+ ":";
   Stringify.quote "stopped" +:+ "}" +:+ newline].

(** The reply to [start] with id [k], cut into three chunks. *)
Definition started_chunks (k : string) : list string :=
  ["{" +:+ Stringify.quote "status"; ":" +:+ Stringify.quote "ok" +:+ ",";
   Stringify.member "id" (Stringify.quote k) +:+ "}" +:+ newline].

(** ** Definitions used by the statements about the supervisor of the daemon *)

(** A library for the examples: it reads a decimal integer as [Number]
    does, and takes every other text for [NaN]. *)
Definition sample_number_of (text : string) : DaemonManager.number :=
  match JSON.parse text with
  | Some (JSON.Number n) =>
      match JSON.to_integer n with
      | Some z => DaemonManager.Integer z
      | None => DaemonManager.NaN
      end
  | _ => DaemonManager.NaN
  end.

(** A system for the examples, in which process 4242 answers. *)
Definition sample_probe (pid : DaemonManager.number) : bool :=
  match pid with DaemonManager.Integer 4242 => true | _ => false end.

(** A world in which a daemon has died and left its PID file and socket. *)
Definition stale_world : DaemonManager.World :=
  DaemonManager.mkWorld (Some "4100") true.

(** ** The log buffer *)

Lemma capacity_nonzero o : capacity o ≠ 0.
Proof.
  unfold capacity, JS.or_default.
  destruct (maxLogLines o) as [v|]; [|lia].
  destruct (Z.eqb_spec v 0); lia.
Qed.

Lemma capacity_with_defaults o : capacity (with_defaults o) = capacity o.
Proof. unfold capacity, with_defaults. simpl. by destruct (maxLogLines o). Qed.

Lemma slice_from_end {A} (l : list A) (cap : Z) :
  0 < cap < Z.of_nat (length l) →
  JS.slice l (- cap) None = drop (length l - Z.to_nat cap) l.
Proof.
  intros H. unfold JS.slice, JS.rel_index.
  destruct (Z.ltb_spec (- cap) 0); [|lia].
  rewrite Z.max_l by lia.
  replace (Z.to_nat (Z.of_nat (length l) + - cap)) with (length l - Z.to_nat cap)%nat by lia.
  apply take_ge. rewrite length_drop. lia.
Qed.

Lemma slice_negative_capacity {A} (l : list A) (cap : Z) :
  cap < 0 → length l = 1%nat → JS.slice l (- cap) None = [].
Proof.
  intros H Hl. unfold JS.slice, JS.rel_index. rewrite Hl.
  destruct (Z.ltb_spec (- cap) 0); [lia|].
  rewrite Z.min_r by lia. simpl.
  destruct l as [|x [|y l]]; simplify_eq/=; done.
Qed.

(** The step of the buffer on plain lists: [l] holds the retained part of
    [all]; pushing [e] and trimming retains the right part of [all ++ [e]]. *)
Lemma trim_step {A} (all : list A) (e : A) (cap : Z) :
  cap ≠ 0 →
  let l := most_recent (retained (length all) cap) all ++ [e] in
  (if Z.of_nat (length l) >? cap then JS.slice l (- cap) None else l)
  = most_recent (retained (length (all ++ [e])) cap) (all ++ [e]).
Proof.
  intros Hcap l. unfold most_recent, retained in *.
  rewrite length_app. simpl.
  set (n := length all) in *.
  assert (Hl : length l = S (Z.to_nat (Z.min (Z.of_nat n) cap))).
  { unfold l. rewrite length_app, length_drop. simpl. fold n. lia. }
  destruct (Z.gtb_spec (Z.of_nat (length l)) cap) as [Hgt|Hle].
  - destruct (Z.ltb_spec cap 0) as [Hneg|Hpos].
    + rewrite slice_negative_capacity; [|lia|rewrite Hl; lia].
      symmetry. apply drop_ge. rewrite length_app. simpl. fold n. lia.
    + rewrite slice_from_end by lia.
      unfold l. rewrite <- drop_app_le by (fold n; lia).
      rewrite drop_drop. f_equal.
      rewrite length_drop, length_app. simpl. fold n. lia.
  - unfold l. rewrite <- drop_app_le by (fold n; lia).
    f_equal. lia.
Qed.

Lemma addLog_options now p msg e : options (addLog now p msg e).1 = options p.
Proof. unfold addLog. simpl. by case_match. Qed.

Lemma addLog_items now p msg e :
  items (logs (addLog now p msg e).1)
  = let l := items (logs p) ++ [mkLogEntry now msg e] in
    if Z.of_nat (length l) >? capacity (options p)
    then JS.slice l (- capacity (options p)) None else l.
Proof. unfold addLog. simpl. by case_match. Qed.

Lemma append_all_snoc p aps a :
  append_all p (aps ++ [a])
  = (addLog (ap_now a) (append_all p aps) (ap_message a) (ap_isError a)).1.
Proof. unfold append_all. by rewrite foldl_app. Qed.

Lemma append_all_options p aps : options (append_all p aps) = options p.
Proof.
  induction aps as [|a aps IH] using rev_ind; [done|].
  by rewrite append_all_snoc, addLog_options.
Qed.

(** The buffer of a record that starts empty, after any appends. *)
Lemma append_all_items p aps :
  items (logs p) = [] →
  items (logs (append_all p aps))
  = most_recent (retained (length aps) (capacity (options p))) (entry_of <$> aps).
Proof.
  intros Hp. induction aps as [|a aps IH] using rev_ind.
  - simpl. by rewrite Hp.
  - rewrite append_all_snoc, addLog_items, append_all_options, IH. simpl.
    rewrite fmap_app. simpl.
    pose proof (trim_step (entry_of <$> aps) (entry_of a) _
                  (capacity_nonzero (options p))) as H.
    replace (length (aps ++ [a]))
      with (length ((entry_of <$> aps) ++ [entry_of a]))
      by (by rewrite !length_app, length_fmap).
    rewrite <- (length_fmap entry_of aps). exact H.
Qed.

(** ** The buffer of a record during a run of the daemon *)

Lemma addLog_same_buffer now p q msg e :
  same_buffer p q → same_buffer (addLog now p msg e).1 (addLog now q msg e).1.
Proof.
  intros [Hi Ho]. split.
  - rewrite !addLog_items. cbv zeta. by rewrite Hi, Ho.
  - by rewrite !addLog_options.
Qed.

Lemma append_all_same_buffer p q aps :
  same_buffer p q → same_buffer (append_all p aps) (append_all q aps).
Proof.
  revert p q. induction aps as [|a aps IH]; intros p q H; [done|].
  simpl. apply IH. by apply addLog_same_buffer.
Qed.

Lemma start_keeps_objects clock scr o m r p :
  objects m !! r = Some p → objects (start clock scr o m).2 !! r = Some p.
Proof. intros H. simpl. by apply lookup_app_l_Some. Qed.

Lemma dispatch_buffer spawn sock clock msg d d' r p :
  dispatch_when spawn sock clock msg d = Some d' → objects (manager d) !! r = Some p →
  ∃ p', objects (manager d') !! r = Some p' ∧ same_buffer p p'.
Proof.
  intros H Hp. unfold dispatch_when in H.
  repeat case_match; simplify_eq/=; try (by exists p).
  - match goal with H : start _ _ _ _ = _ |- _ =>
      apply (f_equal snd) in H; simpl in H; subst end.
    exists p. split; [|done]. by apply lookup_app_l_Some.
  - unfold stop. case_match; simpl; [|by exists p].
    rewrite list_lookup_alter. case_decide; subst.
    + rewrite Hp. by exists (kill p).
    + by exists p.
  - match goal with |- context [<[?r0 := ?q]> _ !! r] =>
      destruct (decide (r0 = r)) as [->|Hne] end.
    + rewrite list_lookup_insert_eq by (by eapply lookup_lt_Some).
      eexists. split; [done|]. by simplify_eq.
    + rewrite list_lookup_insert_ne by done. by exists p.
Qed.

Lemma on_data_buffer spawn sock clock chunk d d' r p :
  on_data_when spawn sock clock chunk d = Some d' → objects (manager d) !! r = Some p →
  ∃ p', objects (manager d') !! r = Some p' ∧ same_buffer p p'.
Proof.
  intros H Hp. unfold on_data_when in H.
  repeat case_match; simplify_eq/=; try (by exists p);
    by eapply dispatch_buffer; [eassumption|].
Qed.

Lemma terminated_buffer r0 t clock m r p :
  objects m !! r = Some p →
  ∃ p', objects (terminated r0 t clock m) !! r = Some p' ∧ same_buffer p p'.
Proof.
  intros Hp. unfold terminated.
  destruct (objects m !! r0) as [p0|] eqn:Hp0; [|by exists p].
  destruct (spawned m !! r0) as [[scr o]|]; [|by exists p].
  assert (∃ p', <[r0 := set_process p0
                          (mkSubprocess (exitCode_after t (exitCode (process p0)))
                                        (killed (process p0)))]>
                  (objects m) !! r = Some p' ∧ same_buffer p p') as (p' & Hp' & Hb).
  { destruct (decide (r0 = r)) as [->|Hne].
    - rewrite list_lookup_insert_eq by (by eapply lookup_lt_Some).
      eexists. split; [done|]. by simplify_eq.
    - rewrite list_lookup_insert_ne by done. by exists p. }
  exists p'. split; [|done].
  destruct (restart_wanted (resolved t) o); [|done]. by apply start_keeps_objects.
Qed.

(** One event changes the buffer of record [r] only when it is a chunk
    written by the child of [r], and then by [addLog]. *)
Lemma step_buffer e d d' r p :
  step e d = Some d' → objects (manager d) !! r = Some p →
  ∃ p', objects (manager d') !! r = Some p'
        ∧ same_buffer (append_all p (outputs_of r [e])) p'.
Proof.
  intros H Hp.
  destruct e as [sock clock chunk|r0 isErr now chunk|r0 code clock
                |sock clock chunk|r0 signal clock];
    simpl in H.
  - by eapply on_data_buffer.
  - unfold handler_write in H. unfold outputs_of. simpl.
    destruct (objects (manager d) !! r0) as [p0|] eqn:Hp0.
    + destruct (addLog now p0 chunk isErr) as [q w] eqn:Ha. simplify_eq/=.
      case_decide; subst.
      * rewrite list_lookup_insert_eq by (by eapply lookup_lt_Some).
        simplify_eq. exists q. split; [done|].
        simpl. by rewrite Ha.
      * rewrite list_lookup_insert_ne by done. by exists p.
    + simplify_eq/=. case_decide; subst; [congruence|]. by exists p.
  - simplify_eq/=. by apply terminated_buffer.
  - by eapply on_data_buffer.
  - simplify_eq/=. by apply terminated_buffer.
Qed.

Lemma run_buffer es d d' r p :
  run es d = Some d' → objects (manager d) !! r = Some p →
  ∃ p', objects (manager d') !! r = Some p'
        ∧ same_buffer (append_all p (outputs_of r es)) p'.
Proof.
  revert d p. induction es as [|e es IH]; intros d p H Hp; simpl in H.
  - simplify_eq. by exists p.
  - destruct (step e d) as [d1|] eqn:Hs; [|done]. simpl in H.
    destruct (step_buffer e d d1 r p Hs Hp) as (p1 & Hp1 & Hb1).
    destruct (IH d1 p1 H Hp1) as (p' & Hp' & [Hi Ho]).
    exists p'. split; [done|].
    replace (outputs_of r (e :: es)) with (outputs_of r [e] ++ outputs_of r es)
      by (unfold outputs_of; by rewrite <- omap_app).
    unfold append_all at 1. rewrite foldl_app.
    fold (append_all p (outputs_of r [e])).
    fold (append_all (append_all p (outputs_of r [e])) (outputs_of r es)).
    destruct (append_all_same_buffer _ _ (outputs_of r es) Hb1) as [Hi' Ho'].
    split; congruence.
Qed.

(** The record that [start] creates, after any events: whatever else
    happens (requests, attach sessions, [stop], exits, restarts, output of
    other children), its buffer is the result of [addLog] for its own
    chunks, hence the most recent of them up to its capacity. *)
Lemma started_buffer d clock scr o es d' :
  let r := length (objects (manager d)) in
  let outs := outputs_of r es in
  run es (set_manager d (start clock scr o (manager d)).2) = Some d' →
  ∃ p, objects (manager d') !! r = Some p
       ∧ options p = with_defaults o
       ∧ items (logs p)
         = most_recent (retained (length outs) (capacity o)) (entry_of <$> outs).
Proof.
  intros r outs Hrun.
  destruct (run_buffer es _ d' r
              (fresh_record (pretty (clock 0%nat)) scr (clock 1%nat) o) Hrun)
    as (p & Hp & Hi & Ho).
  { simpl. by apply list_lookup_middle. }
  exists p. split; [done|].
  rewrite Ho, Hi, append_all_options, append_all_items by done.
  split; [done|]. simpl. by rewrite capacity_with_defaults.
Qed.




(** C10. A process started with [maxLogLines] equal to 0 does not get a
    buffer of capacity 0: the threshold is the default 1000, so after any
    events the buffer retains the most recent [min n 1000] of the [n] entries
    appended for the chunks of its child. *)
Theorem C10_zero_maxLogLines_is_default (d d' : Daemon) (clock : Clock) (scr : string)
    (rs : option bool) (es : list Event) :
  let r := length (objects (manager d)) in
  let appended := entry_of <$> outputs_of r es in
  run es (set_manager d (start clock scr (mkOptions rs (Some 0)) (manager d)).2)
  = Some d' →
  ∃ p, objects (manager d') !! r = Some p
       ∧ maxLogLines (options p) = Some 0
       ∧ capacity (options p) = 1000
       ∧ items (logs p) = most_recent (Nat.min (length appended) 1000) appended
       ∧ length (items (logs p)) = Nat.min (length appended) 1000.
Proof.
  intros r appended Hrun.
  destruct (started_buffer d clock scr _ es d' Hrun) as (p & Hp & Ho & Hi).
  assert (Hi' : items (logs p)
                = most_recent (Nat.min (length appended) 1000) appended).
  { rewrite Hi. unfold appended, r. rewrite length_fmap. f_equal.
    change (capacity (mkOptions rs (Some 0))) with 1000. unfold retained. lia. }
  exists p. split_and!; [done|by rewrite Ho|by rewrite Ho|done|].
  rewrite Hi'. unfold most_recent. rewrite length_drop. lia.
Qed.

(** With [maxLogLines] 0, two chunks are both retained. *)
Lemma C10_zero_maxLogLines_is_default_witness :
  ∃ d' p,
    run [ChildOutput 0 false 6 "one"; ChildOutput 0 true 7 "two"]
      (set_manager new_daemon
         (start (sample_clock 5 5) "app.js" (mkOptions None (Some 0)) new_manager).2)
    = Some d'
    ∧ objects (manager d') !! 0%nat = Some p
    ∧ items (logs p) = [mkLogEntry 6 "one" false; mkLogEntry 7 "two" true].
Proof.
  destruct (run _ _) as [d'|] eqn:Hrun; [|by vm_compute in Hrun].
  destruct (C10_zero_maxLogLines_is_default new_daemon d' (sample_clock 5 5) "app.js"
              None _ Hrun) as (p & Hp & _ & _ & H & _).
  exists d', p. split; [reflexivity|]. split; [exact Hp|]. rewrite H. reflexivity.
Defined.

(** ** The registry *)

Section MapFacts.
Context {V : Type}.
Implicit Types (m : list (string * V)) (k : string) (v : V).

Lemma Map_get_elem m k v : JS.Map_get k m = Some v → (k, v) ∈ m.
Proof.
  induction m as [|[k' v'] m IH]; simpl; [done|].
  destruct (String.eqb_spec k k') as [->|Hne]; intros H.
  - simplify_eq. left.
  - right. by apply IH.
Qed.

Lemma Map_get_None m k : JS.Map_get k m = None ↔ k ∉ JS.Map_keys m.
Proof.
  unfold JS.Map_keys. induction m as [|[k' v'] m IH]; simpl.
  - split; [intros _; apply not_elem_of_nil|done].
  - rewrite not_elem_of_cons.
    destruct (String.eqb_spec k k') as [->|Hne]; [naive_solver|].
    rewrite IH. naive_solver.
Qed.

Lemma Map_elem_get m k v :
  NoDup (JS.Map_keys m) → (k, v) ∈ m → JS.Map_get k m = Some v.
Proof.
  unfold JS.Map_keys. induction m as [|[k' v'] m IH]; simpl.
  - intros _ H. by apply elem_of_nil in H.
  - rewrite NoDup_cons, elem_of_cons. intros [Hk Hnd] [Heq|Hin].
    + simplify_eq. by rewrite String.eqb_refl.
    + destruct (String.eqb_spec k k') as [->|Hne]; [|by apply IH].
      destruct Hk. apply list_elem_of_fmap. by exists (k', v).
Qed.

Lemma Map_get_set_eq m k v : JS.Map_get k (JS.Map_set k v m) = Some v.
Proof.
  induction m as [|[k' v'] m IH]; simpl.
  - by rewrite String.eqb_refl.
  - destruct (String.eqb_spec k k') as [->|Hne]; simpl.
    + by rewrite String.eqb_refl.
    + destruct (String.eqb_spec k k'); [done|]. apply IH.
Qed.

Lemma Map_get_set_ne m k k' v :
  k ≠ k' → JS.Map_get k' (JS.Map_set k v m) = JS.Map_get k' m.
Proof.
  intros Hne. induction m as [|[k0 v0] m IH]; simpl.
  - destruct (String.eqb_spec k' k); [congruence|done].
  - destruct (String.eqb_spec k k0) as [->|Hne0]; simpl.
    + destruct (String.eqb_spec k' k0); [congruence|done].
    + destruct (String.eqb_spec k' k0); [done|]. apply IH.
Qed.

(** [set] keeps the position of a key that is present and appends a key
    that is new. *)
Lemma Map_set_fresh m k v :
  JS.Map_get k m = None → JS.Map_set k v m = m ++ [(k, v)].
Proof.
  induction m as [|[k' v'] m IH]; simpl; [done|].
  destruct (String.eqb_spec k k') as [->|Hne]; [done|].
  intros H. by rewrite IH.
Qed.

Lemma Map_keys_set m k v :
  JS.Map_keys (JS.Map_set k v m)
  = match JS.Map_get k m with
    | Some _ => JS.Map_keys m
    | None => JS.Map_keys m ++ [k]
    end.
Proof.
  unfold JS.Map_keys. induction m as [|[k' v'] m IH]; csimpl; [done|].
  destruct (String.eqb_spec k k') as [->|Hne]; csimpl; [done|].
  rewrite IH. by destruct (JS.Map_get k m).
Qed.

Lemma Map_set_elem m k v k' v' :
  (k', v') ∈ JS.Map_set k v m → (k', v') = (k, v) ∨ (k', v') ∈ m.
Proof.
  induction m as [|[k0 v0] m IH]; simpl.
  - rewrite list_elem_of_singleton. auto.
  - destruct (String.eqb_spec k k0) as [->|Hne]; rewrite !elem_of_cons;
      naive_solver.
Qed.

Lemma Map_set_NoDup m k v :
  NoDup (JS.Map_keys m) → NoDup (JS.Map_keys (JS.Map_set k v m)).
Proof.
  intros Hnd. rewrite Map_keys_set.
  destruct (JS.Map_get k m) eqn:Hg; [done|].
  apply NoDup_app. split_and!; [done| |apply NoDup_singleton].
  intros x Hx. rewrite list_elem_of_singleton. intros ->.
  by apply Map_get_None in Hg.
Qed.

Lemma Map_delete_elem m k k' v' :
  (k', v') ∈ JS.Map_delete k m → (k', v') ∈ m.
Proof.
  induction m as [|[k0 v0] m IH]; simpl; [done|].
  destruct (String.eqb_spec k k0) as [->|Hne]; rewrite !elem_of_cons;
    naive_solver.
Qed.

Lemma Map_keys_delete m k :
  JS.Map_keys (JS.Map_delete k m) `sublist_of` JS.Map_keys m.
Proof.
  unfold JS.Map_keys. induction m as [|[k0 v0] m IH]; simpl; [done|].
  destruct (String.eqb_spec k k0) as [->|Hne]; simpl.
  - by apply sublist_cons.
  - by apply sublist_skip.
Qed.

Lemma Map_get_delete_eq m k :
  NoDup (JS.Map_keys m) → JS.Map_get k (JS.Map_delete k m) = None.
Proof.
  unfold JS.Map_keys. induction m as [|[k0 v0] m IH]; simpl; [done|].
  rewrite NoDup_cons. intros [Hk Hnd].
  destruct (String.eqb_spec k k0) as [->|Hne]; simpl.
  - by apply Map_get_None.
  - destruct (String.eqb_spec k k0); [done|]. by apply IH.
Qed.

Lemma Map_get_delete_ne m k k' :
  k ≠ k' → JS.Map_get k' (JS.Map_delete k m) = JS.Map_get k' m.
Proof.
  intros Hne. induction m as [|[k0 v0] m IH]; simpl; [done|].
  destruct (String.eqb_spec k k0) as [->|Hne0]; simpl.
  - destruct (String.eqb_spec k' k0); [congruence|done].
  - destruct (String.eqb_spec k' k0); [done|]. apply IH.
Qed.

End MapFacts.

(** ** The invariant of the manager is preserved *)

Lemma same_process_refl p : same_process p p.
Proof. done. Qed.

Lemma wf_new : wf new_manager.
Proof.
  split; simpl.
  - apply NoDup_nil_2.
  - intros k r H. by apply elem_of_nil in H.
  - done.
  - intros r p H. done.
Qed.

(** Updating the objects of the store in place, each staying the same
    process, preserves the invariant. *)
Lemma wf_set_objects m os :
  wf m →
  length os = length (objects m) →
  (∀ r p q, objects m !! r = Some p → os !! r = Some q → same_process p q) →
  wf (set_objects m os).
Proof.
  intros [Hk Hr Hl Hc] Hlen Hsame. split; simpl; [done| |congruence|].
  - intros k r Hin. destruct (Hr k r Hin) as (p & Hp & <-).
    destruct (lookup_lt_is_Some_2 os r) as [q Hq].
    { rewrite Hlen. by eapply lookup_lt_Some. }
    destruct (Hsame r p q Hp Hq) as (Hid & _). eauto.
  - intros r q Hq.
    destruct (lookup_lt_is_Some_2 (objects m) r) as [p Hp].
    { rewrite <- Hlen. by eapply lookup_lt_Some. }
    destruct (Hsame r p q Hp Hq) as (_ & Hs & _ & Ho).
    destruct (Hc r p Hp) as (o & Hsp & Hop).
    exists o. by rewrite Hs, Ho.
Qed.

Lemma wf_insert m r p q :
  wf m → objects m !! r = Some p → same_process p q →
  wf (set_objects m (<[r := q]> (objects m))).
Proof.
  intros Hwf Hp Hpq. apply wf_set_objects; [done|apply length_insert|].
  intros r' p' q' Hp' Hq'. destruct (decide (r = r')) as [<-|Hne].
  - rewrite list_lookup_insert_eq in Hq' by (by eapply lookup_lt_Some).
    by simplify_eq.
  - rewrite list_lookup_insert_ne in Hq' by done. by simplify_eq.
Qed.

Lemma addLog_same_process now p msg e : same_process p (addLog now p msg e).1.
Proof. unfold addLog. simpl. by case_match. Qed.

Lemma wf_start clock scr o m : wf m → wf (start clock scr o m).2.
Proof.
  intros [Hk Hr Hl Hc]. split; simpl.
  - by apply Map_set_NoDup.
  - intros k r Hin. apply Map_set_elem in Hin as [Heq|Hin].
    + simplify_eq. eexists. split; [apply list_lookup_middle; done|done].
    + destruct (Hr k r Hin) as (p & Hp & Hid).
      exists p. split; [|done]. by apply lookup_app_l_Some.
  - rewrite !length_app. simpl. lia.
  - intros r p Hp. apply lookup_app_Some in Hp as [Hp|[Hlen Hp]].
    + destruct (Hc r p Hp) as (o' & Hsp & Hop).
      exists o'. split; [|done]. by apply lookup_app_l_Some.
    + destruct (r - length (objects m))%nat as [|n] eqn:Hn; [|done].
      simpl in Hp. simplify_eq. exists o. split; [|done].
      replace r with (length (spawned m) + 0)%nat by lia.
      by rewrite lookup_app_r, Nat.add_comm, Nat.add_sub by lia.
Qed.

Lemma wf_handler_write r e now chunk m : wf m → wf (handler_write r e now chunk m).1.
Proof.
  intros Hwf. unfold handler_write.
  destruct (objects m !! r) as [p|] eqn:Hp; [|done].
  destruct (addLog now p chunk e) as [p' w] eqn:Ha. simpl.
  eapply wf_insert; [done..|].
  pose proof (addLog_same_process now p chunk e) as H. by rewrite Ha in H.
Qed.

Lemma wf_terminated r t clock m : wf m → wf (terminated r t clock m).
Proof.
  intros Hwf. unfold terminated.
  destruct (objects m !! r) as [p|] eqn:Hp; [|done].
  destruct (spawned m !! r) as [[scr o]|]; [|done].
  assert (wf (set_objects m (<[r := set_process p
     (mkSubprocess (exitCode_after t (exitCode (process p))) (killed (process p)))]>
     (objects m)))) as Hwf'.
  { by eapply wf_insert. }
  destruct (restart_wanted (resolved t) o); [by apply wf_start|done].
Qed.

Lemma wf_exited r code clock m : wf m → wf (exited r code clock m).
Proof. apply wf_terminated. Qed.

Lemma kill_same_process p : same_process p (kill p).
Proof. done. Qed.

Lemma wf_stop k m : wf m → wf (stop k m).
Proof.
  intros Hwf. unfold stop.
  destruct (JS.Map_get k (processes m)) as [r|] eqn:Hg; [|done].
  assert (Hwf' : wf (set_objects m (alter kill r (objects m)))).
  { apply wf_set_objects; [done|apply length_alter|].
    intros r' p q Hp Hq. rewrite list_lookup_alter in Hq.
    case_decide; simplify_eq/=; [|done]. rewrite Hp in Hq. by simplify_eq/=. }
  destruct Hwf' as [Hk Hr Hl Hc]. split; simpl in *; [|  |done..].
  - eapply sublist_NoDup; [done|apply Map_keys_delete].
  - intros k' r' Hin. apply Hr. by eapply Map_delete_elem.
Qed.

Lemma wf_attach sock r proc d :
  wf (manager d) → objects (manager d) !! r = Some proc →
  wf (manager (attach sock r proc d)).
Proof. intros Hwf Hp. unfold attach. simpl. by eapply wf_insert. Qed.

Lemma wf_dispatch spawn sock clock msg d d' :
  wf (manager d) → dispatch_when spawn sock clock msg d = Some d' → wf (manager d').
Proof.
  intros Hwf. unfold dispatch_when.
  repeat case_match; intros; simplify_eq/=; try done.
  - match goal with H : start _ _ _ _ = _ |- _ =>
      apply (f_equal snd) in H; simpl in H; subst end.
    by apply wf_start.
  - by apply wf_stop.
  - by apply wf_attach.
Qed.

Lemma wf_on_data spawn sock clock chunk d d' :
  wf (manager d) → on_data_when spawn sock clock chunk d = Some d' → wf (manager d').
Proof.
  intros Hwf. unfold on_data_when.
  repeat case_match; intros; simplify_eq/=; try done;
    by eapply wf_dispatch; [|eassumption].
Qed.

Lemma wf_step e d d' : wf (manager d) → step e d = Some d' → wf (manager d').
Proof.
  intros Hwf.
  destruct e as [sock clock chunk|r isErr now chunk|r code clock
                |sock clock chunk|r signal clock]; simpl.
  - by apply wf_on_data.
  - pose proof (wf_handler_write r isErr now chunk _ Hwf) as H.
    destruct (handler_write r isErr now chunk (manager d)). intros; by simplify_eq/=.
  - intros; simplify_eq/=. by apply wf_terminated.
  - by apply wf_on_data.
  - intros; simplify_eq/=. by apply wf_terminated.
Qed.

Lemma wf_run es d d' : wf (manager d) → run es d = Some d' → wf (manager d').
Proof.
  revert d. induction es as [|e es IH]; simpl; intros d Hwf H; [by simplify_eq|].
  destruct (step e d) as [d1|] eqn:Hs; [|done]. simpl in H.
  eapply IH; [|done]. by eapply wf_step.
Qed.

Lemma reachable_wf d : reachable d → wf (manager d).
Proof. intros [es H]. eapply wf_run; [|done]. apply wf_new. Qed.

Lemma getProcess_Some m k :
  wf m → is_registered k m →
  ∃ r p, JS.Map_get k (processes m) = Some r ∧ objects m !! r = Some p
         ∧ getProcess k m = Some p ∧ id p = k.
Proof.
  intros Hwf [r Hr]. destruct (wf_refs m Hwf k r) as (p & Hp & Hid).
  { by apply Map_get_elem. }
  exists r, p. unfold getProcess. rewrite Hr. simpl. done.
Qed.

Lemma getProcess_None m k : ¬ is_registered k m → getProcess k m = None.
Proof.
  intros H. unfold getProcess, is_registered in *.
  destruct (JS.Map_get k (processes m)); [|done]. destruct H. eauto.
Qed.

(** ** [getLogs] *)

Lemma slice_natural {A} (l : list A) (start count : Z) :
  0 ≤ start → 0 ≤ count →
  JS.slice l start (Some (Z.min (start + count) (Z.of_nat (length l))))
  = take (Z.to_nat count) (drop (Z.to_nat start) l).
Proof.
  intros Hs Hc. unfold JS.slice, JS.rel_index.
  set (len := Z.of_nat (length l)).
  destruct (Z.ltb_spec start 0); [lia|].
  destruct (Z.ltb_spec (Z.min (start + count) len) 0); [lia|].
  rewrite (Z.min_l (Z.min _ _) len) by lia.
  destruct (Z.le_gt_cases len start) as [Hge|Hlt].
  - rewrite !drop_ge by (unfold len in *; lia). by rewrite !take_nil.
  - rewrite (Z.min_l start len) by lia.
    destruct (Z.le_gt_cases (start + count) len).
    + f_equal. lia.
    + rewrite !take_ge; [done|rewrite length_drop; unfold len in *; lia..].
Qed.

Lemma slice_past_end {A} (l : list A) (start : Z) (e : option Z) :
  Z.of_nat (length l) ≤ start → JS.slice l start e = [].
Proof.
  intros H. unfold JS.slice, JS.rel_index.
  destruct (Z.ltb_spec start 0); [lia|].
  rewrite Z.min_r by lia. rewrite drop_ge by lia. apply take_nil.
Qed.

Lemma slice_from_end_to {A} (l : list A) (start e : Z) :
  start < 0 → 0 ≤ e ≤ Z.of_nat (length l) →
  JS.slice l start (Some e)
  = let from := Z.to_nat (Z.max (Z.of_nat (length l) + start) 0) in
    take (Z.to_nat e - from) (drop from l).
Proof.
  intros Hs He. unfold JS.slice, JS.rel_index. simpl.
  destruct (Z.ltb_spec start 0); [|lia].
  destruct (Z.ltb_spec e 0); [lia|].
  rewrite (Z.min_l e) by lia. f_equal. lia.
Qed.

(** Every slice is a contiguous part of the list. *)
Lemma slice_contiguous {A} (l : list A) (start : Z) (e : option Z) :
  ∃ before after, l = before ++ JS.slice l start e ++ after.
Proof.
  unfold JS.slice. eexists (take _ l), (drop _ (drop _ l)).
  by rewrite take_drop, take_drop.
Qed.

(** C5, as amended.  [getLogs] fails with NotFound exactly when the id is not
    registered.  For a registered id it returns, without error, a contiguous
    part of the retained window: for a start and a count that are not
    negative, the part that begins at index [start] and has [count] entries,
    or as many as the window has from there on (none when [start] is at or
    past its end); a negative start counts from the end of the window and is
    clamped at its beginning, as [Array.prototype.slice] does, and so does
    the end [start + count] when it is negative too, an end that is not
    negative being clamped at the length; the slice is empty only when the
    end so found does not lie after the beginning. *)
Theorem C5_getLogs (m : ProcessManager) (k : string) (start count : Z) :
  wf m →
  (getLogs k start count m = inl (NotFound k) ↔ ¬ is_registered k m)
  ∧ (∀ r p, JS.Map_get k (processes m) = Some r → objects m !! r = Some p →
     let window := items (logs p) in
     let len := Z.of_nat (length window) in
     ∃ res, getLogs k start count m = inr res
       ∧ (∃ before after, window = before ++ res ++ after)
       ∧ (0 ≤ start → 0 ≤ count →
          res = take (Z.to_nat count) (drop (Z.to_nat start) window))
       ∧ (len ≤ start → res = [])
       ∧ (start < 0 →
          let from := Z.max (len + start) 0 in
          let to := if start + count <? 0 then Z.max (len + (start + count)) 0
                    else Z.min (start + count) len in
          res = take (Z.to_nat to - Z.to_nat from) (drop (Z.to_nat from) window)
          ∧ (res = [] ↔ to ≤ from))).
Proof.
  intros Hwf. split.
  - split.
    + intros H [r Hr].
      destruct (getProcess_Some m k Hwf (ex_intro _ r Hr)) as (? & p & _ & _ & Hg & _).
      unfold getLogs in H. by rewrite Hg in H.
    + intros H. unfold getLogs. by rewrite getProcess_None.
  - intros r p Hr Hp window len.
    unfold getLogs, getProcess. rewrite Hr. simpl. rewrite Hp.
    eexists. split; [done|]. fold window. fold len. split_and!.
    + apply slice_contiguous.
    + intros. by apply slice_natural.
    + intros. by apply slice_past_end.
    + intros Hs. cbv zeta.
      set (from := Z.max (len + start) 0).
      set (to := if start + count <? 0 then _ else _).
      assert (JS.slice window start (Some (Z.min (start + count) len))
              = take (Z.to_nat to - Z.to_nat from) (drop (Z.to_nat from) window)) as ->.
      { unfold JS.slice, JS.rel_index. fold len.
        destruct (Z.ltb_spec start 0); [|lia]. fold from.
        assert ((if Z.min (start + count) len <? 0
                 then Z.max (len + Z.min (start + count) len) 0
                 else Z.min (Z.min (start + count) len) len) = to) as ->.
        { unfold to. destruct (Z.ltb_spec (start + count) 0).
          - rewrite (Z.min_l (start + count)) by lia.
            by destruct (Z.ltb_spec (start + count) 0); [|lia].
          - destruct (Z.ltb_spec (Z.min (start + count) len) 0); lia. }
        f_equal. unfold from, to. destruct (start + count <? 0); lia. }
      split; [done|].
      assert (0 ≤ from ≤ len ∧ 0 ≤ to ≤ len) as Hb
        by (unfold from, to, len; destruct (Z.ltb_spec (start + count) 0); lia).
      rewrite <- length_zero_iff_nil, length_take, length_drop.
      unfold len in Hb. lia.
Qed.

(** A start and an end that are both negative: the last entry but one. *)
Example getLogs_from_the_end :
  getLogs "5" (-2) 1 three_entries = inr [mkLogEntry 7 "two" true].
Proof. reflexivity. Qed.

Lemma three_entries_wf : wf three_entries.
Proof. repeat apply wf_handler_write. apply wf_start, wf_new. Defined.

Lemma C5_getLogs_witness :
  getLogs "5" 1 5 three_entries
  = inr [mkLogEntry 7 "two" true; mkLogEntry 8 "three" false].
Proof.
  destruct (C5_getLogs three_entries "5" 1 5 three_entries_wf) as [_ H].
  destruct (H 0%nat _ eq_refl eq_refl) as (res & Hres & _ & Hnat & _).
  rewrite Hres, Hnat by lia. reflexivity.
Defined.

(** C5, as stated, fails: the start [-5] is out of the range of a window of
    three entries, and [getLogs] returns the whole window, not an empty
    slice. *)
Lemma C5_negative_start_counterexample :
  is_registered "5" three_entries
  ∧ ¬ (0 ≤ -5 < 3)
  ∧ getLogs "5" (-5) 200 three_entries
    = inr [mkLogEntry 6 "one" false; mkLogEntry 7 "two" true;
           mkLogEntry 8 "three" false]
  ∧ getLogs "5" (-5) 200 three_entries ≠ inr [].
Proof. split_and!; [by eexists|lia|reflexivity|discriminate]. Qed.

(** ** [stop] *)

Lemma stop_unknown m k : ¬ is_registered k m → stop k m = m.
Proof.
  intros H. unfold stop, is_registered in *.
  destruct (JS.Map_get k (processes m)); [|done]. destruct H. eauto.
Qed.

Lemma stop_registered m k r p :
  wf m → JS.Map_get k (processes m) = Some r → objects m !! r = Some p →
  ¬ is_registered k (stop k m)
  ∧ getProcess k (stop k m) = None
  ∧ objects (stop k m) !! r = Some (kill p)
  ∧ (∀ k', k' ≠ k →
       JS.Map_get k' (processes (stop k m)) = JS.Map_get k' (processes m)).
Proof.
  intros Hwf Hr Hp. unfold stop. rewrite Hr. simpl.
  assert (Hnone : JS.Map_get k (JS.Map_delete k (processes m)) = None)
    by apply Map_get_delete_eq, Hwf.
  split_and!.
  - unfold is_registered. simpl. rewrite Hnone. by intros [? ?].
  - unfold getProcess. simpl. by rewrite Hnone.
  - by rewrite list_lookup_alter_eq, Hp.
  - intros k' Hne. by apply Map_get_delete_ne.
Qed.

(** The [stop] case of the listener: whatever [processId] is, the only
    document written is the acknowledgment. *)
Lemma dispatch_stop sock clock msg d :
  JSON.get msg "type" = JSON.Got (JSON.Str "stop") →
  dispatch sock clock msg d
  = Some (socket_write sock Stopped
            (set_manager d
               (match key_of (JSON.get msg "processId") with
                | Some k => stop k (manager d)
                | None => manager d
                end))).
Proof. intros H. unfold dispatch, dispatch_when. rewrite H. reflexivity. Qed.

Lemma on_data_parsed sock clock chunk d msg :
  JS.endsWith (buffer_of sock d +:+ JS.toString chunk) newline = true →
  JSON.parse (buffer_of sock d +:+ JS.toString chunk) = Some msg →
  JSON.get msg "type" ≠ JSON.Throws →
  on_data sock clock chunk d
  = dispatch sock clock msg
      (set_buffer sock EmptyString (set_buffer sock (buffer_of sock d +:+ JS.toString chunk) d)).
Proof.
  intros He Hp Ht. unfold on_data, on_data_when. rewrite He, Hp.
  by destruct (JSON.get msg "type").
Qed.

(** C6. [stop] of a registered id marks the child killed and removes the
    record from the registry, leaving the other records; [stop] of an unknown
    id changes nothing.  Over the control plane a [stop] request is answered
    by the stopped acknowledgment in both cases, and by nothing else. *)
Theorem C6_stop (d : Daemon) (sock : Socket) (clock : Clock) (chunk : string)
    (msg : JSON.value) (k : string) :
  wf (manager d) →
  JS.endsWith (buffer_of sock d +:+ JS.toString chunk) newline = true →
  JSON.parse (buffer_of sock d +:+ JS.toString chunk) = Some msg →
  JSON.get msg "type" = JSON.Got (JSON.Str "stop") →
  JSON.get msg "processId" = JSON.Got (JSON.Str k) →
  let m := manager d in
  (∀ r p, JS.Map_get k (processes m) = Some r → objects m !! r = Some p →
     ¬ is_registered k (stop k m)
     ∧ getProcess k (stop k m) = None
     ∧ objects (stop k m) !! r = Some (kill p)
     ∧ killed (process (kill p)) = true
     ∧ (∀ k', k' ≠ k →
          JS.Map_get k' (processes (stop k m)) = JS.Map_get k' (processes m)))
  ∧ (¬ is_registered k m → stop k m = m)
  ∧ ∃ d', on_data sock clock chunk d = Some d'
          ∧ manager d' = stop k m
          ∧ wire d' = wire d ++ [(sock, Stopped)]
          ∧ ended d' = ended d
          ∧ buffer_of sock d' = EmptyString.
Proof.
  intros Hwf He Hp Ht Hk m. split_and!.
  - intros r p Hr Hobj.
    destruct (stop_registered _ _ _ _ Hwf Hr Hobj) as (?&?&?&?). done.
  - apply stop_unknown.
  - rewrite (on_data_parsed _ _ _ _ msg) by (done || by rewrite Ht).
    rewrite dispatch_stop by done. rewrite Hk. simpl.
    eexists. split; [done|]. split_and!; try done.
    unfold buffer_of. simpl. by rewrite lookup_insert_eq.
Qed.

Lemma C6_stop_witness :
  ∃ d', on_data 7%nat (sample_clock 9 9) (stop_request "5")
          (set_manager new_daemon three_entries) = Some d'
        ∧ manager d' = stop "5" three_entries
        ∧ wire d' = [(7%nat, Stopped)].
Proof.
  destruct (C6_stop (set_manager new_daemon three_entries) 7%nat (sample_clock 9 9)
              (stop_request "5")
              (JSON.Object [("type", JSON.Str "stop"); ("processId", JSON.Str "5")])
              "5" three_entries_wf)
    as (_ & _ & d' & H1 & H2 & H3 & _); [reflexivity..|].
  exists d'. by rewrite H1, H2, H3.
Defined.

(** [stop] of an unknown id over the wire: acknowledged, nothing changed. *)
Example stop_unknown_acknowledged :
  ∃ d', on_data 7%nat (sample_clock 9 9) (stop_request "404")
          (set_manager new_daemon three_entries) = Some d'
        ∧ manager d' = three_entries
        ∧ wire d' = [(7%nat, Stopped)].
Proof. eexists. split; [vm_compute; reflexivity|]. done. Qed.

(** ** [list] *)

Lemma omap_total_lookup {A B} (f : A → option B) (l : list A) :
  (∀ x, x ∈ l → is_Some (f x)) →
  length (omap f l) = length l ∧ ∀ i, omap f l !! i = l !! i ≫= f.
Proof.
  induction l as [|x l IH]; intros H; [done|]. csimpl.
  destruct (H x) as [y Hy]; [left|]. rewrite Hy.
  destruct IH as [IH1 IH2]; [intros; apply H; by right|].
  split; [simpl; by rewrite IH1|].
  intros [|i]; simpl; [done|apply IH2].
Qed.

Lemma registered_spec m :
  wf m →
  length (registered m) = length (processes m)
  ∧ ∀ i k r, processes m !! i = Some (k, r) →
      ∃ p, objects m !! r = Some p ∧ id p = k ∧ registered m !! i = Some p.
Proof.
  intros Hwf. unfold registered, JS.Map_values.
  destruct (omap_total_lookup (λ r, objects m !! r) (processes m).*2) as [Hl Hi].
  { intros r Hr. apply list_elem_of_fmap in Hr as ([k r'] & -> & Hin).
    destruct (wf_refs m Hwf k r' Hin) as (p & Hp & _). by exists p. }
  split; [by rewrite Hl, length_fmap|].
  intros i k r Hkr.
  destruct (wf_refs m Hwf k r) as (p & Hp & Hid).
  { by eapply list_elem_of_lookup_2. }
  exists p. split_and!; [done..|].
  by rewrite Hi, list_lookup_fmap, Hkr.
Qed.

(** C7, as amended.  [list] returns one entry for every record of the
    registry, in the order of the registry and without filtering: the entry
    at position [i] has the id the record is registered under, its script,
    the uptime [now - startTime] and a status that is ["running"] while the
    handle of the child has no exit code and ["stopped"] once it has one,
    whatever the code.  The registry is in insertion order: a start under a
    new id adds the last entry.  When a child exits by itself and is not
    restarted, the registry is unchanged and the entry of its record keeps
    id, script and start time with the status ["stopped"].  When a child is
    ended by a signal and is not restarted, its handle gets no exit code:
    the list is what it was, and the entry of a record that was running
    still says ["running"]. *)
Theorem C7_list (m : ProcessManager) (clock : Clock) :
  wf m →
  length (list_ clock m) = length (processes m)
  ∧ (∀ i k r, processes m !! i = Some (k, r) →
       ∃ p, objects m !! r = Some p
            ∧ list_ clock m !! i
              = Some (mkListInfo k (script p) (clock i - startTime p)
                        (match exitCode (process p) with
                         | None => "running"
                         | Some _ => "stopped"
                         end)))
  ∧ (∀ clock' scr o,
       ¬ is_registered (pretty (clock' 0%nat)) m →
       li_id <$> list_ clock (start clock' scr o m).2
       = (li_id <$> list_ clock m) ++ [pretty (clock' 0%nat)])
  ∧ (∀ r p scr o code clock' i k,
       objects m !! r = Some p → spawned m !! r = Some (scr, o) →
       restart_wanted code o = false →
       processes m !! i = Some (k, r) →
       let m' := exited r code clock' m in
       processes m' = processes m
       ∧ list_ clock m' !! i
         = Some (mkListInfo k (script p) (clock i - startTime p) "stopped"))
  ∧ (∀ r p scr o signal clock' i k,
       objects m !! r = Some p → spawned m !! r = Some (scr, o) →
       restart_wanted (128 + Z.pos signal) o = false →
       processes m !! i = Some (k, r) →
       let m' := signaled r signal clock' m in
       processes m' = processes m
       ∧ list_ clock m' = list_ clock m
       ∧ (exitCode (process p) = None →
          list_ clock m' !! i
          = Some (mkListInfo k (script p) (clock i - startTime p) "running"))).
Proof.
  intros Hwf. split_and!.
  - unfold list_. rewrite length_imap. by apply registered_spec.
  - intros i k r Hkr.
    destruct (registered_spec m Hwf) as [_ H].
    destruct (H i k r Hkr) as (p & Hp & Hid & Hreg).
    exists p. split; [done|]. unfold list_.
    rewrite list_lookup_imap, Hreg. simpl.
    unfold list_entry, status_of. by rewrite Hid.
  - intros clock' scr o Hnew.
    assert (Hwf' : wf (start clock' scr o m).2) by by apply wf_start.
    apply list_eq. intros i.
    destruct (registered_spec _ Hwf) as [Hl H].
    destruct (registered_spec _ Hwf') as [Hl' H'].
    assert (Hps : processes (start clock' scr o m).2
                  = processes m ++ [(pretty (clock' 0%nat), length (objects m))]).
    { simpl. apply Map_set_fresh.
      destruct (JS.Map_get _ (processes m)) eqn:Hg; [|done].
      destruct Hnew. by eexists. }
    rewrite Hps in H', Hl'.
    rewrite list_lookup_fmap. unfold list_ at 1. rewrite list_lookup_imap.
    destruct (decide (i < length (processes m))%nat) as [Hlt|Hge].
    + destruct (lookup_lt_is_Some_2 _ _ Hlt) as [[k r] Hkr].
      destruct (H' i k r) as (p' & _ & Hid' & ->); [by apply lookup_app_l_Some|].
      destruct (H i k r Hkr) as (p & _ & Hid & Hreg).
      rewrite lookup_app_l by (unfold list_; by rewrite length_fmap, length_imap, Hl).
      rewrite list_lookup_fmap. unfold list_. rewrite list_lookup_imap, Hreg.
      simpl. by rewrite Hid, Hid'.
    + rewrite lookup_app_r
        by (unfold list_; rewrite length_fmap, length_imap, Hl; lia).
      unfold list_ at 1. rewrite length_fmap, length_imap, Hl.
      destruct (decide (i = length (processes m))) as [->|Hne].
      * destruct (H' (length (processes m)) _ _ (list_lookup_middle _ [] _ _ eq_refl))
          as (p' & _ & Hid' & ->).
        rewrite Nat.sub_diag. simpl. by rewrite Hid'.
      * rewrite (lookup_ge_None_2 (registered _))
          by (rewrite Hl', length_app; simpl; lia).
        destruct (i - length (processes m))%nat eqn:?; [lia|done].
  - intros r p scr o code clock' i k Hp Hsp Hrw Hkr m'.
    assert (Hm' : m' = set_objects m (<[r := set_process p
              (mkSubprocess (Some code) (killed (process p)))]> (objects m))).
    { unfold m', exited, terminated. rewrite Hp, Hsp.
      cbn [resolved exitCode_after]. by rewrite Hrw. }
    split; [by rewrite Hm'|].
    assert (Hwf' : wf m').
    { rewrite Hm'. by eapply wf_insert. }
    destruct (registered_spec _ Hwf') as [_ H'].
    destruct (H' i k r) as (q & Hq & Hid & Hreg); [by rewrite Hm'|].
    rewrite Hm' in Hq. simpl in Hq.
    rewrite list_lookup_insert_eq in Hq by (by eapply lookup_lt_Some).
    injection Hq as <-. unfold list_. rewrite list_lookup_imap, Hreg. simpl.
    unfold list_entry. simpl. by rewrite <- Hid.
  - intros r p scr o signal clock' i k Hp Hsp Hrw Hkr m'.
    assert (Hm' : m' = m).
    { unfold m', signaled, terminated. rewrite Hp, Hsp.
      cbn [resolved exitCode_after]. rewrite Hrw.
      replace (set_process p _) with p by (by destruct p as [? ? []]).
      rewrite list_insert_id by done. by destruct m. }
    rewrite Hm'. split_and!; [done..|]. intros Hnone.
    destruct (registered_spec _ Hwf) as [_ H].
    destruct (H i k r Hkr) as (q & Hq & Hid & Hreg).
    rewrite Hp in Hq. injection Hq as <-.
    unfold list_. rewrite list_lookup_imap, Hreg. simpl.
    unfold list_entry, status_of. by rewrite Hid, Hnone.
Qed.

Lemma C7_list_witness :
  wf three_entries
  ∧ list_ (λ _, 30) three_entries = [mkListInfo "5" "app.js" 25 "running"].
Proof.
  split; [exact three_entries_wf|].
  destruct (C7_list three_entries (λ _, 30) three_entries_wf) as (Hl & Hi & _).
  destruct (Hi 0%nat "5" 0%nat eq_refl) as (p & Hp & Hli).
  apply list_eq. intros [|i].
  - rewrite Hli. vm_compute in Hp. by simplify_eq.
  - apply lookup_ge_None_2. rewrite Hl. simpl. lia.
Defined.

(** C7, as stated, fails: after a natural exit the status of the record is
    the string ["stopped"], the same for every exit code, and not the
    code. *)
Lemma C7_status_counterexample :
  list_ (λ _, 30) (exited_with 3) = [mkListInfo "5" "app.js" 25 "stopped"]
  ∧ list_ (λ _, 30) (exited_with 3) = list_ (λ _, 30) (exited_with 0)
  ∧ (objects (exited_with 3) !! 0%nat) ≫= (λ p, exitCode (process p)) = Some 3
  ∧ "stopped" ≠ pretty 3.
Proof. split_and!; [reflexivity..|discriminate]. Qed.

(** A child that the signal 9 has ended is listed as running. *)
Example killed_child_listed_as_running :
  list_ (λ _, 30) (ended_by 9) = [mkListInfo "5" "app.js" 25 "running"].
Proof. reflexivity. Qed.

(** ** The [logs] request *)

Lemma dispatch_logs sock clock msg d k :
  JSON.get msg "type" = JSON.Got (JSON.Str "logs") →
  key_of (JSON.get msg "processId") = Some k →
  dispatch sock clock msg d
  = match getLogs k 0 200 (manager d) with
    | inr logs_ => Some (socket_write sock (OkLogs logs_) d)
    | inl _ => Some (catch sock d)
    end.
Proof. intros H Hk. unfold dispatch, dispatch_when. rewrite H. simpl. by rewrite Hk. Qed.

(** C9, as amended.  For every [logs] request received over the wire with a
    registered [processId], the logs of the response are the first 200
    entries of the retained window of that process (all of it when it has no
    more), whatever [startIndex] and [count] the request carries: the
    listener reads neither. *)
Theorem C9_wire_logs (d : Daemon) (sock : Socket) (clock : Clock) (chunk : string)
    (msg : JSON.value) (k : string) (r : nat) (p : ProcessInfo) :
  JS.endsWith (buffer_of sock d +:+ JS.toString chunk) newline = true →
  JSON.parse (buffer_of sock d +:+ JS.toString chunk) = Some msg →
  JSON.get msg "type" = JSON.Got (JSON.Str "logs") →
  JSON.get msg "processId" = JSON.Got (JSON.Str k) →
  JS.Map_get k (processes (manager d)) = Some r →
  objects (manager d) !! r = Some p →
  ∃ d', on_data sock clock chunk d = Some d'
        ∧ wire d' = wire d ++ [(sock, OkLogs (take 200 (items (logs p))))]
        ∧ manager d' = manager d
        ∧ ended d' = ended d.
Proof.
  intros He Hp Ht Hk Hr Hobj.
  rewrite (on_data_parsed _ _ _ _ msg) by (done || by rewrite Ht).
  rewrite (dispatch_logs _ _ _ _ k) by (done || by rewrite Hk).
  unfold getLogs, getProcess. simpl. rewrite Hr. simpl. rewrite Hobj.
  eexists. split; [done|]. split_and!; [|done..].
  simpl. do 3 f_equal.
  rewrite (slice_natural _ 0 200) by lia. by rewrite drop_0.
Qed.

Lemma C9_wire_logs_witness :
  ∃ d', on_data 7%nat (sample_clock 9 9) (logs_request "5" "1" "1")
          (set_manager new_daemon three_entries) = Some d'
        ∧ wire d' = [(7%nat, OkLogs [mkLogEntry 6 "one" false; mkLogEntry 7 "two" true;
                                     mkLogEntry 8 "three" false])].
Proof.
  destruct (C9_wire_logs (set_manager new_daemon three_entries) 7%nat
              (sample_clock 9 9) (logs_request "5" "1" "1")
              (default JSON.Null (JSON.parse (logs_request "5" "1" "1")))
              "5" 0%nat
              (append_all (fresh_record "5" "app.js" 5 (mkOptions None None))
                 [mkAppend 6 "one" false; mkAppend 7 "two" true;
                  mkAppend 8 "three" false]))
    as (d' & H1 & H2 & _); [reflexivity..|].
  exists d'. by rewrite H1, H2.
Defined.

(** C9, as stated, fails: a request for the slice [startIndex = 1],
    [count = 1] of a window of three entries is answered with the whole
    window, not with the entry at index 1 that [getLogs] selects for these
    parameters. *)
Lemma C9_wire_logs_counterexample :
  ∃ d', on_data 7%nat (sample_clock 9 9) (logs_request "5" "1" "1")
          (set_manager new_daemon three_entries) = Some d'
        ∧ received 7%nat d'
          = [OkLogs [mkLogEntry 6 "one" false; mkLogEntry 7 "two" true;
                     mkLogEntry 8 "three" false]]
        ∧ getLogs "5" 1 1 three_entries = inr [mkLogEntry 7 "two" true]
        ∧ received 7%nat d' ≠ [OkLogs [mkLogEntry 7 "two" true]].
Proof. eexists. split; [vm_compute; reflexivity|]. split_and!; done. Qed.

(** ** Process ids and restart *)

Lemma start_id clock scr o m : (start clock scr o m).1 = pretty (clock 0%nat).
Proof. done. Qed.

Lemma start_registers clock scr o m :
  let k := pretty (clock 0%nat) in
  let m' := (start clock scr o m).2 in
  wf m →
  getProcess k m'
  = Some (mkProcessInfo k scr (mkSubprocess None false) (clock 1%nat) empty_array
            (with_defaults o))
  ∧ (∀ k', k' ≠ k →
       JS.Map_get k' (processes m') = JS.Map_get k' (processes m))
  ∧ JS.Map_keys (processes m')
    = (if decide (is_registered k m) then JS.Map_keys (processes m)
       else JS.Map_keys (processes m) ++ [k])
  ∧ (∀ r p, objects m !! r = Some p → objects m' !! r = Some p).
Proof.
  intros k m' Hwf. split_and!.
  - unfold getProcess, m'. simpl. rewrite Map_get_set_eq. simpl.
    by apply list_lookup_middle.
  - intros k' Hne. by apply Map_get_set_ne.
  - unfold m'. simpl. rewrite Map_keys_set. unfold is_registered.
    destruct (JS.Map_get _ (processes m)) eqn:Hg.
    + rewrite decide_True; [done|by eexists].
    + rewrite decide_False; [done|by intros [? ?]].
  - intros r p Hp. by apply lookup_app_l_Some.
Qed.

(** C3, as amended.  Every call of [start] returns as id the decimal
    rendering of the wall clock's millisecond reading at the call, and the
    same holds for the restart that the end of a child brings about.  So
    the ids of two calls are distinct exactly when their clock readings
    differ, and they are ordered as the readings are, not as the calls are.
    After a call the id leads to the record of that call and every other id
    leads where it led before; so a call at a reading whose id is registered
    adds no id to the registry: it replaces the record that was registered
    under that id, which no id leads to any more. *)
Theorem C3_ids_are_clock_readings (clock1 clock2 : Clock) (scr1 scr2 : string)
    (o1 o2 : ProcessOptions) (m1 m2 : ProcessManager) :
  let id1 := (start clock1 scr1 o1 m1).1 in
  let id2 := (start clock2 scr2 o2 m2).1 in
  let m1' := (start clock1 scr1 o1 m1).2 in
  id1 = pretty (clock1 0%nat)
  ∧ id2 = pretty (clock2 0%nat)
  ∧ (id1 ≠ id2 ↔ clock1 0%nat ≠ clock2 0%nat)
  ∧ (id_le id1 id2 ↔ clock1 0%nat ≤ clock2 0%nat)
  ∧ (∀ r p t, objects m1 !! r = Some p →
       spawned m1 !! r = Some (scr1, o1) → restart_wanted (resolved t) o1 = true →
       JS.Map_get id1 (processes (terminated r t clock1 m1))
       = Some (length (objects m1)))
  ∧ (is_registered id1 m1 →
       JS.Map_keys (processes m1') = JS.Map_keys (processes m1))
  ∧ (wf m1 →
       getProcess id1 m1' = Some (fresh_record id1 scr1 (clock1 1%nat) o1)
       ∧ (∀ k, k ≠ id1 → getProcess k m1' = getProcess k m1)
       ∧ (∀ r p, getProcess id1 m1 = Some p → JS.Map_get id1 (processes m1) = Some r →
            objects m1' !! r = Some p
            ∧ ∀ k, JS.Map_get k (processes m1') ≠ Some r)).
Proof.
  intros id1 id2 m1'. split_and!; [done..| | | | |].
  - unfold id1, id2. rewrite !start_id. split.
    + intros H Heq. by rewrite Heq in H.
    + intros H Heq. by apply (inj pretty) in Heq.
  - unfold id1, id2, id_le. rewrite !start_id. split.
    + intros (t1 & t2 & H1 & H2 & Hle).
      apply (inj pretty) in H1, H2. by subst.
    + intros Hle. by eexists _, _.
  - intros r p t Hp Hsp Hrw. unfold terminated. rewrite Hp, Hsp, Hrw.
    simpl. rewrite Map_get_set_eq. by rewrite length_insert.
  - intros [r Hr]. unfold m1'. simpl. rewrite Map_keys_set.
    unfold id1 in Hr. rewrite start_id in Hr. by rewrite Hr.
  - intros Hwf.
    destruct (start_registers clock1 scr1 o1 m1 Hwf) as (Hg & Hother & _ & Hobj).
    split_and!.
    + exact Hg.
    + intros k Hk. unfold getProcess, m1'. rewrite Hother by done.
      destruct (JS.Map_get k (processes m1)) as [r|] eqn:Hr; [|done]. simpl.
      destruct (wf_refs m1 Hwf k r) as (p & Hp & _); [by eapply Map_get_elem|].
      rewrite Hp. by apply lookup_app_l_Some.
    + intros r p Hgp Hr. unfold getProcess in Hgp. rewrite Hr in Hgp. simpl in Hgp.
      split; [by apply Hobj|].
      intros k Hk.
      assert (Hlt : (r < length (objects m1))%nat) by (by eapply lookup_lt_Some).
      destruct (decide (k = id1)) as [->|Hne].
      * unfold m1' in Hk. simpl in Hk. unfold id1 in Hk. rewrite start_id in Hk.
        rewrite Map_get_set_eq in Hk. simplify_eq. lia.
      * unfold m1' in Hk. rewrite Hother in Hk by done.
        assert (k = id1); [|done].
        destruct (wf_refs m1 Hwf k r) as (q & Hq & Hid); [by eapply Map_get_elem|].
        destruct (wf_refs m1 Hwf id1 r) as (q' & Hq' & Hid'); [by eapply Map_get_elem|].
        congruence.
Qed.

Lemma C3_ids_are_clock_readings_witness :
  (start (sample_clock 5 5) "a.js" (mkOptions None None) new_manager).1
  ≠ (start (sample_clock 6 6) "b.js" (mkOptions None None) three_entries).1.
Proof.
  destruct (C3_ids_are_clock_readings (sample_clock 5 5) (sample_clock 6 6)
              "a.js" "b.js" (mkOptions None None) (mkOptions None None)
              new_manager three_entries) as (_ & _ & H & _).
  apply H. simpl. lia.
Defined.

(** C3, as stated, fails on both counts.  Two calls of [start] at the same
    clock reading return the same id, and the second record replaces the
    first in the registry.  And when the wall clock has been set back
    between two calls, from reading 6 to reading 5, the later call returns
    the smaller id. *)
Lemma C3_clock_counterexample :
  (let '(id1, m1) := start (sample_clock 5 5) "a.js" (mkOptions None None) new_manager in
   let '(id2, m2) := start (sample_clock 5 6) "b.js" (mkOptions None None) m1 in
   id1 = id2
   ∧ JS.Map_keys (processes m2) = ["5"]
   ∧ script <$> getProcess id1 m2 = Some "b.js")
  ∧ (let '(id1, m1) := start (sample_clock 6 6) "a.js" (mkOptions None None) new_manager in
     let '(id2, m2) := start (sample_clock 5 5) "b.js" (mkOptions None None) m1 in
     id1 = pretty 6 ∧ id2 = pretty 5
     ∧ JS.Map_keys (processes m2) = ["6"; "5"]
     ∧ id_le id2 id1 ∧ ¬ id_le id1 id2).
Proof.
  split; [by vm_compute|].
  cbv beta iota zeta delta [start fst snd]. split_and!; [done..| |].
  - exists 5, 6. split_and!; [done..|lia].
  - intros (t1 & t2 & H1 & H2 & Hle).
    apply (inj pretty) in H1, H2. unfold sample_clock in H1, H2. lia.
Qed.

(** The record of a child that has ended. *)
Lemma terminated_no_restart r t clock m p scr o :
  objects m !! r = Some p → spawned m !! r = Some (scr, o) →
  restart_wanted (resolved t) o = false →
  terminated r t clock m
  = set_objects m
      (<[r := set_process p (mkSubprocess (exitCode_after t (exitCode (process p)))
                                          (killed (process p)))]>
         (objects m)).
Proof. intros Hp Hsp Hrw. unfold terminated. by rewrite Hp, Hsp, Hrw. Qed.

Lemma terminated_restart r t clock m p scr o :
  objects m !! r = Some p → spawned m !! r = Some (scr, o) →
  restart_wanted (resolved t) o = true →
  terminated r t clock m
  = (start clock scr o
       (set_objects m
          (<[r := set_process p (mkSubprocess (exitCode_after t (exitCode (process p)))
                                              (killed (process p)))]>
             (objects m)))).2.
Proof. intros Hp Hsp Hrw. unfold terminated. by rewrite Hp, Hsp, Hrw. Qed.

Lemma exited_no_restart r code clock m p scr o :
  objects m !! r = Some p → spawned m !! r = Some (scr, o) →
  restart_wanted code o = false →
  exited r code clock m
  = set_objects m (<[r := set_process p (mkSubprocess (Some code) (killed (process p)))]>
                     (objects m)).
Proof. apply (terminated_no_restart r (ExitCode code)). Qed.

Lemma exited_restart r code clock m p scr o :
  objects m !! r = Some p → spawned m !! r = Some (scr, o) →
  restart_wanted code o = true →
  exited r code clock m
  = (start clock scr o
       (set_objects m (<[r := set_process p (mkSubprocess (Some code) (killed (process p)))]>
                         (objects m)))).2.
Proof. apply (terminated_restart r (ExitCode code)). Qed.

Lemma restart_wanted_true code o :
  restart_wanted code o = true ↔ code ≠ 0 ∧ restart o = Some true.
Proof.
  unfold restart_wanted. destruct (Z.eqb_spec code 0), (restart o) as [[]|];
    simpl; naive_solver.
Qed.

(** C4, as amended.  When a supervised child ends, the callback receives a
    code: the exit code when the child ended by itself, 128 plus the number
    of the signal when a signal ended it (which is never zero).  When that
    code is not zero and restart was requested, [start] is invoked again
    with the same script and options: a running record with an empty buffer
    is registered under the id of the clock reading at that moment.  The
    handling removes no record and does not touch the records under other
    ids, so the old record remains unless it is registered under that very
    id; its handle has the exit code when the child ended by itself, and is
    as it was, without an exit code, when a signal ended the child.  The id
    is a new one, and the record is added after all others, when no record
    is registered under that reading.  When restart is unset or false, or
    the code is zero, the registry is unchanged and no record is created. *)
Theorem C4_exit_handling (m : ProcessManager) (r : nat) (p : ProcessInfo)
    (t : Termination) (clock : Clock) :
  wf m → objects m !! r = Some p →
  let m' := terminated r t clock m in
  let code := resolved t in
  let new_id := pretty (clock 0%nat) in
  let p' := set_process p (mkSubprocess (exitCode_after t (exitCode (process p)))
                                        (killed (process p))) in
  objects m' !! r = Some p'
  ∧ (∀ c, t = ExitCode c → code = c ∧ exitCode (process p') = Some c)
  ∧ (∀ s, t = Signal s → code = 128 + Z.pos s ∧ code ≠ 0 ∧ p' = p)
  ∧ (code ≠ 0 → restart (options p) = Some true →
       getProcess new_id m'
       = Some (mkProcessInfo new_id (script p) (mkSubprocess None false)
                 (clock 1%nat) empty_array (options p))
       ∧ (∀ k, k ≠ new_id →
            JS.Map_get k (processes m') = JS.Map_get k (processes m))
       ∧ (¬ is_registered new_id m →
            JS.Map_keys (processes m') = JS.Map_keys (processes m) ++ [new_id]
            ∧ length (objects m') = S (length (objects m))))
  ∧ (code = 0 ∨ restart (options p) ≠ Some true →
       processes m' = processes m
       ∧ length (objects m') = length (objects m)).
Proof.
  intros Hwf Hp m' code new_id p'.
  destruct (wf_closures m Hwf r p Hp) as (o & Hsp & Ho).
  assert (Hro : restart (options p) = restart o) by (by rewrite Ho).
  assert (Hwf1 : wf (set_objects m (<[r := p']> (objects m))))
    by (by eapply wf_insert).
  assert (Hlt : (r < length (objects m))%nat) by (by eapply lookup_lt_Some).
  assert (Hexit : ∀ c, t = ExitCode c → code = c ∧ exitCode (process p') = Some c)
    by (by intros c ->).
  assert (Hsig : ∀ s, t = Signal s → code = 128 + Z.pos s ∧ code ≠ 0 ∧ p' = p).
  { intros s ->. unfold code, p'. simpl. split_and!; [done|lia|].
    by destruct p as [? ? []]. }
  destruct (restart_wanted code o) eqn:Hrw.
  - unfold m'. rewrite (terminated_restart _ _ _ _ p (script p) o) by done.
    fold p'. apply restart_wanted_true in Hrw as [Hc Hr].
    destruct (start_registers clock (script p) o _ Hwf1) as (Hg & Hother & Hkeys & Hobj).
    unfold new_id. split_and!; [|done|done| |].
    + apply Hobj. simpl. by apply list_lookup_insert_eq.
    + intros _ _. split_and!.
      * rewrite Hg. by rewrite Ho.
      * intros k Hk. by rewrite Hother.
      * intros Hnew. rewrite Hkeys. rewrite decide_False by done.
        split; [done|]. simpl. rewrite length_app, length_insert. simpl. lia.
    + intros [?|?]; [done|congruence].
  - unfold m'. rewrite (terminated_no_restart _ _ _ _ p (script p) o) by done.
    fold p'. split_and!; [|done|done| |].
    + simpl. by apply list_lookup_insert_eq.
    + intros Hc Hr. assert (restart_wanted code o = true); [|congruence].
      apply restart_wanted_true. by rewrite <- Hro.
    + intros _. split; [done|]. simpl. by rewrite length_insert.
Qed.

Lemma two_crash_loopers_wf : wf two_crash_loopers.
Proof. repeat apply wf_start. apply wf_new. Defined.

(** The first child exits with code 1; the second is ended by signal 15. *)
Lemma C4_exit_handling_witness :
  wf two_crash_loopers
  ∧ JS.Map_keys (processes (exited 0 1 (sample_clock 9 9) two_crash_loopers))
    = ["1"; "2"; "9"]
  ∧ JS.Map_keys (processes (signaled 1 15 (sample_clock 9 9) two_crash_loopers))
    = ["1"; "2"; "9"]
  ∧ objects (signaled 1 15 (sample_clock 9 9) two_crash_loopers) !! 1%nat
    = Some (fresh_record "2" "b.js" 2 (mkOptions (Some true) None)).
Proof.
  split; [exact two_crash_loopers_wf|].
  destruct (C4_exit_handling two_crash_loopers 0
              (fresh_record "1" "a.js" 1 (mkOptions (Some true) None))
              (ExitCode 1) (sample_clock 9 9) two_crash_loopers_wf eq_refl)
    as (_ & _ & _ & H & _).
  destruct (C4_exit_handling two_crash_loopers 1
              (fresh_record "2" "b.js" 2 (mkOptions (Some true) None))
              (Signal 15) (sample_clock 9 9) two_crash_loopers_wf eq_refl)
    as (Hold & _ & Hsig & H' & _).
  destruct H as (_ & _ & H); [done|reflexivity|].
  destruct H' as (_ & _ & H'); [done|reflexivity|].
  destruct (Hsig 15%positive eq_refl) as (_ & _ & Hsame).
  split_and!.
  - apply H. unfold is_registered. vm_compute. by intros [? ?].
  - apply H'. unfold is_registered. vm_compute. by intros [? ?].
  - unfold signaled. rewrite Hold. by rewrite Hsame.
Defined.

(** C4, as stated, fails: both children exit with code 1 and their exits are
    handled at the same clock reading, 9.  The restart of the first is
    registered under id ["9"]; the restart of the second gets the id ["9"]
    too, which is not a new id, and replaces the restarted first process in
    the registry. *)
Lemma C4_same_reading_counterexample :
  let m1 := exited 0 1 (sample_clock 9 9) two_crash_loopers in
  let m2 := exited 1 1 (sample_clock 9 9) m1 in
  JS.Map_keys (processes m1) = ["1"; "2"; "9"]
  ∧ JS.Map_keys (processes m2) = ["1"; "2"; "9"]
  ∧ script <$> getProcess "9" m1 = Some "a.js"
  ∧ script <$> getProcess "9" m2 = Some "b.js"
  ∧ length (objects m2) = 4%nat.
Proof. vm_compute. done. Qed.

(** ** Attach *)

Lemma dispatch_attach sock clock msg d k r proc :
  JSON.get msg "type" = JSON.Got (JSON.Str "attach") →
  key_of (JSON.get msg "processId") = Some k →
  JS.Map_get k (processes (manager d)) = Some r →
  objects (manager d) !! r = Some proc →
  dispatch sock clock msg d = Some (attach sock r proc d).
Proof.
  intros H Hk Hr Hp. unfold dispatch, dispatch_when. rewrite H. simpl. by rewrite Hk, Hr, Hp.
Qed.

(** What one chunk of output does to the record and to the wire: the entry
    is written to every connection that has a proxy on the array's [push];
    when the push makes the buffer exceed the capacity, the array is
    replaced by a slice, which carries no proxy. *)
Lemma handler_write_spec r isErr now chunk m p :
  objects m !! r = Some p →
  let e := mkLogEntry now chunk isErr in
  let full := Z.of_nat (length (items (logs p) ++ [e])) >? capacity (options p) in
  let p' := (addLog now p chunk isErr).1 in
  handler_write r isErr now chunk m
  = (set_objects m (<[r := p']> (objects m)),
     (λ s, (s, EntryDoc e)) <$> push_proxies (logs p))
  ∧ push_proxies (logs p') = (if full then [] else push_proxies (logs p))
  ∧ options p' = options p.
Proof.
  intros Hp e full p'. unfold handler_write. rewrite Hp.
  unfold p', full, e, addLog. simpl.
  destruct (Z.of_nat (length (items (logs p) ++ _)) >? _); done.
Qed.

(** The replay of the attach case, and the forwarding of the entries that
    follow as long as the buffer does not exceed its capacity. *)
Lemma attach_replay sock r proc d :
  let d' := attach sock r proc d in
  wire d' = wire d ++ ((λ log, (sock, EntryDoc log)) <$> items (logs proc))
  ∧ (objects (manager d) !! r = Some proc →
     ∃ q, objects (manager d') !! r = Some q
          ∧ items (logs q) = items (logs proc)
          ∧ push_proxies (logs q) = sock :: push_proxies (logs proc)
          ∧ options q = options proc).
Proof.
  split; [done|]. intros Hp.
  exists (set_logs proc (mkLogArray (items (logs proc))
                           (sock :: push_proxies (logs proc)))).
  split; [|done].
  simpl. apply list_lookup_insert_eq. by eapply lookup_lt_Some.
Qed.

Lemma addLog_last_retained now p msg e :
  0 < capacity (options p) →
  mkLogEntry now msg e ∈ items (logs (addLog now p msg e).1).
Proof.
  intros Hcap. rewrite addLog_items. cbv zeta.
  destruct (Z.gtb_spec (Z.of_nat (length (items (logs p) ++ [mkLogEntry now msg e])))
              (capacity (options p))) as [Hgt|Hle].
  - rewrite slice_from_end by lia. rewrite length_app in *. simpl in *.
    rewrite drop_app_le by lia. apply elem_of_app. right. left.
  - apply elem_of_app. right. left.
Qed.

(** C2 fails on the code.  A connection attaches to a registered process
    whose buffer is full; the replay and the first entry appended after it
    reach the connection, as the claim says.  That append makes the buffer
    exceed its capacity, so [addLog] replaces the array by a slice of it, and
    the slice has no proxy on [push]: the second entry appended after the
    attach is written to no connection, so it is lost for the session (and
    for every other session on the process). *)
Theorem C2_attach_stream_stops_after_trim (d : Daemon) (sock : Socket) (clock : Clock)
    (chunk : string) (msg : JSON.value) (k : string) (r : nat) (p : ProcessInfo)
    (e1 e2 : bool) (t1 t2 : Z) (out1 out2 : string) :
  JS.endsWith (buffer_of sock d +:+ JS.toString chunk) newline = true →
  JSON.parse (buffer_of sock d +:+ JS.toString chunk) = Some msg →
  JSON.get msg "type" = JSON.Got (JSON.Str "attach") →
  JSON.get msg "processId" = JSON.Got (JSON.Str k) →
  JS.Map_get k (processes (manager d)) = Some r →
  objects (manager d) !! r = Some p →
  Z.of_nat (length (items (logs p))) = capacity (options p) →
  ∃ d1 d2 d3,
    step (SocketData sock clock chunk) d = Some d1
    ∧ step (ChildOutput r e1 t1 out1) d1 = Some d2
    ∧ step (ChildOutput r e2 t2 out2) d2 = Some d3
    ∧ wire d1 = wire d ++ ((λ log, (sock, EntryDoc log)) <$> items (logs p))
    ∧ wire d2 = wire d1 ++ ((λ s, (s, EntryDoc (mkLogEntry t1 out1 e1)))
                              <$> sock :: push_proxies (logs p))
    ∧ wire d3 = wire d2
    ∧ (∃ q, objects (manager d3) !! r = Some q
            ∧ mkLogEntry t2 out2 e2 ∈ items (logs q)
            ∧ push_proxies (logs q) = []).
Proof.
  intros He Hparse Ht Hk Hr Hp Hfull.
  assert (Hcap : 0 < capacity (options p)).
  { pose proof (capacity_nonzero (options p)). lia. }
  (* the attach request *)
  assert (H1 : step (SocketData sock clock chunk) d
               = Some (attach sock r p
                   (set_buffer sock EmptyString (set_buffer sock (buffer_of sock d +:+ JS.toString chunk) d)))).
  { simpl. rewrite (on_data_parsed _ _ _ _ msg) by (done || by rewrite Ht).
    apply (dispatch_attach _ _ _ _ k); [done|by rewrite Hk|done..]. }
  set (d1 := attach _ _ _ _) in H1.
  destruct (attach_replay sock r p
              (set_buffer sock EmptyString (set_buffer sock (buffer_of sock d +:+ JS.toString chunk) d)))
    as [Hw1 Hq1].
  destruct (Hq1 Hp) as (q1 & Hq1o & Hq1i & Hq1p & Hq1c). clear Hq1.
  fold d1 in Hw1, Hq1o.
  (* the first chunk after the attach: forwarded, and the buffer is trimmed *)
  destruct (handler_write_spec r e1 t1 out1 (manager d1) q1 Hq1o) as (Hh1 & Hp1 & Ho1).
  set (q2 := (addLog t1 q1 out1 e1).1) in *.
  rewrite Hq1i, Hq1c, length_app in Hp1. simpl in Hp1.
  destruct (Z.gtb_spec (Z.of_nat (length (items (logs p)) + 1)) (capacity (options p)))
    as [_|?]; [|lia].
  set (m2 := set_objects (manager d1) (<[r := q2]> (objects (manager d1)))) in *.
  assert (Hq2o : objects m2 !! r = Some q2).
  { simpl. apply list_lookup_insert_eq. by eapply lookup_lt_Some. }
  (* the second chunk: nobody to forward it to *)
  destruct (handler_write_spec r e2 t2 out2 m2 q2 Hq2o) as (Hh2 & Hp2 & Ho2).
  set (q3 := (addLog t2 q2 out2 e2).1) in *.
  rewrite Hp1 in Hh2. simpl in Hh2.
  eexists d1, _, _. split_and!.
  - exact H1.
  - cbn [step]. rewrite Hh1. reflexivity.
  - cbn [step manager set_manager emit]. fold m2. rewrite Hh2. reflexivity.
  - exact Hw1.
  - cbn [wire emit set_manager]. by rewrite Hq1p.
  - cbn [wire emit set_manager]. by rewrite app_nil_r.
  - exists q3. split_and!.
    + simpl. apply list_lookup_insert_eq. rewrite length_insert.
      by eapply lookup_lt_Some.
    + apply addLog_last_retained. rewrite Ho1, Hq1c. done.
    + rewrite Hp2. rewrite Hp1. by case_match.
Qed.

Lemma C2_attach_stream_stops_after_trim_witness :
  ∃ d3,
    run [SocketData 1 (sample_clock 7 7) (attach_request "5");
         ChildOutput 0 false 8 "one";
         ChildOutput 0 true 9 "two"] one_line_daemon = Some d3
    ∧ received 1 d3 = [EntryDoc (mkLogEntry 6 "zero" false);
                       EntryDoc (mkLogEntry 8 "one" false)]
    ∧ (items ∘ logs <$> getProcess "5" (manager d3))
      = Some [mkLogEntry 9 "two" true].
Proof.
  destruct (C2_attach_stream_stops_after_trim one_line_daemon 1 (sample_clock 7 7)
              (attach_request "5")
              (JSON.Object [("type", JSON.Str "attach"); ("processId", JSON.Str "5")])
              "5" 0
              (append_all (fresh_record "5" "app.js" 5 (mkOptions None (Some 1)))
                 [mkAppend 6 "zero" false])
              false true 8 9 "one" "two")
    as (d1 & d2 & d3 & H1 & H2 & H3 & _); [reflexivity..|].
  exists d3. split.
  - cbn [run]. rewrite H1. cbn [mbind option_bind]. rewrite H2.
    cbn [mbind option_bind]. rewrite H3. reflexivity.
  - vm_compute in H1. injection H1 as <-.
    vm_compute in H2. injection H2 as <-.
    vm_compute in H3. injection H3 as <-.
    vm_compute. done.
Defined.

(** Two sessions on the same process: each gets the replay and the entry
    that fills the buffer; neither gets the next one. *)
Example two_sessions_lose_entries :
  ∃ d',
    run [SocketData 1 (sample_clock 7 7) (attach_request "5");
         SocketData 2 (sample_clock 7 7) (attach_request "5");
         ChildOutput 0 false 8 "one";
         ChildOutput 0 true 9 "two"] one_line_daemon = Some d'
    ∧ received 1 d' = [EntryDoc (mkLogEntry 6 "zero" false);
                       EntryDoc (mkLogEntry 8 "one" false)]
    ∧ received 2 d' = [EntryDoc (mkLogEntry 6 "zero" false);
                       EntryDoc (mkLogEntry 8 "one" false)].
Proof. eexists. split; [vm_compute; reflexivity|]. done. Qed.

(** A session that attaches to a process whose buffer has room receives
    every entry until the buffer is full. *)
Example session_before_trim :
  ∃ d',
    run [SocketData 1 (sample_clock 7 7) (attach_request "5");
         ChildOutput 0 false 9 "four"; ChildOutput 0 true 10 "five"]
      (set_manager new_daemon three_entries) = Some d'
    ∧ received 1 d' = [EntryDoc (mkLogEntry 6 "one" false);
                       EntryDoc (mkLogEntry 7 "two" true);
                       EntryDoc (mkLogEntry 8 "three" false);
                       EntryDoc (mkLogEntry 9 "four" false);
                       EntryDoc (mkLogEntry 10 "five" true)].
Proof. eexists. split; [vm_compute; reflexivity|]. done. Qed.

(** ** Framing: two documents in one buffer do not parse *)

(** The model of [JSON.parse] on some texts. *)
Example parse_stop_request :
  JSON.parse (stop_request "5")
  = Some (JSON.Object [("type", JSON.Str "stop"); ("processId", JSON.Str "5")]).
Proof. reflexivity. Qed.

Example parse_start_request :
  JSON.parse start_request_capacity_1
  = Some (JSON.Object
            [("type", JSON.Str "start"); ("script", JSON.Str "app.js");
             ("options",
              JSON.Object
                [("maxLogLines",
                  JSON.Number (JSON.mkNumber false [("1")%char] [] None))])]).
Proof. reflexivity. Qed.

Example parse_nested :
  JSON.parse "[true, null, [], {}, -12.5e+3]"
  = Some (JSON.Array
            [JSON.Bool true; JSON.Null; JSON.Array []; JSON.Object [];
             JSON.Number
               (JSON.mkNumber true [("1")%char; ("2")%char] [("5")%char]
                  (Some (false, [("3")%char])))]).
Proof. reflexivity. Qed.

Example parse_rejects :
  JSON.parse "01" = None ∧ JSON.parse "1." = None ∧ JSON.parse "[1,]" = None
  ∧ JSON.parse "{" = None ∧ JSON.parse "tru" = None ∧ JSON.parse "1 2" = None
  ∧ JSON.parse EmptyString = None ∧ JSON.parse newline = None.
Proof. split_and!; reflexivity. Qed.

Module JSONFacts.
Import JSON.

Lemma span_digits_app cs ds r c t :
  span_digits cs = (ds, r) → is_digit c = false →
  span_digits (cs ++ c :: t) = (ds, r ++ c :: t).
Proof.
  intros H Hc. revert ds r H. induction cs as [|a cs IH]; intros ds r H; simpl in *.
  - simplify_eq. by rewrite Hc.
  - destruct (is_digit a); [|by simplify_eq].
    destruct (span_digits cs) as [ds' r'] eqn:Hs. simplify_eq.
    by rewrite (IH ds' r).
Qed.

Lemma lex_string_app m cs s r t :
  lex_string m cs = Some (s, r) → lex_string m (cs ++ t) = Some (s, r ++ t).
Proof.
  revert m s r. induction cs as [|c cs IH]; intros m s r H; simpl in *; [done|].
  destruct m as [| |k acc].
  - destruct (Ascii.eqb c dquote); [by simplify_eq|].
    destruct (Ascii.eqb c backslash); [by apply IH|].
    destruct (nat_of_ascii c <? 32)%nat; [done|].
    destruct (lex_string Plain cs) as [[s' r']|] eqn:Hs; simplify_eq/=.
    by rewrite (IH Plain s' r).
  - destruct (Ascii.eqb c "u"); [by apply IH|].
    destruct (escape_char c); simplify_eq/=.
    destruct (lex_string Plain cs) as [[s' r']|] eqn:Hs; simplify_eq/=.
    by rewrite (IH Plain s' r).
  - destruct (hex_digit c); simplify_eq/=.
    destruct k as [|k]; [|by apply IH].
    destruct (lex_string Plain cs) as [[s' r']|] eqn:Hs; simplify_eq/=.
    by rewrite (IH Plain s' r).
Qed.

Lemma strip_app p cs r t : strip p cs = Some r → strip p (cs ++ t) = Some (r ++ t).
Proof.
  revert cs. induction p as [|a p IH]; intros cs H; simpl in *; [by simplify_eq|].
  destruct cs as [|c cs]; [done|]. simpl.
  destruct (Ascii.eqb a c); [by apply IH|done].
Qed.

Lemma lex_frac_app cs fs r t :
  lex_frac cs = Some (fs, r) → lex_frac (cs ++ newline_char :: t) = Some (fs, r ++ newline_char :: t).
Proof.
  unfold lex_frac. destruct cs as [|c cs]; simpl; [by intros; simplify_eq|].
  destruct (Ascii.eqb c "."); [|by intros; simplify_eq].
  destruct (span_digits cs) as [fs' r'] eqn:Hs.
  rewrite (span_digits_app _ _ _ _ _ Hs) by done.
  destruct fs'; intros; by simplify_eq.
Qed.

Lemma lex_sign_app cs sg r t :
  lex_sign cs = (sg, r) → lex_sign (cs ++ newline_char :: t) = (sg, r ++ newline_char :: t).
Proof.
  unfold lex_sign. destruct cs as [|c cs]; simpl; [by intros; simplify_eq|].
  destruct (Ascii.eqb c "-"); [by intros; simplify_eq|].
  destruct (Ascii.eqb c "+"); by intros; simplify_eq.
Qed.

Lemma lex_exp_app cs ex r t :
  lex_exp cs = Some (ex, r) → lex_exp (cs ++ newline_char :: t) = Some (ex, r ++ newline_char :: t).
Proof.
  unfold lex_exp. destruct cs as [|c cs]; simpl; [by intros; simplify_eq|].
  destruct (Ascii.eqb c "e" || Ascii.eqb c "E"); [|by intros; simplify_eq].
  destruct (lex_sign cs) as [sg r1] eqn:Hg.
  rewrite (lex_sign_app _ _ _ t Hg).
  destruct (span_digits r1) as [es r'] eqn:Hs.
  rewrite (span_digits_app _ _ _ _ _ Hs) by done.
  destruct es; intros; by simplify_eq.
Qed.

Lemma lex_number_app neg cs n r t :
  lex_number neg cs = Some (n, r) →
  lex_number neg (cs ++ newline_char :: t) = Some (n, r ++ newline_char :: t).
Proof.
  unfold lex_number.
  destruct (span_digits cs) as [ds r1] eqn:Hs.
  rewrite (span_digits_app _ _ _ _ _ Hs) by done.
  destruct (int_ok ds); [|done].
  destruct (lex_frac r1) as [[fs r2]|] eqn:Hf; [|done].
  rewrite (lex_frac_app _ _ _ _ Hf). simpl.
  destruct (lex_exp r2) as [[ex r3]|] eqn:He; [|done].
  rewrite (lex_exp_app _ _ _ _ He). simpl. intros; by simplify_eq.
Qed.

Lemma next_app c cs ot r t :
  next c cs = Some (ot, r) → next c (cs ++ newline_char :: t) = Some (ot, r ++ newline_char :: t).
Proof.
  unfold next.
  repeat (match goal with
          | |- context [if ?b then _ else _] => destruct b
          end; [first [by intros; simplify_eq | idtac]|]); try done.
  all: try (destruct (strip _ cs) as [r'|] eqn:Hs; [|done];
            rewrite (strip_app _ _ _ _ Hs); simpl; by intros; simplify_eq).
  - destruct (lex_string Plain cs) as [[s r']|] eqn:Hs; [|done].
    rewrite (lex_string_app _ _ _ _ _ Hs). simpl. by intros; simplify_eq.
  - destruct (lex_number true cs) as [[n r']|] eqn:Hs; [|done].
    rewrite (lex_number_app _ _ _ _ _ Hs). simpl. by intros; simplify_eq.
  - destruct (lex_number false (c :: cs)) as [[n r']|] eqn:Hs; [|done].
    change (c :: cs ++ newline_char :: t) with ((c :: cs) ++ newline_char :: t).
    rewrite (lex_number_app _ (c :: cs) _ _ t Hs). simpl. by intros; simplify_eq.
Qed.

Lemma lex_mono n n' cs ts : lex n cs = Some ts → (n ≤ n')%nat → lex n' cs = Some ts.
Proof.
  revert n' cs ts. induction n as [|n IH]; intros n' cs ts H Hle; [done|].
  destruct n' as [|n']; [lia|]. simpl in *.
  destruct cs as [|c cs]; [done|].
  destruct (next c cs) as [[ot r]|]; [|done]. simpl in *.
  destruct (lex n r) as [ts'|] eqn:Hl; [|done].
  by rewrite (IH n' r ts') by (done || lia).
Qed.

(** The tokens of two texts separated by a newline are the tokens of the
    first followed by those of the second. *)
Lemma lex_app n1 n2 cs t ts1 ts2 :
  lex n1 cs = Some ts1 → lex n2 t = Some ts2 →
  lex (n1 + n2) (cs ++ newline_char :: t) = Some (ts1 ++ ts2).
Proof.
  revert cs ts1. induction n1 as [|n1 IH]; intros cs ts1 H1 H2; [done|].
  simpl in *. destruct cs as [|c cs]; simpl.
  - simplify_eq. change (next newline_char t) with (Some (@None token, t)). simpl.
    rewrite (lex_mono n2 (n1 + n2) t ts2) by (done || lia). done.
  - destruct (next c cs) as [[ot r]|] eqn:Hn; [|done]. simpl in *.
    rewrite (next_app _ _ _ _ _ Hn). simpl.
    destruct (lex n1 r) as [ts|] eqn:Hl; [|done]. simplify_eq/=.
    rewrite (IH r ts) by done. simpl. by destruct ot.
Qed.

End JSONFacts.

Module ParserFacts.
Import JSON.

Lemma parse_value_nil f : parse_value f [] = None.
Proof. by destruct f. Qed.

Lemma parse_elements_nil f : parse_elements f [] = None.
Proof. destruct f; [done|]. simpl. by rewrite parse_value_nil. Qed.

Lemma parse_members_nil f : parse_members f [] = None.
Proof. by destruct f. Qed.

Lemma parse_stable f :
  stable parse_value f ∧ stable parse_elements f ∧ stable parse_members f.
Proof.
  induction f as [|f (IHv & IHe & IHm)]; [by split_and!; intros ???|].
  split_and!; intros ts v r H [|f'] ts' Hle; try lia;
    assert (Hle' : (f ≤ f')%nat) by lia.
  - destruct ts as [|tk ts]; [done|].
    destruct tk; simpl in H |- *; simplify_eq; try done.
    + (* object *)
      destruct ts as [|tk2 ts]; [by rewrite parse_members_nil in H|].
      destruct (parse_members f (tk2 :: ts)) as [[ms r']|] eqn:He.
      * pose proof (IHm _ _ _ He f' ts' Hle') as He'. simpl in He'.
        destruct tk2; simpl in H |- *; simplify_eq; try done;
          by rewrite He'.
      * destruct tk2; simpl in H; by simplify_eq.
    + (* array *)
      destruct ts as [|tk2 ts]; [by rewrite parse_elements_nil in H|].
      destruct (parse_elements f (tk2 :: ts)) as [[vs r']|] eqn:He.
      * pose proof (IHe _ _ _ He f' ts' Hle') as He'. simpl in He'.
        destruct tk2; simpl in H |- *; simplify_eq; try done;
          by rewrite He'.
      * destruct tk2; simpl in H; by simplify_eq.
  - simpl in H |- *.
    destruct (parse_value f ts) as [[v0 r0]|] eqn:Hv; [|done].
    rewrite (IHv _ _ _ Hv f' ts' Hle').
    destruct r0 as [|tk r0]; [done|].
    destruct tk; simpl in H |- *; simplify_eq; try done.
    destruct (parse_elements f r0) as [[vs r']|] eqn:He; [|done].
    rewrite (IHe _ _ _ He f' ts' Hle'). by simplify_eq/=.
  - simpl in H |- *.
    destruct ts as [|tk ts]; [done|].
    destruct tk; try done.
    destruct ts as [|tk ts]; [done|].
    destruct tk; try done. simpl.
    destruct (parse_value f ts) as [[v0 r0]|] eqn:Hv; [|done].
    rewrite (IHv _ _ _ Hv f' ts' Hle').
    destruct r0 as [|tk r0]; [done|].
    destruct tk; simpl in H |- *; simplify_eq; try done.
    destruct (parse_members f r0) as [[ms r']|] eqn:He; [|done].
    rewrite (IHm _ _ _ He f' ts' Hle'). by simplify_eq/=.
Qed.

End ParserFacts.

Lemma list_ascii_of_string_app s t :
  list_ascii_of_string (s +:+ t) = list_ascii_of_string s ++ list_ascii_of_string t.
Proof. induction s as [|c s IH]; simpl; [done|]. by rewrite IH. Qed.

Lemma string_of_list_ascii_app l1 l2 :
  string_of_list_ascii (l1 ++ l2) = string_of_list_ascii l1 +:+ string_of_list_ascii l2.
Proof. induction l1 as [|c l1 IH]; [done|]. simpl. by rewrite IH. Qed.

Lemma string_length_app s t :
  String.length (s +:+ t) = (String.length s + String.length t)%nat.
Proof. induction s as [|c s IH]; simpl; [done|]. by rewrite IH. Qed.

Lemma list_ascii_of_string_length s :
  length (list_ascii_of_string s) = String.length s.
Proof. induction s as [|c s IH]; simpl; [done|]. by rewrite IH. Qed.

(** [JSON.parse] of a text gives the tokens and the value read from them. *)
Lemma parse_Some text v :
  JSON.parse text = Some v →
  ∃ ts, JSON.lex (S (String.length text)) (list_ascii_of_string text) = Some ts
        ∧ JSON.parse_value (S (length ts)) ts = Some (v, [])
        ∧ ts ≠ [].
Proof.
  unfold JSON.parse. intros H.
  destruct (JSON.lex _ _) as [ts|]; [|done]. cbn [mbind option_bind] in H.
  destruct (JSON.parse_value (S (length ts)) ts) as [[v' r]|] eqn:Hp; [|done].
  destruct r; [|done]. simplify_eq. exists ts.
  split; [done|]. split; [done|]. intros ->. done.
Qed.

(** Two texts that parse, each followed by a newline and put one after the
    other, do not parse as one text. *)
Lemma parse_two_documents doc1 doc2 v1 v2 :
  JSON.parse doc1 = Some v1 → JSON.parse doc2 = Some v2 →
  JSON.parse (doc1 +:+ newline +:+ doc2 +:+ newline) = None.
Proof.
  intros H1 H2.
  apply parse_Some in H1 as (ts1 & Hl1 & Hp1 & _).
  apply parse_Some in H2 as (ts2 & Hl2 & _ & Hne).
  (* the tokens of [doc2 ++ newline] *)
  pose proof (JSONFacts.lex_app _ 1 _ [] _ [] Hl2 eq_refl) as Hl2'.
  rewrite app_nil_r in Hl2'.
  (* the tokens of the whole *)
  pose proof (JSONFacts.lex_app _ _ _ _ _ _ Hl1 Hl2') as Hl.
  unfold JSON.parse.
  rewrite !list_ascii_of_string_app.
  change (list_ascii_of_string newline) with [newline_char].
  cbn [app].
  erewrite JSONFacts.lex_mono; [|exact Hl|].
  2:{ rewrite !string_length_app. simpl. lia. }
  cbn [mbind option_bind].
  destruct (ParserFacts.parse_stable (S (length ts1))) as [Hst _].
  rewrite (Hst _ _ _ Hp1 _ ts2) by (rewrite length_app; lia).
  simpl. by destruct ts2.
Qed.

Lemma endsWith_newline s : JS.endsWith (s +:+ newline) newline = true.
Proof.
  unfold JS.endsWith. rewrite string_length_app. simpl String.length.
  replace (1 <=? String.length s + 1)%nat with true
    by (symmetry; apply Nat.leb_le; lia).
  replace (String.length s + 1 - 1)%nat with (String.length s) by lia.
  simpl. apply String.eqb_eq.
  induction s as [|c s IH]; simpl; [done|]. exact IH.
Qed.

Lemma string_app_assoc s t u : (s +:+ t) +:+ u = s +:+ t +:+ u.
Proof.
  induction s as [|c s IH]; [done|].
  change (String c ((s +:+ t) +:+ u) = String c (s +:+ t +:+ u)).
  by rewrite IH.
Qed.

Lemma catch_spec sock d :
  wire (catch sock d) = wire d ++ [(sock, ErrorDoc "Invalid message format")]
  ∧ manager (catch sock d) = manager d
  ∧ ended (catch sock d) = ended d
  ∧ buffer_of sock (catch sock d) = EmptyString
  ∧ ∀ s, s ≠ sock → buffer_of s (catch sock d) = buffer_of s d.
Proof.
  split_and!; try done.
  - unfold buffer_of. simpl. by rewrite lookup_insert_eq.
  - intros s Hs. unfold buffer_of. simpl. by rewrite lookup_insert_ne.
Qed.

Lemma set_buffer_twice sock b1 b2 d :
  set_buffer sock b2 (set_buffer sock b1 d) = set_buffer sock b2 d.
Proof. unfold set_buffer. simpl. by rewrite insert_insert_eq. Qed.

Lemma buffer_of_set_buffer sock b d : buffer_of sock (set_buffer sock b d) = b.
Proof. unfold buffer_of. simpl. by rewrite lookup_insert_eq. Qed.

Lemma buffer_of_set_buffer_ne sock s b d :
  s ≠ sock → buffer_of s (set_buffer sock b d) = buffer_of s d.
Proof. intros H. unfold buffer_of. simpl. by rewrite lookup_insert_ne. Qed.

(** C8.  The listener handles its accumulated input only once it ends in
    the newline delimiter.  Until then it only accumulates: the text of the
    chunk is appended to what the connection has buffered, nothing is
    written and nothing else changes, and the chunk that follows is handled
    on the accumulated text, which is parsed as one message once it ends in
    the newline.  Two complete documents that have arrived back to back are
    parsed as one text, which is malformed: the answer is one Error
    response.  Every parse fault, and every dispatch fault (a message that
    is [null], a [logs] request for an id that is not registered, a [start]
    request for which [Bun.spawn] throws), is answered by that Error
    response and resets the buffer of the connection; nothing else changes,
    and the connection is not ended.  ([on_data] is [on_data_when] where
    [Bun.spawn] returns.) *)
Theorem C8_framing (d : Daemon) (sock : Socket) (clock : Clock) (chunk : string) :
  let buf := buffer_of sock d +:+ JS.toString chunk in
  let failed := catch sock (set_buffer sock buf d) in
  (JS.endsWith buf newline = false →
     ∃ d1, (∀ spawn, on_data_when spawn sock clock chunk d = Some d1)
           ∧ on_data sock clock chunk d = Some d1
           ∧ d1 = set_buffer sock buf d
           ∧ buffer_of sock d1 = buf
           ∧ wire d1 = wire d ∧ manager d1 = manager d ∧ ended d1 = ended d
           ∧ (∀ s, s ≠ sock → buffer_of s d1 = buffer_of s d)
           ∧ (∀ clock2 chunk2,
                JS.endsWith (buf +:+ JS.toString chunk2) newline = false →
                ∃ d2, on_data sock clock2 chunk2 d1 = Some d2
                      ∧ buffer_of sock d2 = buf +:+ JS.toString chunk2
                      ∧ wire d2 = wire d ∧ manager d2 = manager d)
           ∧ (∀ clock2 chunk2 msg,
                JS.endsWith (buf +:+ JS.toString chunk2) newline = true →
                JSON.parse (buf +:+ JS.toString chunk2) = Some msg →
                JSON.get msg "type" ≠ JSON.Throws →
                on_data sock clock2 chunk2 d1
                = dispatch sock clock2 msg (set_buffer sock EmptyString d))
           ∧ (∀ clock2 chunk2,
                JS.endsWith (buf +:+ JS.toString chunk2) newline = true →
                JSON.parse (buf +:+ JS.toString chunk2) = None →
                on_data sock clock2 chunk2 d1
                = Some (catch sock (set_buffer sock (buf +:+ JS.toString chunk2) d))))
  ∧ (∀ spawn doc1 doc2 v1 v2,
       buf = doc1 +:+ newline +:+ doc2 +:+ newline →
       JSON.parse doc1 = Some v1 → JSON.parse doc2 = Some v2 →
       on_data_when spawn sock clock chunk d = Some failed)
  ∧ (∀ spawn, JS.endsWith buf newline = true → JSON.parse buf = None →
       on_data_when spawn sock clock chunk d = Some failed)
  ∧ (∀ spawn msg,
       JS.endsWith buf newline = true → JSON.parse buf = Some msg →
       JSON.get msg "type" = JSON.Throws
       ∨ (JSON.get msg "type" = JSON.Got (JSON.Str "logs")
          ∧ ∀ k, key_of (JSON.get msg "processId") = Some k →
                 ¬ is_registered k (manager d)) →
       on_data_when spawn sock clock chunk d = Some failed)
  ∧ (∀ msg,
       JS.endsWith buf newline = true → JSON.parse buf = Some msg →
       JSON.get msg "type" = JSON.Got (JSON.Str "start") →
       on_data_when SpawnThrows sock clock chunk d = Some failed)
  ∧ wire failed = wire d ++ [(sock, ErrorDoc "Invalid message format")]
  ∧ manager failed = manager d
  ∧ ended failed = ended d
  ∧ buffer_of sock failed = EmptyString
  ∧ (∀ s, s ≠ sock → buffer_of s failed = buffer_of s d).
Proof.
  intros buf failed.
  assert (Hparse_fault : ∀ spawn,
            JS.endsWith buf newline = true → JSON.parse buf = None →
            on_data_when spawn sock clock chunk d = Some failed).
  { intros spawn He Hp. unfold on_data_when. fold buf. by rewrite He, Hp. }
  assert (Hsame : catch sock (set_buffer sock EmptyString (set_buffer sock buf d)) = failed).
  { unfold failed, catch, set_buffer, socket_write, emit. simpl.
    by rewrite !insert_insert_eq. }
  split_and!.
  - intros He. exists (set_buffer sock buf d).
    assert (Hacc : ∀ spawn, on_data_when spawn sock clock chunk d
                            = Some (set_buffer sock buf d)).
    { intros spawn. unfold on_data_when. fold buf. by rewrite He. }
    split_and!; try done.
    + apply Hacc.
    + apply buffer_of_set_buffer.
    + intros s Hs. by apply buffer_of_set_buffer_ne.
    + intros clock2 chunk2 He2. eexists. split_and!.
      * unfold on_data, on_data_when.
        rewrite buffer_of_set_buffer, He2, set_buffer_twice. done.
      * apply buffer_of_set_buffer.
      * done.
      * done.
    + intros clock2 chunk2 msg He2 Hp2 Ht2. unfold on_data, on_data_when.
      rewrite buffer_of_set_buffer, He2, Hp2, !set_buffer_twice.
      by destruct (JSON.get msg "type").
    + intros clock2 chunk2 He2 Hp2. unfold on_data, on_data_when.
      by rewrite buffer_of_set_buffer, He2, Hp2, !set_buffer_twice.
  - intros spawn doc1 doc2 v1 v2 Hbuf H1 H2. apply Hparse_fault.
    + rewrite Hbuf.
      replace (doc1 +:+ newline +:+ doc2 +:+ newline)
        with ((doc1 +:+ newline +:+ doc2) +:+ newline); [apply endsWith_newline|].
      by rewrite !string_app_assoc.
    + rewrite Hbuf. by eapply parse_two_documents.
  - exact Hparse_fault.
  - intros spawn msg He Hp Hfault. unfold on_data_when. fold buf. rewrite He, Hp.
    destruct Hfault as [Ht|[Ht Hk]]; rewrite Ht; [by rewrite Hsame|].
    unfold dispatch_when. rewrite Ht. simpl.
    destruct (key_of (JSON.get msg "processId")) as [k|] eqn:Hkey;
      [|by rewrite Hsame].
    unfold getLogs. rewrite getProcess_None by (by apply Hk).
    by rewrite Hsame.
  - intros msg He Hp Ht. unfold on_data_when. fold buf. rewrite He, Hp, Ht.
    unfold dispatch_when. rewrite Ht. simpl. by rewrite Hsame.
  - unfold failed. by destruct (catch_spec sock (set_buffer sock buf d)) as (->&_).
  - done.
  - done.
  - unfold failed. by destruct (catch_spec sock (set_buffer sock buf d)) as (_&_&_&->&_).
  - intros s Hs. unfold failed.
    destruct (catch_spec sock (set_buffer sock buf d)) as (_&_&_&_&H).
    rewrite H by done. unfold buffer_of. simpl. by rewrite lookup_insert_ne.
Qed.

(** A [list] request that arrives cut in two is answered once it is
    complete.  Then two [list] requests in one chunk get one Error response,
    and a [list] request that follows on the same connection is answered. *)
Lemma C8_framing_witness :
  ∃ d1 d2 d3 d4,
    on_data 7 (sample_clock 9 9) list_request_head
      (set_manager new_daemon three_entries) = Some d1
    ∧ received 7 d1 = [] ∧ buffer_of 7 d1 = list_request_head
    ∧ on_data 7 (sample_clock 30 30) list_request_tail d1 = Some d2
    ∧ received 7 d2 = [OkList [mkListInfo "5" "app.js" 25 "running"]]
    ∧ buffer_of 7 d2 = EmptyString
    ∧ on_data 7 (sample_clock 9 9) (list_request +:+ list_request) d2 = Some d3
    ∧ received 7 d3 = [OkList [mkListInfo "5" "app.js" 25 "running"];
                       ErrorDoc "Invalid message format"]
    ∧ ended d3 = []
    ∧ on_data 7 (sample_clock 30 30) list_request d3 = Some d4
    ∧ received 7 d4 = [OkList [mkListInfo "5" "app.js" 25 "running"];
                       ErrorDoc "Invalid message format";
                       OkList [mkListInfo "5" "app.js" 25 "running"]].
Proof.
  destruct (C8_framing (set_manager new_daemon three_entries) 7 (sample_clock 9 9)
              list_request_head) as (Hacc & _).
  destruct (Hacc eq_refl) as (d1 & _ & H1 & Hd1 & Hb1 & _ & _ & _ & _ & _ & Hnext & _).
  pose proof (Hnext (sample_clock 30 30) list_request_tail
                (JSON.Object [("type", JSON.Str "list")]) eq_refl eq_refl
                ltac:(discriminate)) as H2.
  destruct (dispatch 7 (sample_clock 30 30) (JSON.Object [("type", JSON.Str "list")]) _)
    as [d2|] eqn:Hd2; [|by vm_compute in Hd2].
  destruct (C8_framing d2 7 (sample_clock 9 9) (list_request +:+ list_request))
    as (_ & H3 & _ & _ & _ & Hw & _ & He & _).
  vm_compute in Hd2. injection Hd2 as <-.
  specialize (H3 SpawnReturns list_document list_document
                (JSON.Object [("type", JSON.Str "list")])
                (JSON.Object [("type", JSON.Str "list")])
                eq_refl eq_refl eq_refl).
  eexists d1, _, _, _. split; [exact H1|]. split_and!.
  - rewrite Hd1. reflexivity.
  - exact Hb1.
  - exact H2.
  - reflexivity.
  - reflexivity.
  - exact H3.
  - unfold received. rewrite Hw. reflexivity.
  - exact He.
  - vm_compute. reflexivity.
  - vm_compute. reflexivity.
Defined.

(** A [start] request for which [Bun.spawn] throws: one Error response,
    nothing registered. *)
Example start_fault_answered :
  ∃ d', step (SpawnFailure 7 (sample_clock 9 9) start_request_capacity_1)
          (set_manager new_daemon three_entries) = Some d'
        ∧ received 7 d' = [ErrorDoc "Invalid message format"]
        ∧ manager d' = three_entries ∧ ended d' = [].
Proof. eexists. split; [vm_compute; reflexivity|]. done. Qed.

(** * Further properties of the supervisor and the listener *)

(** ** Invariants of the reachable states *)

Lemma list_ids m clock : wf m → li_id <$> list_ clock m = JS.Map_keys (processes m).
Proof.
  intros Hwf. destruct (registered_spec m Hwf) as [Hl H].
  apply list_eq. intros i. unfold JS.Map_keys, list_.
  rewrite !list_lookup_fmap, list_lookup_imap.
  destruct (processes m !! i) as [[k r]|] eqn:Hi.
  - destruct (H i k r Hi) as (p & _ & Hid & ->). simpl. by rewrite Hid.
  - rewrite (lookup_ge_None_2 (registered m)); [done|].
    rewrite Hl. by apply lookup_ge_None.
Qed.

(** X1.  In every state the daemon reaches, the ids of the registry are
    distinct, every registered id leads to a record that carries this id,
    [list] shows exactly the registered ids, each once and in the order of
    the registry, and every record ever created still has the script and
    the options (with [maxLogLines] set) of the [start] call that made it. *)
Theorem X1_reachable_registry_invariant (d : Daemon) (clock : Clock) :
  reachable d →
  let m := manager d in
  NoDup (JS.Map_keys (processes m))
  ∧ (∀ k, is_registered k m → ∃ p, getProcess k m = Some p ∧ id p = k)
  ∧ li_id <$> list_ clock m = JS.Map_keys (processes m)
  ∧ NoDup (li_id <$> list_ clock m)
  ∧ (∀ r p, objects m !! r = Some p →
       ∃ o, spawned m !! r = Some (script p, o)
            ∧ options p = with_defaults o
            ∧ is_Some (maxLogLines (options p))).
Proof.
  intros Hr m. pose proof (reachable_wf d Hr) as Hwf. fold m in Hwf.
  split_and!.
  - apply Hwf.
  - intros k Hk. destruct (getProcess_Some m k Hwf Hk) as (r & p & _ & _ & Hg & Hid).
    eauto.
  - by apply list_ids.
  - rewrite list_ids by done. apply Hwf.
  - intros r p Hp. destruct (wf_closures m Hwf r p Hp) as (o & Hs & Ho).
    exists o. split_and!; [done..|]. rewrite Ho. simpl.
    by destruct (maxLogLines o).
Qed.

Lemma sample_daemon_reachable : reachable sample_daemon.
Proof. exists sample_events. vm_compute. reflexivity. Defined.

Lemma X1_reachable_registry_invariant_witness :
  reachable sample_daemon
  ∧ li_id <$> list_ (sample_clock 9 9) (manager sample_daemon) = ["5"].
Proof.
  split; [exact sample_daemon_reachable|].
  destruct (X1_reachable_registry_invariant _ (sample_clock 9 9) sample_daemon_reachable)
    as (_ & _ & H & _).
  rewrite H. reflexivity.
Defined.

(** *** The buffer of every record stays within its capacity *)












(** *** The configuration mirror and the store only grow *)

Lemma mirror_grown_refl m : mirror_grown m m.
Proof. split; [done|]. by rewrite Nat.sub_diag, app_nil_r. Qed.

Lemma mirror_grown_trans m1 m2 m3 :
  mirror_grown m1 m2 → mirror_grown m2 m3 → mirror_grown m1 m3.
Proof.
  intros [Hl1 Hc1] [Hl2 Hc2]. split; [lia|].
  rewrite Hc2, Hc1, <- app_assoc. f_equal.
  replace (length (objects m3) - length (objects m1))%nat
    with ((length (objects m2) - length (objects m1))
          + (length (objects m3) - length (objects m2)))%nat by lia.
  rewrite seq_app. do 2 f_equal. lia.
Qed.

Lemma mirror_grown_same m m' :
  config m' = config m → length (objects m') = length (objects m) → mirror_grown m m'.
Proof. intros Hc Hl. split; [lia|]. by rewrite Hc, Hl, Nat.sub_diag, app_nil_r. Qed.

Lemma start_mirror clock scr o m : mirror_grown m (start clock scr o m).2.
Proof.
  split; simpl; rewrite length_app; simpl; [lia|].
  by replace (length (objects m) + 1 - length (objects m))%nat with 1%nat by lia.
Qed.

Lemma terminated_mirror r t clock m : mirror_grown m (terminated r t clock m).
Proof.
  unfold terminated.
  destruct (objects m !! r) as [p|]; [|apply mirror_grown_refl].
  destruct (spawned m !! r) as [[scr o]|]; [|apply mirror_grown_refl].
  set (m1 := set_objects m _).
  assert (mirror_grown m m1) as H1.
  { apply mirror_grown_same; [done|]. simpl. apply length_insert. }
  destruct (restart_wanted (resolved t) o); [|done].
  eapply mirror_grown_trans; [done|apply start_mirror].
Qed.

Lemma dispatch_mirror spawn sock clock msg d d' :
  dispatch_when spawn sock clock msg d = Some d' → mirror_grown (manager d) (manager d').
Proof.
  intros H. unfold dispatch_when in H.
  repeat case_match; simplify_eq/=; try apply mirror_grown_refl.
  - match goal with H : start _ _ _ _ = _ |- _ =>
      apply (f_equal snd) in H; simpl in H; subst end.
    apply start_mirror.
  - unfold stop. case_match; [|apply mirror_grown_refl].
    apply mirror_grown_same; [done|]. simpl. apply length_alter.
  - apply mirror_grown_same; [done|]. simpl. apply length_insert.
Qed.

Lemma step_mirror e d d' : step e d = Some d' → mirror_grown (manager d) (manager d').
Proof.
  intros H.
  assert (Hdata : ∀ spawn sock clock chunk,
            on_data_when spawn sock clock chunk d = Some d' →
            mirror_grown (manager d) (manager d')).
  { intros spawn sock clock chunk H'. unfold on_data_when in H'.
    repeat case_match; simplify_eq/=; try apply mirror_grown_refl;
      match goal with H : dispatch_when _ _ _ _ ?d0 = Some _ |- _ =>
        apply (dispatch_mirror _ _ _ _ d0 _ H) end. }
  destruct e as [sock clock chunk|r isErr now chunk|r code clock
                |sock clock chunk|r signal clock];
    simpl in H.
  - by eapply Hdata.
  - unfold handler_write in H.
    destruct (objects (manager d) !! r) as [p|]; [|simplify_eq/=; apply mirror_grown_refl].
    destruct (addLog now p chunk isErr). simplify_eq/=.
    apply mirror_grown_same; [done|]. simpl. apply length_insert.
  - simplify_eq/=. apply terminated_mirror.
  - by eapply Hdata.
  - simplify_eq/=. apply terminated_mirror.
Qed.

(** X3.  Whatever happens in the daemon, no record is ever removed from the
    store or from the configuration mirror: after any events the mirror is
    the mirror of before followed by the records created since, one for
    every [start] and restart, in the order of their creation.  [stop] and
    exits take nothing out of it. *)
Theorem X3_config_mirror_only_grows (es : list Event) (d d' : Daemon) :
  run es d = Some d' →
  let n := length (objects (manager d)) in
  let n' := length (objects (manager d')) in
  (n ≤ n')%nat
  ∧ config (manager d') = config (manager d) ++ seq n (n' - n).
Proof.
  revert d. induction es as [|e es IH]; intros d H; simpl in H.
  - simplify_eq. apply mirror_grown_refl.
  - destruct (step e d) as [d1|] eqn:Hs; [|done]. simpl in H.
    apply (mirror_grown_trans _ (manager d1)); [by eapply step_mirror|by apply IH].
Qed.

Lemma X3_config_mirror_only_grows_witness :
  ∃ d', run [SocketData 2 (sample_clock 9 9) (stop_request "5");
             SocketData 0 (sample_clock 11 11) start_request_capacity_1]
          sample_daemon = Some d'
        ∧ config (manager d') = [0; 1]%nat.
Proof.
  destruct (run _ _) as [d'|] eqn:Hrun; [|by vm_compute in Hrun].
  destruct (X3_config_mirror_only_grows _ _ _ Hrun) as [_ H].
  exists d'. split; [reflexivity|].
  vm_compute in Hrun. injection Hrun as <-. rewrite H. reflexivity.
Defined.

(** *** A record keeps its identity; its exit code is set by its own exit *)

Lemma dispatch_process spawn sock clock msg d d' r p :
  dispatch_when spawn sock clock msg d = Some d' → objects (manager d) !! r = Some p →
  ∃ p', objects (manager d') !! r = Some p' ∧ same_process p p'
        ∧ exitCode (process p') = exitCode (process p).
Proof.
  intros H Hp. unfold dispatch_when in H.
  repeat case_match; simplify_eq/=; try (by exists p).
  - match goal with H : start _ _ _ _ = _ |- _ =>
      apply (f_equal snd) in H; simpl in H; subst end.
    exists p. split; [|done]. by apply lookup_app_l_Some.
  - unfold stop. case_match; simpl; [|by exists p].
    rewrite list_lookup_alter. case_decide; subst.
    + rewrite Hp. by exists (kill p).
    + by exists p.
  - match goal with |- context [<[?r0 := ?q]> _ !! r] =>
      destruct (decide (r0 = r)) as [->|Hne] end.
    + rewrite list_lookup_insert_eq by (by eapply lookup_lt_Some).
      eexists. split; [done|]. by simplify_eq.
    + rewrite list_lookup_insert_ne by done. by exists p.
Qed.

Lemma terminated_process r0 t clock m r p :
  objects m !! r = Some p →
  ∃ p', objects (terminated r0 t clock m) !! r = Some p' ∧ same_process p p'
        ∧ ((∀ code, t = ExitCode code → r0 ≠ r) →
           exitCode (process p') = exitCode (process p)).
Proof.
  intros Hp. unfold terminated.
  destruct (objects m !! r0) as [p0|] eqn:Hp0; [|by exists p].
  destruct (spawned m !! r0) as [[scr o]|]; [|by exists p].
  assert (∃ p', <[r0 := set_process p0
                   (mkSubprocess (exitCode_after t (exitCode (process p0)))
                                 (killed (process p0)))]>
                  (objects m) !! r = Some p' ∧ same_process p p'
                ∧ ((∀ code, t = ExitCode code → r0 ≠ r) →
                   exitCode (process p') = exitCode (process p)))
    as (p' & Hp' & Hs & He).
  { destruct (decide (r0 = r)) as [->|Hne].
    - rewrite list_lookup_insert_eq by (by eapply lookup_lt_Some).
      eexists. split; [done|]. simplify_eq. split; [done|]. simpl.
      intros Hno. destruct t as [code|signal]; [|done]. by destruct (Hno code).
    - rewrite list_lookup_insert_ne by done. by exists p. }
  exists p'. split_and!; [|done..].
  destruct (restart_wanted (resolved t) o); [|done]. by apply start_keeps_objects.
Qed.

Lemma step_process e d d' r p :
  step e d = Some d' → objects (manager d) !! r = Some p →
  ∃ p', objects (manager d') !! r = Some p' ∧ same_process p p'
        ∧ ((∀ code clock, e ≠ ChildExit r code clock) →
           exitCode (process p') = exitCode (process p)).
Proof.
  intros H Hp.
  assert (Hdata : ∀ spawn sock clock chunk,
            on_data_when spawn sock clock chunk d = Some d' →
            ∃ p', objects (manager d') !! r = Some p' ∧ same_process p p'
                  ∧ exitCode (process p') = exitCode (process p)).
  { intros spawn sock clock chunk H'. unfold on_data_when in H'.
    repeat case_match; simplify_eq/=; try (by exists p);
      match goal with H : dispatch_when _ _ _ _ ?d0 = Some _ |- _ =>
        apply (dispatch_process _ _ _ _ d0 _ _ _ H Hp) end. }
  destruct e as [sock clock chunk|r0 isErr now chunk|r0 code clock
                |sock clock chunk|r0 signal clock];
    simpl in H.
  - destruct (Hdata _ _ _ _ H) as (p' & ? & ? & ?). by exists p'.
  - unfold handler_write in H.
    destruct (objects (manager d) !! r0) as [p0|] eqn:Hp0; [|simplify_eq/=; by exists p].
    pose proof (addLog_same_process now p0 chunk isErr) as Hsame.
    assert (process (addLog now p0 chunk isErr).1 = process p0) as Hproc.
    { unfold addLog. simpl.
      destruct (Z.of_nat (length (items (logs p0) ++ _)) >? _); done. }
    destruct (addLog now p0 chunk isErr) as [q w]. simplify_eq/=.
    destruct (decide (r0 = r)) as [->|Hne].
    + rewrite list_lookup_insert_eq by (by eapply lookup_lt_Some).
      simplify_eq. exists q. by rewrite Hproc.
    + rewrite list_lookup_insert_ne by done. by exists p.
  - simplify_eq/=.
    destruct (terminated_process r0 (ExitCode code) clock _ r p Hp)
      as (p' & Hp' & Hs & He).
    exists p'. split_and!; [done..|].
    intros Hne. apply He. intros c [= ->] ->. by eapply Hne.
  - destruct (Hdata _ _ _ _ H) as (p' & ? & ? & ?). by exists p'.
  - simplify_eq/=.
    destruct (terminated_process r0 (Signal signal) clock _ r p Hp)
      as (p' & Hp' & Hs & He).
    exists p'. split_and!; [done..|]. intros _. by apply He.
Qed.

Lemma same_process_trans p q s : same_process p q → same_process q s → same_process p s.
Proof. unfold same_process. intros (?&?&?&?) (?&?&?&?). split_and!; congruence. Qed.

(** X4.  During any run of the daemon a record stays in the store and keeps
    its id, its script, its start time and its options; its exit code
    changes only at the exit of its own child.  In particular [stop], which
    kills the child and removes the record from the registry, does not
    record an exit code, and the record of a process whose child has not
    exited is never shown as stopped. *)
Theorem X4_record_identity_and_status (es : list Event) (d d' : Daemon)
    (r : nat) (p : ProcessInfo) :
  run es d = Some d' → objects (manager d) !! r = Some p →
  ∃ p', objects (manager d') !! r = Some p'
        ∧ id p' = id p ∧ script p' = script p ∧ startTime p' = startTime p
        ∧ options p' = options p
        ∧ ((∀ code clock, ChildExit r code clock ∉ es) →
           exitCode (process p') = exitCode (process p)
           ∧ status_of p' = status_of p).
Proof.
  revert d p. induction es as [|e es IH]; intros d p H Hp; simpl in H.
  - simplify_eq. exists p. split_and!; done.
  - destruct (step e d) as [d1|] eqn:Hs; [|done]. simpl in H.
    destruct (step_process e d d1 r p Hs Hp) as (p1 & Hp1 & (Hi1&Hs1&Ht1&Ho1) & He1).
    destruct (IH d1 p1 H Hp1) as (p' & Hp' & Hi & Hsc & Ht & Ho & He).
    exists p'. split_and!; [done|congruence..|].
    intros Hno.
    assert (exitCode (process p') = exitCode (process p)) as Hx.
    { destruct He as [He _].
      - intros code clock Hin. eapply Hno. by right.
      - rewrite He. apply He1. intros code clock ->. eapply Hno. left. }
    split; [done|]. unfold status_of. by rewrite Hx.
Qed.

Lemma X4_record_identity_and_status_witness :
  ∃ d' p',
    run [SocketData 2 (sample_clock 9 9) (stop_request "5");
         ChildOutput 0 false 10 "late"]
      (set_manager new_daemon three_entries) = Some d'
    ∧ objects (manager d') !! 0%nat = Some p'
    ∧ id p' = "5" ∧ status_of p' = "running".
Proof.
  destruct (run _ _) as [d'|] eqn:Hrun; [|by vm_compute in Hrun].
  destruct (X4_record_identity_and_status _ _ _ 0
              (append_all (fresh_record "5" "app.js" 5 (mkOptions None None))
                 [mkAppend 6 "one" false; mkAppend 7 "two" true;
                  mkAppend 8 "three" false]) Hrun eq_refl)
    as (p' & Hp' & Hid & _ & _ & _ & He).
  exists d', p'. split; [reflexivity|]. split; [exact Hp'|]. split; [exact Hid|].
  destruct He as [_ He]; [|exact He].
  intros code clock Hin.
  repeat (apply elem_of_cons in Hin as [Hin|Hin]; [discriminate|]).
  by apply elem_of_nil in Hin.
Defined.

(** ** The listener *)

(** X5.  An [attach] request whose [processId] is not registered (or is not
    a string) is answered by the one document [{error: "Not found"}], and
    the daemon ends the connection; registry, store and the other
    connections are untouched, and no forwarder is installed. *)
Theorem X5_attach_unknown_id (d : Daemon) (sock : Socket) (clock : Clock)
    (chunk : string) (msg : JSON.value) :
  JS.endsWith (buffer_of sock d +:+ JS.toString chunk) newline = true →
  JSON.parse (buffer_of sock d +:+ JS.toString chunk) = Some msg →
  JSON.get msg "type" = JSON.Got (JSON.Str "attach") →
  (∀ k, key_of (JSON.get msg "processId") = Some k → ¬ is_registered k (manager d)) →
  ∃ d', on_data sock clock chunk d = Some d'
        ∧ wire d' = wire d ++ [(sock, ErrorDoc "Not found")]
        ∧ ended d' = sock :: ended d
        ∧ manager d' = manager d
        ∧ buffer_of sock d' = EmptyString.
Proof.
  intros He Hp Ht Hk.
  rewrite (on_data_parsed _ _ _ _ msg) by (done || by rewrite Ht).
  rewrite set_buffer_twice. unfold dispatch, dispatch_when. rewrite Ht. simpl.
  assert (∀ k, ¬ is_registered k (manager d) →
               JS.Map_get k (processes (manager d)) = None) as Hnone.
  { intros k Hn. unfold is_registered in Hn.
    destruct (JS.Map_get k (processes (manager d))); [|done]. destruct Hn. eauto. }
  destruct (key_of (JSON.get msg "processId")) as [k|] eqn:Hkey.
  - rewrite (Hnone k) by (by apply Hk).
    eexists. split; [done|]. split_and!; try done. apply buffer_of_set_buffer.
  - eexists. split; [done|]. split_and!; try done. apply buffer_of_set_buffer.
Qed.

Lemma X5_attach_unknown_id_witness :
  ∃ d', on_data 7 (sample_clock 9 9) (attach_request "404")
          (set_manager new_daemon three_entries) = Some d'
        ∧ wire d' = [(7%nat, ErrorDoc "Not found")]
        ∧ ended d' = [7%nat].
Proof.
  destruct (X5_attach_unknown_id (set_manager new_daemon three_entries) 7
              (sample_clock 9 9) (attach_request "404")
              (JSON.Object [("type", JSON.Str "attach"); ("processId", JSON.Str "404")]))
    as (d' & H & Hw & He & _); [reflexivity..| |].
  - intros k Hk. injection Hk as <-. unfold is_registered. vm_compute.
    by intros [? ?].
  - exists d'. by rewrite H, Hw, He.
Defined.

(** X6.  A message that parses, is not [null], and whose [type] is none of
    [start], [stop], [list], [logs], [attach] (or is missing, or is not a
    string: also every number, string, boolean and array) is answered by
    the one document [{error: "Invalid message type"}]; the manager is
    untouched, the buffer is reset and the connection stays open. *)
Theorem X6_unknown_message_type (d : Daemon) (sock : Socket) (clock : Clock)
    (chunk : string) (msg : JSON.value) :
  JS.endsWith (buffer_of sock d +:+ JS.toString chunk) newline = true →
  JSON.parse (buffer_of sock d +:+ JS.toString chunk) = Some msg →
  msg ≠ JSON.Null →
  (∀ s, JSON.get msg "type" = JSON.Got (JSON.Str s) → s ∉ known_types) →
  ∃ d', on_data sock clock chunk d = Some d'
        ∧ wire d' = wire d ++ [(sock, ErrorDoc "Invalid message type")]
        ∧ ended d' = ended d
        ∧ manager d' = manager d
        ∧ buffer_of sock d' = EmptyString.
Proof.
  intros He Hp Hnull Ht.
  assert (JSON.get msg "type" ≠ JSON.Throws) as Hthrows.
  { destruct msg; simpl; try done. by destruct (JSON.member _ _). }
  rewrite (on_data_parsed _ _ _ _ msg) by done.
  rewrite set_buffer_twice. unfold dispatch, dispatch_when.
  set (type := match JSON.get msg "type" with
               | JSON.Got (JSON.Str s) => s
               | _ => EmptyString
               end).
  assert (type ∉ known_types) as Hty.
  { unfold type. destruct (JSON.get msg "type") as [| |[]] eqn:Hg;
      try (by apply Ht); unfold known_types; rewrite !not_elem_of_cons;
      split_and!; try done; apply not_elem_of_nil. }
  unfold known_types in Hty. rewrite !not_elem_of_cons in Hty.
  destruct Hty as (H1 & H2 & H3 & H4 & H5 & _).
  apply String.eqb_neq in H1, H2, H3, H4, H5.
  rewrite H1, H2, H3, H4, H5.
  eexists. split; [done|]. split_and!; try done. apply buffer_of_set_buffer.
Qed.

Lemma X6_unknown_message_type_witness :
  ∃ d', on_data 7 (sample_clock 9 9) ("[1, 2]" +:+ newline)
          (set_manager new_daemon three_entries) = Some d'
        ∧ wire d' = [(7%nat, ErrorDoc "Invalid message type")]
        ∧ ended d' = [].
Proof.
  destruct (X6_unknown_message_type (set_manager new_daemon three_entries) 7
              (sample_clock 9 9) ("[1, 2]" +:+ newline)
              (default JSON.Null (JSON.parse ("[1, 2]" +:+ newline))))
    as (d' & H & Hw & He & _); [reflexivity|reflexivity|by vm_compute| |].
  - intros s Hs. by vm_compute in Hs.
  - exists d'. by rewrite H, Hw, He.
Defined.


(** *** The decoder of the chunks *)

Module DecoderFacts.
Import JS.

Lemma classify_Lead b more lower upper :
  classify b = Lead more lower upper → (128 ≤ lower)%N.
Proof.
  unfold classify. repeat case_match; intros; simplify_eq; lia.
Qed.

Lemma classify_plain b : plain_char b = true → classify b = Single.
Proof. unfold classify, plain_char. by intros ->. Qed.

Lemma classify_Single b : classify b = Single → plain_char b = true.
Proof. unfold classify, plain_char. by repeat case_match. Qed.

Lemma first_byte_sound b : sound (first_byte b).2.
Proof.
  unfold first_byte. destruct (classify b) eqn:Hc; simpl; [done| |done].
  by eapply classify_Lead.
Qed.

Lemma feed_sound st b : sound (feed st b).2.
Proof.
  destruct st as [|more lower upper seen]; simpl; [apply first_byte_sound|].
  destruct (within lower upper b).
  - destruct more; simpl; [done|lia].
  - pose proof (first_byte_sound b). by destruct (first_byte b).
Qed.

Lemma within_plain lower upper b :
  (128 ≤ lower)%N → plain_char b = true → within lower upper b = false.
Proof.
  unfold within, plain_char. intros Hl Hb. apply N.ltb_lt in Hb.
  apply andb_false_iff. left. apply N.leb_gt. lia.
Qed.

(** A character of one byte ends whatever sequence was begun. *)
Lemma decode_plain_last st bs c :
  sound st → plain_char c = true → decode st (bs ++ [c]) = decode st bs ++ [c].
Proof.
  revert st. induction bs as [|b bs IH]; intros st Hst Hc.
  - simpl. destruct st as [|more lower upper seen]; simpl.
    + unfold first_byte. by rewrite classify_plain.
    + rewrite within_plain by done. unfold first_byte. rewrite classify_plain by done.
      done.
  - simpl. pose proof (feed_sound st b) as Hs.
    destruct (feed st b) as [out st']. rewrite IH by done. by rewrite app_assoc.
Qed.

Lemma decode_app st bs1 bs2 :
  state_after st bs1 = Idle → decode st (bs1 ++ bs2) = decode st bs1 ++ decode Idle bs2.
Proof.
  revert st. induction bs1 as [|b bs1 IH]; intros st H; simpl in *.
  - by subst.
  - destruct (feed st b) as [out st']. simpl in H. rewrite IH by done.
    by rewrite app_assoc.
Qed.

Lemma toString_app chunk1 chunk2 :
  complete chunk1 = true →
  toString (chunk1 +:+ chunk2) = toString chunk1 +:+ toString chunk2.
Proof.
  unfold complete, toString. intros H.
  rewrite list_ascii_of_string_app, decode_app by (by case_match).
  apply string_of_list_ascii_app.
Qed.

Lemma toString_newline doc : toString (doc +:+ newline) = toString doc +:+ newline.
Proof.
  unfold toString. rewrite list_ascii_of_string_app.
  change (list_ascii_of_string newline) with [newline_char].
  rewrite decode_plain_last by done. apply string_of_list_ascii_app.
Qed.

Lemma decode_nonempty st bs : decode st bs = [] → bs = [] ∧ st = Idle.
Proof.
  revert st. induction bs as [|b bs IH]; intros st H; simpl in H.
  - by destruct st.
  - exfalso. destruct (feed st b) as [out st'] eqn:Hf.
    apply app_eq_nil in H as [-> H]. apply IH in H as [-> ->].
    destruct st as [|more lower upper seen]; simpl in Hf.
    + unfold first_byte in Hf. by destruct (classify b).
    + destruct (within lower upper b).
      * destruct more; simplify_eq. by destruct seen.
      * by destruct (first_byte b).
Qed.

Lemma toString_nonempty chunk : chunk ≠ EmptyString → toString chunk ≠ EmptyString.
Proof.
  intros Hc H. unfold toString in H.
  apply (f_equal list_ascii_of_string) in H.
  rewrite list_ascii_of_string_of_list_ascii in H. simpl in H.
  apply decode_nonempty in H as [H _]. by destruct chunk.
Qed.

(** What the decoder replaces nothing in, it returns. *)
Lemma decode_well_formed st bs :
  well_formed_from st bs = true →
  decode st bs = match st with Idle => [] | Expect _ _ _ seen => seen end ++ bs.
Proof.
  revert st. induction bs as [|b bs IH]; intros st H; simpl in H.
  - by destruct st.
  - destruct st as [|more lower upper seen]; simpl.
    + unfold first_byte. destruct (classify b); [|by rewrite IH|done].
      by rewrite IH.
    + apply andb_true_iff in H as [-> H].
      destruct more; rewrite IH by done; simpl; by rewrite <- ?app_assoc.
Qed.

Lemma toString_well_formed text : well_formed text = true → toString text = text.
Proof.
  unfold well_formed, toString. intros H. rewrite decode_well_formed by done.
  apply string_of_list_ascii_of_string.
Qed.

Lemma well_formed_from_app st bs1 bs2 :
  well_formed_from st bs1 = true →
  well_formed_from st (bs1 ++ bs2) = well_formed_from Idle bs2.
Proof.
  revert st. induction bs1 as [|b bs1 IH]; intros st H; simpl in H.
  - by destruct st.
  - simpl. destruct st as [|more lower upper seen].
    + destruct (classify b); [by apply IH|by apply IH|done].
    + apply andb_true_iff in H as [-> H]. simpl. destruct more; by apply IH.
Qed.

Lemma well_formed_app s t :
  well_formed s = true → well_formed t = true → well_formed (s +:+ t) = true.
Proof.
  unfold well_formed. intros Hs Ht.
  by rewrite list_ascii_of_string_app, well_formed_from_app.
Qed.

Lemma well_formed_from_plain bs rest :
  forallb plain_char bs = true →
  well_formed_from Idle (bs ++ rest) = well_formed_from Idle rest.
Proof.
  induction bs as [|b bs IH]; [done|]. simpl. intros H.
  apply andb_true_iff in H as [Hb H]. by rewrite classify_plain, IH.
Qed.

Lemma plain_well_formed s : plain s = true → well_formed s = true.
Proof.
  unfold plain, well_formed. intros H.
  rewrite <- (app_nil_r (list_ascii_of_string s)). by rewrite well_formed_from_plain.
Qed.

Lemma plain_app s t : plain (s +:+ t) = plain s && plain t.
Proof. unfold plain. by rewrite list_ascii_of_string_app, forallb_app. Qed.

Lemma toString_plain s : plain s = true → toString s = s.
Proof. intros H. by apply toString_well_formed, plain_well_formed. Qed.

Lemma plain_joined cs :
  plain (joined cs) = true → toString <$> cs = cs.
Proof.
  induction cs as [|c cs IH]; [done|]. simpl. rewrite plain_app.
  intros H. apply andb_true_iff in H as [Hc H]. csimpl.
  f_equal; [by apply toString_plain|by apply IH].
Qed.

(** The quotation of [JSON.stringify] escapes characters of one byte only,
    by characters of one byte. *)
Lemma quote_char_plain c :
  plain_char c = true → forallb plain_char (Stringify.quote_char c) = true.
Proof.
  destruct c as [[] [] [] [] [] [] [] []]; cbv [plain_char]; intros H;
    first [discriminate H | by vm_compute].
Qed.

Lemma quote_char_other c : plain_char c = false → Stringify.quote_char c = [c].
Proof.
  destruct c as [[] [] [] [] [] [] [] []]; intros H;
    first [by vm_compute in H | by vm_compute].
Qed.

Lemma well_formed_from_quoted st bs rest :
  sound st → well_formed_from st bs = true →
  well_formed_from st ((bs ≫= Stringify.quote_char) ++ rest)
  = well_formed_from Idle rest.
Proof.
  revert st. induction bs as [|b bs IH]; intros st Hst H; simpl in H.
  - by destruct st.
  - csimpl. rewrite <- app_assoc.
    destruct st as [|more lower upper seen].
    + destruct (classify b) eqn:Hc; [| |done].
      * apply classify_Single in Hc.
        rewrite well_formed_from_plain by (by apply quote_char_plain).
        by apply IH.
      * rewrite quote_char_other.
        -- simpl. rewrite Hc. apply IH; [|done]. simpl. by eapply classify_Lead.
        -- destruct (plain_char b) eqn:Hp; [|done].
           apply classify_plain in Hp. congruence.
    + apply andb_true_iff in H as [Hw H].
      rewrite quote_char_other.
      * simpl. rewrite Hw. simpl. destruct more; apply IH; done.
      * destruct (plain_char b) eqn:Hp; [|done].
        by rewrite within_plain in Hw.
Qed.

Lemma well_formed_quote s :
  well_formed s = true → well_formed (Stringify.quote s) = true.
Proof.
  unfold well_formed, Stringify.quote. intros H.
  rewrite list_ascii_of_string_of_list_ascii.
  change (well_formed_from Idle
            ((list_ascii_of_string s ≫= Stringify.quote_char) ++ [JSON.dquote]) = true).
  by rewrite well_formed_from_quoted.
Qed.

Lemma plain_quote s : plain s = true → plain (Stringify.quote s) = true.
Proof.
  unfold plain, Stringify.quote. intros H.
  rewrite list_ascii_of_string_of_list_ascii.
  change (forallb plain_char
            ((list_ascii_of_string s ≫= Stringify.quote_char) ++ [JSON.dquote]) = true).
  rewrite forallb_app. apply andb_true_iff. split; [|done].
  induction (list_ascii_of_string s) as [|c l IH]; [done|].
  simpl in H. apply andb_true_iff in H as [Hc H]. csimpl.
  rewrite forallb_app, quote_char_plain by done. by apply IH.
Qed.

Lemma plain_pretty_N_go x s : plain s = true → plain (pretty_N_go x s) = true.
Proof.
  revert s. induction (N.lt_wf_0 x) as [x _ IH]; intros s Hs.
  destruct (decide (x = 0)%N) as [->|Hx]; [by rewrite pretty_N_go_0|].
  rewrite pretty_N_go_step by lia. apply IH; [apply N.div_lt; lia|].
  change (plain_char (pretty_N_char (x `mod` 10)) && plain s = true).
  rewrite Hs, andb_true_r. unfold pretty_N_char. by repeat case_match.
Qed.

Lemma plain_pretty (z : Z) : plain (pretty z) = true.
Proof.
  assert (∀ n : N, plain (pretty n) = true) as HN.
  { intros n. unfold pretty, pretty_N. case_decide; [done|]. by apply plain_pretty_N_go. }
  destruct z as [|p|p]; [done|apply (HN (N.pos p))|].
  change (plain ("-" +:+ pretty (N.pos p)) = true). rewrite plain_app.
  by rewrite (HN (N.pos p)).
Qed.

End DecoderFacts.

(** X7.  Fragmentation is transparent as long as no fragment completes a
    line and no cut falls inside a character.  Each chunk is decoded by
    itself, [chunk.toString()], and the text is appended to the buffer of
    the connection: when the buffer with the text of a chunk does not end
    in the newline, the chunk is only stored; and when that chunk does not
    end inside a character, delivering it and then a second one has exactly
    the effect of delivering both as one chunk. *)
Theorem X7_fragments_accumulate (d : Daemon) (sock : Socket) (clock1 clock2 : Clock)
    (chunk1 chunk2 : string) :
  JS.endsWith (buffer_of sock d +:+ JS.toString chunk1) newline = false →
  ∃ d1, on_data sock clock1 chunk1 d = Some d1
        ∧ wire d1 = wire d ∧ manager d1 = manager d ∧ ended d1 = ended d
        ∧ buffer_of sock d1 = buffer_of sock d +:+ JS.toString chunk1
        ∧ (JS.complete chunk1 = true →
           on_data sock clock2 chunk2 d1 = on_data sock clock2 (chunk1 +:+ chunk2) d).
Proof.
  intros He. exists (set_buffer sock (buffer_of sock d +:+ JS.toString chunk1) d).
  split_and!; try done.
  - unfold on_data, on_data_when. by rewrite He.
  - apply buffer_of_set_buffer.
  - intros Hc. unfold on_data, on_data_when.
    rewrite buffer_of_set_buffer, !set_buffer_twice.
    by rewrite DecoderFacts.toString_app, string_app_assoc.
Qed.

Lemma X7_fragments_accumulate_witness :
  ∃ d1, on_data 7 (sample_clock 9 9) "{" (set_manager new_daemon three_entries) = Some d1
        ∧ on_data 7 (sample_clock 9 9) ("}" +:+ newline) d1
          = on_data 7 (sample_clock 9 9) ("{}" +:+ newline)
              (set_manager new_daemon three_entries).
Proof.
  destruct (X7_fragments_accumulate (set_manager new_daemon three_entries) 7
              (sample_clock 9 9) (sample_clock 9 9) "{" ("}" +:+ newline))
    as (d1 & H1 & _ & _ & _ & _ & H2); [reflexivity|].
  exists d1. split; [exact H1|exact (H2 eq_refl)].
Defined.

(** A cut inside a character is not transparent: of the two bytes of
    U+00E9, delivered in two chunks, each becomes U+FFFD in the buffer. *)
Example cut_inside_a_character :
  let e_acute := String (ascii_of_nat 195) (String (ascii_of_nat 169) EmptyString) in
  let head := String (ascii_of_nat 195) EmptyString in
  let tail := String (ascii_of_nat 169) ".js" in
  let fffd := string_of_list_ascii JS.replacement in
  head +:+ tail = e_acute +:+ ".js"
  ∧ (buffer_of 7 <$> on_data 7 (sample_clock 9 9) (head +:+ tail) new_daemon)
    = Some (e_acute +:+ ".js")
  ∧ (buffer_of 7 <$> (on_data 7 (sample_clock 9 9) head new_daemon
                      ≫= on_data 7 (sample_clock 9 9) tail))
    = Some (fffd +:+ fffd +:+ ".js").
Proof. by vm_compute. Qed.

(** [JSON.parse] accepts the newline that ends a frame. *)
Lemma parse_newline doc v :
  JSON.parse doc = Some v → JSON.parse (doc +:+ newline) = Some v.
Proof.
  intros H. apply parse_Some in H as (ts & Hl & Hp & _).
  pose proof (JSONFacts.lex_app _ 1 _ [] _ [] Hl eq_refl) as Hl'.
  rewrite app_nil_r in Hl'.
  unfold JSON.parse. rewrite list_ascii_of_string_app.
  change (list_ascii_of_string newline) with [newline_char].
  erewrite JSONFacts.lex_mono; [|exact Hl'|rewrite string_length_app; simpl; lia].
  cbn [mbind option_bind]. by rewrite Hp.
Qed.

(** X8.  A connection that has nothing buffered and receives a document,
    followed by the newline, in one chunk has this document dispatched when
    the text of the document parses: the message is handled on the reset
    buffer, whatever its content.  The text of a document is the document
    itself when its bytes are well-formed UTF-8. *)
Theorem X8_one_request_per_line (d : Daemon) (sock : Socket) (clock : Clock)
    (doc : string) (msg : JSON.value) :
  buffer_of sock d = EmptyString → msg ≠ JSON.Null →
  (JSON.parse (JS.toString doc) = Some msg →
   on_data sock clock (doc +:+ newline) d
   = dispatch sock clock msg (set_buffer sock EmptyString d))
  ∧ (JS.well_formed doc = true → JSON.parse doc = Some msg →
     on_data sock clock (doc +:+ newline) d
     = dispatch sock clock msg (set_buffer sock EmptyString d)).
Proof.
  intros Hb Hnull.
  assert (JSON.parse (JS.toString doc) = Some msg →
          on_data sock clock (doc +:+ newline) d
          = dispatch sock clock msg (set_buffer sock EmptyString d)) as H.
  { intros Hp.
    assert (JSON.get msg "type" ≠ JSON.Throws) as Hthrows.
    { destruct msg; simpl; try done. by destruct (JSON.member _ _). }
    rewrite (on_data_parsed _ _ _ _ msg); rewrite ?Hb; simpl.
    - by rewrite set_buffer_twice.
    - rewrite DecoderFacts.toString_newline. apply endsWith_newline.
    - rewrite DecoderFacts.toString_newline. by apply parse_newline.
    - done. }
  split; [done|]. intros Hwf Hp. apply H.
  by rewrite DecoderFacts.toString_well_formed.
Qed.

Lemma X8_one_request_per_line_witness :
  on_data 7 (sample_clock 30 30) list_request (set_manager new_daemon three_entries)
  = Some (socket_write 7 (OkList [mkListInfo "5" "app.js" 25 "running"])
            (set_buffer 7 EmptyString (set_manager new_daemon three_entries))).
Proof.
  unfold list_request.
  destruct (X8_one_request_per_line (set_manager new_daemon three_entries) 7
              (sample_clock 30 30) list_document
              (JSON.Object [("type", JSON.Str "list")])) as [_ H];
    [reflexivity|done|].
  rewrite H; reflexivity.
Defined.

(** ** Start, stop and restart *)

Lemma getProcess_start_other clock scr o m k' :
  wf m → k' ≠ pretty (clock 0%nat) →
  getProcess k' (start clock scr o m).2 = getProcess k' m.
Proof.
  intros Hwf Hne. unfold getProcess. simpl.
  rewrite Map_get_set_ne by done.
  destruct (JS.Map_get k' (processes m)) as [r|] eqn:Hg; [|done]. simpl.
  destruct (wf_refs m Hwf k' r) as (p & Hp & _); [by apply Map_get_elem|].
  rewrite Hp. by apply lookup_app_l_Some.
Qed.

(** X9.  A [start] request is answered by [{status: "ok", id}] where the id
    is the rendering of the clock reading.  From then on the id is
    registered with a running record whose buffer is empty: [getLogs] of the
    id returns the empty list, not an error, [list] has an entry for the id
    with the status ["running"], and the records under other ids are as
    before. *)
Theorem X9_start_request (d : Daemon) (sock : Socket) (clock clock' : Clock)
    (chunk : string) (msg : JSON.value) (scr : string) (o : ProcessOptions) :
  wf (manager d) →
  JS.endsWith (buffer_of sock d +:+ JS.toString chunk) newline = true →
  JSON.parse (buffer_of sock d +:+ JS.toString chunk) = Some msg →
  JSON.get msg "type" = JSON.Got (JSON.Str "start") →
  decode_script (JSON.get msg "script") = Some scr →
  decode_options (JSON.get msg "options") = Some o →
  let k := pretty (clock 0%nat) in
  ∃ d', on_data sock clock chunk d = Some d'
        ∧ wire d' = wire d ++ [(sock, OkId k)]
        ∧ ended d' = ended d
        ∧ getProcess k (manager d') = Some (fresh_record k scr (clock 1%nat) o)
        ∧ getLogs k 0 200 (manager d') = inr []
        ∧ (∃ i, list_ clock' (manager d') !! i
                = Some (mkListInfo k scr (clock' i - clock 1%nat) "running"))
        ∧ (∀ k', k' ≠ k → getProcess k' (manager d') = getProcess k' (manager d)).
Proof.
  intros Hwf He Hp Ht Hs Ho k.
  rewrite (on_data_parsed _ _ _ _ msg) by (done || by rewrite Ht).
  unfold dispatch, dispatch_when. rewrite Ht. simpl. rewrite Hs, Ho.
  set (m' := (start clock scr o (manager d)).2).
  assert (Hwf' : wf m') by (by apply wf_start).
  assert (Hg : getProcess k m' = Some (fresh_record k scr (clock 1%nat) o)).
  { unfold getProcess, m'. simpl. rewrite Map_get_set_eq. simpl.
    by apply list_lookup_middle. }
  eexists. split; [reflexivity|].
  split_and!; try done.
  - change (getLogs k 0 200 m' = inr []). unfold getLogs. by rewrite Hg.
  - change (∃ i, list_ clock' m' !! i
                 = Some (mkListInfo k scr (clock' i - clock 1%nat) "running")).
    assert (JS.Map_get k (processes m') = Some (length (objects (manager d)))) as Hk
      by apply Map_get_set_eq.
    apply Map_get_elem, list_elem_of_lookup in Hk as [i Hi].
    destruct (registered_spec m' Hwf') as [_ H].
    destruct (H i _ _ Hi) as (p & Hp' & Hid & Hreg).
    exists i. unfold list_. rewrite list_lookup_imap, Hreg. simpl.
    unfold m' in Hp'. simpl in Hp'.
    rewrite list_lookup_middle in Hp' by done. by simplify_eq.
  - intros k' Hk'.
    change (getProcess k' m' = getProcess k' (manager d)).
    by apply getProcess_start_other.
Qed.

Lemma X9_start_request_witness :
  ∃ d', on_data 0 (sample_clock 5 6) start_request_capacity_1 new_daemon = Some d'
        ∧ wire d' = [(0%nat, OkId "5")]
        ∧ getLogs "5" 0 200 (manager d') = inr [].
Proof.
  destruct (X9_start_request new_daemon 0 (sample_clock 5 6) (sample_clock 9 9)
              start_request_capacity_1
              (default JSON.Null (JSON.parse start_request_capacity_1))
              "app.js" (mkOptions None (Some 1)) wf_new)
    as (d' & H & Hw & _ & _ & Hl & _); [reflexivity..|].
  exists d'. split; [exact H|]. split; [exact Hw|exact Hl].
Defined.

(** X10.  [stop] does not cancel the restart policy.  When a process that
    was started with restart is stopped, its record leaves the registry, but
    the exit callback of its child remains: when the killed child ends, by
    the signal of the kill or with a non-zero code of its own, [start] is
    invoked again and a running record with the same script and options is
    registered under the id of the clock reading. *)
Theorem X10_stop_does_not_cancel_restart (m : ProcessManager) (k : string) (r : nat)
    (p : ProcessInfo) (t : Termination) (clock : Clock) :
  wf m → JS.Map_get k (processes m) = Some r → objects m !! r = Some p →
  restart (options p) = Some true → resolved t ≠ 0 →
  let stopped := stop k m in
  let m' := terminated r t clock stopped in
  let new_id := pretty (clock 0%nat) in
  ¬ is_registered k stopped
  ∧ (killed ∘ process <$> objects stopped !! r) = Some true
  ∧ is_registered new_id m'
  ∧ getProcess new_id m'
    = Some (mkProcessInfo new_id (script p) (mkSubprocess None false)
              (clock 1%nat) empty_array (options p)).
Proof.
  intros Hwf Hr Hp Hrestart Hcode stopped m' new_id.
  destruct (stop_registered m k r p Hwf Hr Hp) as (Hnot & _ & Hobj & _).
  fold stopped in Hnot, Hobj.
  assert (Hwf' : wf stopped) by (by apply wf_stop).
  destruct (wf_closures _ Hwf' r _ Hobj) as (o & Hsp & Ho). simpl in Hsp, Ho.
  assert (restart_wanted (resolved t) o = true) as Hrw.
  { apply restart_wanted_true. split; [done|].
    rewrite <- Hrestart, Ho. done. }
  assert (Hm' : m' = (start clock (script p) o
                        (set_objects stopped
                           (<[r := set_process (kill p)
                                     (mkSubprocess
                                        (exitCode_after t (exitCode (process (kill p))))
                                        (killed (process (kill p))))]>
                              (objects stopped)))).2).
  { unfold m'. by apply (terminated_restart _ _ _ _ (kill p)). }
  split_and!.
  - done.
  - by rewrite Hobj.
  - rewrite Hm'. unfold is_registered, new_id. simpl. rewrite Map_get_set_eq. by eexists.
  - rewrite Hm'. unfold getProcess, new_id. simpl. rewrite Map_get_set_eq. simpl.
    rewrite list_lookup_middle by done. by rewrite Ho.
Qed.

Lemma X10_stop_does_not_cancel_restart_witness :
  wf two_crash_loopers
  ∧ JS.Map_keys (processes (signaled 0 15 (sample_clock 9 9) (stop "1" two_crash_loopers)))
    = ["2"; "9"]
  ∧ JS.Map_keys (processes (exited 0 143 (sample_clock 9 9) (stop "1" two_crash_loopers)))
    = ["2"; "9"].
Proof.
  split; [exact two_crash_loopers_wf|].
  destruct (X10_stop_does_not_cancel_restart two_crash_loopers "1" 0
              (fresh_record "1" "a.js" 1 (mkOptions (Some true) None))
              (Signal 15) (sample_clock 9 9) two_crash_loopers_wf eq_refl eq_refl eq_refl)
    as (_ & _ & _ & H); [done|].
  destruct (X10_stop_does_not_cancel_restart two_crash_loopers "1" 0
              (fresh_record "1" "a.js" 1 (mkOptions (Some true) None))
              (ExitCode 143) (sample_clock 9 9) two_crash_loopers_wf eq_refl eq_refl eq_refl)
    as (_ & _ & _ & H'); [done|].
  split; reflexivity.
Defined.

(** ** Attach sessions while the buffer has room *)

Lemma run_outputs_with_room aps d r p :
  objects (manager d) !! r = Some p →
  Z.of_nat (length (items (logs p)) + length aps) ≤ capacity (options p) →
  ∃ d' p',
    run (output_events r aps) d = Some d'
    ∧ wire d' = wire d ++ (aps ≫= λ a, (λ s, (s, EntryDoc (entry_of a)))
                                         <$> push_proxies (logs p))
    ∧ objects (manager d') !! r = Some p'
    ∧ items (logs p') = items (logs p) ++ (entry_of <$> aps)
    ∧ push_proxies (logs p') = push_proxies (logs p)
    ∧ options p' = options p
    ∧ ended d' = ended d.
Proof.
  revert d p. induction aps as [|a aps IH]; intros d p Hp Hroom.
  - exists d, p. simpl. by rewrite !app_nil_r.
  - simpl in Hroom.
    destruct (handler_write_spec r (ap_isError a) (ap_now a) (ap_message a)
                (manager d) p Hp) as (Hh & Hpr & Ho).
    set (q := (addLog (ap_now a) p (ap_message a) (ap_isError a)).1) in *.
    assert (Hqi : items (logs q) = items (logs p) ++ [entry_of a]).
    { unfold q. rewrite addLog_items. cbv zeta.
      destruct (Z.gtb_spec (Z.of_nat (length (items (logs p) ++
                  [mkLogEntry (ap_now a) (ap_message a) (ap_isError a)])))
                  (capacity (options p))) as [Hgt|_]; [|done].
      rewrite length_app in Hgt. simpl in Hgt. lia. }
    assert (Hqp : push_proxies (logs q) = push_proxies (logs p)).
    { rewrite Hpr.
      destruct (Z.gtb_spec (Z.of_nat (length (items (logs p) ++
                  [mkLogEntry (ap_now a) (ap_message a) (ap_isError a)])))
                  (capacity (options p))) as [Hgt|_]; [|done].
      rewrite length_app in Hgt. simpl in Hgt. lia. }
    set (d1 := emit ((λ s, (s, EntryDoc (entry_of a))) <$> push_proxies (logs p))
                 (set_manager d (set_objects (manager d)
                                   (<[r := q]> (objects (manager d)))))).
    assert (Hs : step (ChildOutput r (ap_isError a) (ap_now a) (ap_message a)) d
                 = Some d1).
    { cbn [step]. rewrite Hh. reflexivity. }
    destruct (IH d1 q) as (d' & p' & Hrun & Hw & Hp' & Hi & Hpp & Hoo & Hen).
    { simpl. apply list_lookup_insert_eq. by eapply lookup_lt_Some. }
    { rewrite Hqi, Ho, length_app. simpl. lia. }
    exists d', p'. split_and!.
    + cbn [output_events fmap list_fmap run]. rewrite Hs. exact Hrun.
    + rewrite Hw, Hqp. simpl. by rewrite <- app_assoc.
    + done.
    + rewrite Hi, Hqi, <- app_assoc. done.
    + congruence.
    + congruence.
    + by rewrite Hen.
Qed.

Lemma received_app sock d w :
  received sock (emit w d)
  = received sock d
    ++ omap (λ x : Socket * Document, if Nat.eqb x.1 sock then Some x.2 else None) w.
Proof. unfold received. simpl. apply omap_app. Qed.

Lemma omap_to_one (s : Socket) (e : Document) (l : list Socket) :
  s ∉ l →
  omap (λ x : Socket * Document, if Nat.eqb x.1 s then Some x.2 else None)
       ((λ s', (s', e)) <$> l) = [].
Proof.
  induction l as [|x l IH]; [done|]. rewrite not_elem_of_cons. intros [Hne Hl].
  csimpl. destruct (Nat.eqb_spec x s); [congruence|]. by apply IH.
Qed.

Lemma omap_to_all (s : Socket) (es : list Document) (l1 l2 : list Socket) :
  s ∉ l1 → s ∉ l2 →
  omap (λ x : Socket * Document, if Nat.eqb x.1 s then Some x.2 else None)
       (es ≫= λ e, (λ s', (s', e)) <$> l1 ++ s :: l2) = es.
Proof.
  intros H1 H2. induction es as [|e es IH]; [done|].
  csimpl. rewrite omap_app, IH, fmap_app, omap_app. csimpl.
  rewrite Nat.eqb_refl. by rewrite !omap_to_one.
Qed.

(** X11.  While the buffer has room, attach works as a live tail with
    fan-out.  A connection attaches to a registered process; if the chunks
    that the child writes afterwards still fit into the buffer, the
    attaching connection receives the retained entries and then every new
    entry, each exactly once and in order, and every connection that had
    attached once before receives every new entry exactly once, too. *)
Theorem X11_attach_live_while_room (d : Daemon) (sock s : Socket) (clock : Clock)
    (chunk : string) (msg : JSON.value) (k : string) (r : nat) (p : ProcessInfo)
    (aps : list Append) (l1 l2 : list Socket) :
  JS.endsWith (buffer_of sock d +:+ JS.toString chunk) newline = true →
  JSON.parse (buffer_of sock d +:+ JS.toString chunk) = Some msg →
  JSON.get msg "type" = JSON.Got (JSON.Str "attach") →
  JSON.get msg "processId" = JSON.Got (JSON.Str k) →
  JS.Map_get k (processes (manager d)) = Some r →
  objects (manager d) !! r = Some p →
  Z.of_nat (length (items (logs p)) + length aps) ≤ capacity (options p) →
  sock :: push_proxies (logs p) = l1 ++ s :: l2 → s ∉ l1 → s ∉ l2 →
  ∃ d', run (SocketData sock clock chunk :: output_events r aps) d = Some d'
        ∧ received s d'
          = received s d
            ++ (if decide (s = sock) then EntryDoc <$> items (logs p) else [])
            ++ (EntryDoc <$> (entry_of <$> aps))
        ∧ ended d' = ended d.
Proof.
  intros He Hparse Ht Hk Hr Hp Hroom Hl Hl1 Hl2.
  assert (H1 : step (SocketData sock clock chunk) d
               = Some (attach sock r p
                   (set_buffer sock EmptyString
                      (set_buffer sock (buffer_of sock d +:+ JS.toString chunk) d)))).
  { simpl. rewrite (on_data_parsed _ _ _ _ msg) by (done || by rewrite Ht).
    apply (dispatch_attach _ _ _ _ k); [done|by rewrite Hk|done..]. }
  set (d0 := set_buffer sock EmptyString _) in H1.
  destruct (attach_replay sock r p d0) as [Hw1 Hq1].
  destruct (Hq1 Hp) as (q & Hq & Hqi & Hqp & Hqo). clear Hq1.
  destruct (run_outputs_with_room aps (attach sock r p d0) r q Hq)
    as (d' & p' & Hrun & Hw & _ & _ & _ & _ & Hen).
  { by rewrite Hqi, Hqo. }
  exists d'. split_and!.
  - cbn [run]. rewrite H1. exact Hrun.
  - unfold received. rewrite Hw, Hw1, Hqp, Hl, !omap_app.
    rewrite <- (list_fmap_compose entry_of EntryDoc).
    change (wire d0) with (wire d). rewrite <- app_assoc. do 2 f_equal.
    + case_decide as Hs.
      * subst s. clear. induction (items (logs p)) as [|e l IH]; [done|].
        csimpl. by rewrite Nat.eqb_refl, IH.
      * clear -Hs. induction (items (logs p)) as [|e l IH]; [done|].
        csimpl. destruct (Nat.eqb_spec sock s); [congruence|done].
    + rewrite (list_fmap_compose entry_of EntryDoc).
      etransitivity; [|exact (omap_to_all s (EntryDoc <$> (entry_of <$> aps)) l1 l2 Hl1 Hl2)].
      f_equal.
      clear. induction aps as [|a aps IH]; [done|]. csimpl. by rewrite IH.
  - by rewrite Hen.
Qed.

Lemma X11_attach_live_while_room_witness :
  ∃ d', run (SocketData 1 (sample_clock 7 7) (attach_request "5")
             :: output_events 0 [mkAppend 9 "four" false; mkAppend 10 "five" true])
          (set_manager new_daemon three_entries) = Some d'
        ∧ received 1 d' = [EntryDoc (mkLogEntry 6 "one" false);
                           EntryDoc (mkLogEntry 7 "two" true);
                           EntryDoc (mkLogEntry 8 "three" false);
                           EntryDoc (mkLogEntry 9 "four" false);
                           EntryDoc (mkLogEntry 10 "five" true)].
Proof.
  destruct (X11_attach_live_while_room (set_manager new_daemon three_entries) 1 1
              (sample_clock 7 7) (attach_request "5")
              (JSON.Object [("type", JSON.Str "attach"); ("processId", JSON.Str "5")])
              "5" 0
              (append_all (fresh_record "5" "app.js" 5 (mkOptions None None))
                 [mkAppend 6 "one" false; mkAppend 7 "two" true;
                  mkAppend 8 "three" false])
              [mkAppend 9 "four" false; mkAppend 10 "five" true] [] [])
    as (d' & Hrun & Hrec & _);
    [reflexivity|reflexivity|reflexivity|reflexivity|reflexivity|reflexivity
    |by vm_compute|reflexivity|apply not_elem_of_nil|apply not_elem_of_nil|].
  exists d'. split; [exact Hrun|]. rewrite Hrec. reflexivity.
Defined.

(** * Properties of the client *)

(** ** Retries *)

Section ClientLoops.
Import SocketManager.

Lemma is_rejected_dec {A} (s : option (Settled A)) : is_rejected s ∨ ¬ is_rejected s.
Proof.
  destruct s as [[v|e]|]; [right|left|right]; try (intros [? ?]; done). by exists e.
Qed.

Lemma retried_nil i : retried i i = [].
Proof. unfold retried. by rewrite Z.sub_diag. Qed.

Lemma retried_cons i j :
  i < j → retried i j = Tried i :: Slept 1000 :: retried (i + 1) j.
Proof.
  intros Hij. unfold retried.
  replace (j - i) with (Z.succ (j - (i + 1))) by lia.
  rewrite seqZ_cons by lia. csimpl.
  by replace (Z.pred (Z.succ (j - (i + 1)))) with (j - (i + 1)) by lia.
Qed.

Lemma sendMessage_from_spec request retries sockets fuel i :
  0 ≤ i < retries → fuel = Z.to_nat (retries - i) →
  ∃ j, i ≤ j < retries
       ∧ (∀ k, i ≤ k < j → is_rejected (send_attempt request sockets k))
       ∧ (j = retries - 1 ∨ ¬ is_rejected (send_attempt request sockets j))
       ∧ sendMessage_from fuel request retries sockets i
         = (completion_of (send_attempt request sockets j), retried i j ++ [Tried j]).
Proof.
  revert i. induction fuel as [|fuel IH]; intros i Hi Hf; [lia|].
  simpl. destruct (Z.ltb_spec i retries) as [_|]; [|lia].
  destruct (send_attempt request sockets i) as [[v|e]|] eqn:Ha.
  - exists i. rewrite Ha, retried_nil. split; [lia|]; split; [intros; lia|]; split; [|done].
    right. by intros [? ?].
  - destruct (Z.eqb_spec i (retries - 1)) as [->|Hne].
    + exists (retries - 1). rewrite Ha, retried_nil.
      split; [lia|]; split; [intros; lia|]; split; [by left|done].
    + destruct (IH (i + 1)) as (j & Hj & Hrej & Hlast & Heq); [lia|lia|].
      exists j. rewrite Heq, (retried_cons i j) by lia.
      split; [lia|]; split; [|done].
      intros k Hk. destruct (decide (k = i)) as [->|]; [by exists e|apply Hrej; lia].
  - exists i. rewrite Ha, retried_nil. split; [lia|]; split; [intros; lia|]; split; [|done].
    right. by intros [? ?].
Qed.

Lemma connect_from_spec sockets fuel i :
  0 ≤ i < 5 → fuel = Z.to_nat (5 - i) →
  ∃ j, i ≤ j < 5
       ∧ (∀ k, i ≤ k < j → is_rejected (connect_attempt sockets k))
       ∧ (j = 4 ∨ ¬ is_rejected (connect_attempt sockets j))
       ∧ connect_from fuel sockets i
         = match connect_attempt sockets j with
           | Some (Fulfilled _) => (Returns true, retried i j ++ [Tried j])
           | Some (Rejected _) =>
               (Returns false,
                retried i j ++ [Tried j; Logged "Failed to connect to daemon:"])
           | None => (Never, retried i j ++ [Tried j])
           end.
Proof.
  revert i. induction fuel as [|fuel IH]; intros i Hi Hf; [lia|].
  simpl. destruct (Z.ltb_spec i 5) as [_|]; [|lia].
  destruct (connect_attempt sockets i) as [[v|e]|] eqn:Ha.
  - exists i. rewrite Ha, retried_nil. split; [lia|]; split; [intros; lia|]; split; [|done].
    right. by intros [? ?].
  - destruct (Z.eqb_spec i 4) as [->|Hne].
    + exists 4. rewrite Ha, retried_nil.
      split; [lia|]; split; [intros; lia|]; split; [by left|done].
    + destruct (IH (i + 1)) as (j & Hj & Hrej & Hlast & Heq); [lia|lia|].
      exists j. rewrite Heq, (retried_cons i j) by lia.
      split; [lia|]; split; [|split; [done|]].
      * intros k Hk. destruct (decide (k = i)) as [->|]; [by exists e|apply Hrej; lia].
      * by destruct (connect_attempt sockets j) as [[?|?]|].
  - exists i. rewrite Ha, retried_nil. split; [lia|]; split; [intros; lia|]; split; [|done].
    right. by intros [? ?].
Qed.

End ClientLoops.

(** X12.  [connect] makes at most five attempts and stops at the first one
    that is not rejected.  There is an iteration [j] among 0..4 such that
    all attempts before it were rejected, each followed by a pause of one
    second, and the call ends with attempt [j]: it returns true when that
    attempt connects, never returns when that attempt stays pending, and
    returns false, after logging the failure, when [j = 4] and that attempt
    is rejected as well.  No pause follows the last attempt. *)
Theorem X12_connect_retries (sockets : Z → list SocketManager.SocketEvent) :
  ∃ j, 0 ≤ j ≤ 4
       ∧ (∀ k, 0 ≤ k < j →
            is_rejected (SocketManager.connect_attempt sockets k))
       ∧ (j = 4 ∨ ¬ is_rejected (SocketManager.connect_attempt sockets j))
       ∧ SocketManager.connect sockets
         = match SocketManager.connect_attempt sockets j with
           | Some (SocketManager.Fulfilled _) =>
               (SocketManager.Returns true, retried 0 j ++ [SocketManager.Tried j])
           | Some (SocketManager.Rejected _) =>
               (SocketManager.Returns false,
                retried 0 j ++ [SocketManager.Tried j;
                                SocketManager.Logged "Failed to connect to daemon:"])
           | None => (SocketManager.Never, retried 0 j ++ [SocketManager.Tried j])
           end.
Proof.
  destruct (connect_from_spec sockets 5 0) as (j & Hj & H1 & H2 & H3); [lia|done|].
  exists j. split; [lia|done].
Qed.

(** X13.  [sendMessage] with [retries >= 1] ends with the first attempt that
    is not rejected, or with attempt [retries - 1]: it returns the response
    of that attempt, or throws the error of that attempt (the error of the
    last attempt, not of the first), or never returns when that attempt
    stays pending.  Attempts before it were all rejected and each was
    followed by a pause of one second.  With [retries <= 0] it makes no
    attempt and throws [Failed to send message after retries]; that is the
    only case in which the loop runs to its end. *)
Theorem X13_sendMessage_retries (request : string) (retries : Z)
    (sockets : Z → list SocketManager.SocketEvent) :
  (retries ≤ 0 →
   SocketManager.sendMessage request retries sockets
   = (SocketManager.Throws SocketManager.failed_after_retries, []))
  ∧ (0 < retries →
     ∃ j, 0 ≤ j < retries
          ∧ (∀ k, 0 ≤ k < j →
               is_rejected (SocketManager.send_attempt request sockets k))
          ∧ (j = retries - 1
             ∨ ¬ is_rejected (SocketManager.send_attempt request sockets j))
          ∧ SocketManager.sendMessage request retries sockets
            = (completion_of (SocketManager.send_attempt request sockets j),
               retried 0 j ++ [SocketManager.Tried j])).
Proof.
  split; intros Hr.
  - unfold SocketManager.sendMessage.
    by replace (Z.to_nat retries) with 0%nat by lia.
  - destruct (sendMessage_from_spec request retries sockets (Z.to_nat retries) 0)
      as (j & Hj & H1 & H2 & H3); [lia|f_equal; lia|].
    exists j. split; [lia|done].
Qed.

(** ** The reply of one attempt *)

Lemma endsWith_newline_inv s :
  JS.endsWith s newline = true → ∃ s', s = s' +:+ newline.
Proof.
  unfold JS.endsWith. simpl String.length. intros H.
  apply andb_true_iff in H as [Hlen H]. apply Nat.leb_le in Hlen.
  apply String.eqb_eq in H.
  induction s as [|c s IH]; [simpl in Hlen; lia|].
  destruct s as [|c' s].
  - simpl in H. exists EmptyString. simpl. by simplify_eq.
  - destruct IH as [s' Hs'].
    + simpl. lia.
    + rewrite <- H. simpl. by rewrite Nat.sub_0_r.
    + exists (String c s'). rewrite Hs'. reflexivity.
Qed.

Lemma joined_app cs1 cs2 : joined (cs1 ++ cs2) = joined cs1 +:+ joined cs2.
Proof.
  induction cs1 as [|c cs1 IH]; [done|].
  simpl. by rewrite IH, string_app_assoc.
Qed.

Lemma string_app_empty_r s : s +:+ EmptyString = s.
Proof.
  induction s as [|c s IH]; [done|].
  change (String c (s +:+ EmptyString) = String c s). by rewrite IH.
Qed.

(** A text that is followed by more of a line cannot end in the newline
    that ends the line. *)
Lemma proper_prefix_no_newline b more doc :
  b +:+ more = doc +:+ newline → more ≠ EmptyString →
  newline_char ∉ list_ascii_of_string doc →
  JS.endsWith b newline = false.
Proof.
  intros Heq Hmore Hdoc.
  destruct (JS.endsWith b newline) eqn:He; [|done]. exfalso.
  apply endsWith_newline_inv in He as [b' ->].
  apply (f_equal list_ascii_of_string) in Heq.
  rewrite !list_ascii_of_string_app in Heq.
  change (list_ascii_of_string newline) with [newline_char] in Heq.
  assert (Hlen : (length (list_ascii_of_string b') < length (list_ascii_of_string doc))%nat).
  { apply (f_equal length) in Heq. rewrite !length_app in Heq. simpl in Heq.
    destruct more as [|m more]; [done|]. simpl in Heq. lia. }
  apply Hdoc.
  apply (f_equal (λ l, l !! length (list_ascii_of_string b'))) in Heq.
  rewrite <- app_assoc in Heq.
  rewrite lookup_app_r in Heq by lia. rewrite Nat.sub_diag in Heq. simpl in Heq.
  rewrite lookup_app_l in Heq by lia.
  by eapply list_elem_of_lookup_2.
Qed.

Section Exchange.
Import SocketManager.

Lemma settle_settled {A} (s s' : Settled A) a : state a = Some s → settle s' a = a.
Proof. unfold settle. by intros ->. Qed.

Lemma send_handler_settled request ev a s :
  state a = Some s → state (send_handler request ev a) = Some s.
Proof.
  intros Hs. destruct ev as [|data|err|]; simpl; try done.
  - destruct (JS.endsWith _ _); [|done].
    destruct (JSON.parse _); simpl; unfold resolve, reject, settle; simpl; by rewrite Hs.
  - unfold reject, settle. simpl. by rewrite Hs.
  - unfold reject, settle. simpl. by rewrite Hs.
Qed.

Lemma connect_handler_settled ev a s :
  state a = Some s → state (connect_handler ev a) = Some s.
Proof.
  intros Hs. destruct ev as [|data|err|]; simpl; try done;
    unfold resolve, reject, settle; simpl; by rewrite Hs.
Qed.

Lemma deliver_settled {A} (handler : SocketEvent → Attempt A → Attempt A) :
  (∀ ev a s, state a = Some s → state (handler ev a) = Some s) →
  ∀ events a s, state a = Some s → state (deliver handler events a) = Some s.
Proof.
  intros Hh events. induction events as [|ev events IH]; intros a s Hs; [done|].
  simpl. apply IH. by apply Hh.
Qed.

Lemma deliver_app {A} (handler : SocketEvent → Attempt A → Attempt A) e1 e2 a :
  deliver handler (e1 ++ e2) a = deliver handler e2 (deliver handler e1 a).
Proof. unfold deliver. by rewrite foldl_app. Qed.

(** Chunks whose texts leave the buffer short of a newline only
    accumulate. *)
Lemma send_accumulates request cs : ∀ a,
  (∀ n, (n ≤ length cs)%nat →
        JS.endsWith (buffer a +:+ joined (JS.toString <$> take n cs)) newline = false) →
  deliver (send_handler request) (OnData <$> cs) a
  = mkAttempt (buffer a +:+ joined (JS.toString <$> cs)) (state a) (actions a).
Proof.
  induction cs as [|c cs IH]; intros a H.
  - simpl. rewrite string_app_empty_r. by destruct a.
  - csimpl. pose proof (H 1%nat ltac:(simpl; lia)) as H1. simpl in H1.
    rewrite string_app_empty_r in H1. rewrite H1.
    rewrite IH; simpl.
    + by rewrite string_app_assoc.
    + intros n Hn. specialize (H (S n) ltac:(simpl; lia)). simpl in H.
      by rewrite string_app_assoc.
Qed.

End Exchange.

Section Reply.
Import SocketManager.
Variables (request doc : string) (cs : list string) (c : string).
Hypothesis Hdoc : newline_char ∉ list_ascii_of_string doc.
Hypothesis Hc : c ≠ EmptyString.
Hypothesis Hline : joined (JS.toString <$> cs ++ [c]) = doc +:+ newline.

(** Up to the last chunk of a line the attempt only accumulates. *)
Lemma reply_accumulates :
  deliver (send_handler request) (OnConnect :: (OnData <$> cs)) pending
  = mkAttempt (joined (JS.toString <$> cs)) None [SockWrite (request +:+ newline)].
Proof.
  transitivity
    (deliver (send_handler request) (OnData <$> cs)
       (mkAttempt EmptyString None [SockWrite (request +:+ newline)])); [done|].
  rewrite send_accumulates; [done|].
  intros n Hn.
  change (JS.endsWith (joined (JS.toString <$> take n cs)) newline = false).
  pose proof (DecoderFacts.toString_nonempty c Hc) as Hc'.
  apply (proper_prefix_no_newline (joined (JS.toString <$> take n cs))
           (joined (JS.toString <$> drop n cs) +:+ JS.toString c) doc);
    [|destruct (joined (JS.toString <$> drop n cs)); [exact Hc'|discriminate]|done].
  rewrite <- Hline, <- string_app_assoc, <- joined_app, <- fmap_app, take_drop.
  rewrite fmap_app, joined_app.
  simpl. by rewrite string_app_empty_r.
Qed.

(** The last chunk of a line settles the attempt by the parse of the line. *)
Lemma reply_completes :
  deliver (send_handler request) (OnConnect :: (OnData <$> cs ++ [c])) pending
  = mkAttempt (doc +:+ newline) (Some (parsed_reply (doc +:+ newline)))
      (SockWrite (request +:+ newline)
       :: match JSON.parse (doc +:+ newline) with
          | Some _ => [SockEnd]
          | None => []
          end).
Proof.
  rewrite fmap_app, app_comm_cons, deliver_app, reply_accumulates. simpl.
  pose proof Hline as Hl. rewrite fmap_app, joined_app in Hl. simpl in Hl.
  rewrite string_app_empty_r in Hl. rewrite Hl, endsWith_newline.
  unfold parsed_reply. by destruct (JSON.parse _).
Qed.

End Reply.

(** X14.  An attempt of [sendMessage] reads a reply of one line from the
    texts of its chunks.  Each chunk that the socket delivers is decoded by
    itself, [data.toString()], and its text is appended to the buffer.
    When the texts of the chunks make up a line (a text without a newline,
    followed by a newline) and the last chunk is not empty, the attempt has
    written the request once, has stayed pending up to the last chunk, and
    is settled by [JSON.parse] of the whole line: fulfilled with the value,
    the socket being ended, or rejected with the SyntaxError, the socket
    being left open.  Whatever the socket reports afterwards does not change
    the outcome.  The texts of the chunks make up the line that was sent
    when the line holds characters of one byte only, however it is cut. *)
Theorem X14_reply_reassembled (request doc : string) (cs : list string) (c : string)
    (later : list SocketManager.SocketEvent) :
  newline_char ∉ list_ascii_of_string doc →
  c ≠ EmptyString →
  joined (JS.toString <$> cs ++ [c]) = doc +:+ newline
  ∨ (plain doc = true ∧ joined (cs ++ [c]) = doc +:+ newline) →
  let events := SocketManager.OnConnect :: (SocketManager.OnData <$> cs ++ [c]) in
  SocketManager.deliver (SocketManager.send_handler request)
    (SocketManager.OnConnect :: (SocketManager.OnData <$> cs)) SocketManager.pending
  = SocketManager.mkAttempt (joined (JS.toString <$> cs)) None
      [SocketManager.SockWrite (request +:+ newline)]
  ∧ SocketManager.deliver (SocketManager.send_handler request) events
      SocketManager.pending
    = SocketManager.mkAttempt (doc +:+ newline)
        (Some (parsed_reply (doc +:+ newline)))
        (SocketManager.SockWrite (request +:+ newline)
         :: match JSON.parse (doc +:+ newline) with
            | Some _ => [SocketManager.SockEnd]
            | None => []
            end)
  ∧ SocketManager.state
      (SocketManager.deliver (SocketManager.send_handler request) (events ++ later)
         SocketManager.pending)
    = Some (parsed_reply (doc +:+ newline)).
Proof.
  intros Hdoc Hc Hline events.
  assert (joined (JS.toString <$> cs ++ [c]) = doc +:+ newline) as Hline'.
  { destruct Hline as [H|[Hp H]]; [done|].
    rewrite DecoderFacts.plain_joined; [done|].
    rewrite H, DecoderFacts.plain_app, Hp. done. }
  clear Hline. rename Hline' into Hline. split_and!.
  - by apply (reply_accumulates request doc cs c).
  - by apply reply_completes.
  - rewrite deliver_app. unfold events.
    rewrite (reply_completes request doc cs c) by done.
    by apply deliver_settled; [apply send_handler_settled|].
Qed.

(** ** The texts on the wire *)

Module StringifyFacts.
Import JSON Stringify.

Lemma list_ascii_of_string_of_list l :
  list_ascii_of_string (string_of_list_ascii l) = l.
Proof. apply list_ascii_of_string_of_list_ascii. Qed.

(** Reading back one quoted character. *)
Lemma lex_quote_char c l r s :
  lex_string Plain l = Some (s, r) →
  lex_string Plain (quote_char c ++ l) = Some (c :: s, r).
Proof.
  intros Hl.
  destruct c as [[] [] [] [] [] [] [] []]; cbv [quote_char]; simpl; by rewrite Hl.
Qed.

Lemma lex_quote_chars l r :
  lex_string Plain ((l ≫= quote_char) ++ dquote :: r) = Some (l, r).
Proof.
  induction l as [|c l IH]; [done|].
  csimpl. rewrite <- app_assoc. by apply lex_quote_char.
Qed.

Lemma quote_char_printable c x : x ∈ quote_char c → (32 ≤ nat_of_ascii x)%nat.
Proof.
  destruct c as [[] [] [] [] [] [] [] []]; cbv [quote_char]; simpl;
    intros Hx; repeat (apply elem_of_cons in Hx as [->|Hx]; [by apply Nat.leb_le; vm_compute|]);
    by apply elem_of_nil in Hx.
Qed.

End StringifyFacts.

Module LexFacts.
Import JSON Stringify.

(** *** The lexer consumes its input *)

Lemma strip_length p cs r : strip p cs = Some r → (length r ≤ length cs)%nat.
Proof.
  revert cs. induction p as [|a p IH]; intros cs H; simpl in H; [by simplify_eq|].
  destruct cs as [|c cs]; [done|]. destruct (Ascii.eqb a c); [|done].
  apply IH in H. simpl. lia.
Qed.

Lemma lex_string_length m cs s r :
  lex_string m cs = Some (s, r) → (length r < length cs)%nat.
Proof.
  revert m s r. induction cs as [|c cs IH]; intros m s r H; simpl in H; [done|].
  assert (Hplain : ∀ (e : list ascii) s r,
             ('(s0, r') ← lex_string Plain cs; Some (e ++ s0, r')) = Some (s, r) →
             (length r < S (length cs))%nat).
  { intros e s1 r1 H1.
    destruct (lex_string Plain cs) as [[s0 r0]|] eqn:Hs; simplify_eq/=.
    apply IH in Hs. lia. }
  destruct m as [| |k acc]; simpl.
  - destruct (Ascii.eqb c dquote); [simplify_eq; lia|].
    destruct (Ascii.eqb c backslash); [apply IH in H; lia|].
    destruct (nat_of_ascii c <? 32)%nat; [done|].
    by apply (Hplain [c] s r).
  - destruct (Ascii.eqb c "u"); [apply IH in H; lia|].
    destruct (escape_char c) as [e|]; [|done].
    by apply (Hplain [e] s r).
  - destruct (hex_digit c) as [h|]; [|done]. simpl in H.
    destruct k as [|k]; [|apply IH in H; lia].
    by apply (Hplain (utf8 (16 * acc + h)) s r).
Qed.

Lemma span_digits_length cs ds r :
  span_digits cs = (ds, r) → length cs = (length ds + length r)%nat.
Proof.
  revert ds r. induction cs as [|c cs IH]; intros ds r H; simpl in H; [by simplify_eq|].
  destruct (is_digit c); [|by simplify_eq].
  destruct (span_digits cs) as [ds' r'] eqn:Hs. simplify_eq.
  simpl. by rewrite (IH ds' r).
Qed.

Lemma lex_frac_length cs fs r :
  lex_frac cs = Some (fs, r) → (length r ≤ length cs)%nat.
Proof.
  unfold lex_frac. destruct cs as [|c cs]; [by intros; simplify_eq|].
  destruct (Ascii.eqb c "."); [|by intros; simplify_eq].
  destruct (span_digits cs) as [fs' r'] eqn:Hs. apply span_digits_length in Hs.
  destruct fs'; intros; simplify_eq. simpl in *. lia.
Qed.

Lemma lex_sign_length cs sg r : lex_sign cs = (sg, r) → (length r ≤ length cs)%nat.
Proof.
  unfold lex_sign. destruct cs as [|c cs]; [by intros; simplify_eq|].
  destruct (Ascii.eqb c "-"); [intros; simplify_eq; simpl; lia|].
  destruct (Ascii.eqb c "+"); intros; simplify_eq; simpl; lia.
Qed.

Lemma lex_exp_length cs ex r :
  lex_exp cs = Some (ex, r) → (length r ≤ length cs)%nat.
Proof.
  unfold lex_exp. destruct cs as [|c cs]; [by intros; simplify_eq|].
  destruct (Ascii.eqb c "e" || Ascii.eqb c "E"); [|by intros; simplify_eq].
  destruct (lex_sign cs) as [sg r1] eqn:Hg. apply lex_sign_length in Hg.
  destruct (span_digits r1) as [es r'] eqn:Hs. apply span_digits_length in Hs.
  destruct es; intros; simplify_eq. simpl in *. lia.
Qed.

Lemma lex_number_length neg cs n r :
  lex_number neg cs = Some (n, r) → (length r < length cs)%nat.
Proof.
  unfold lex_number.
  destruct (span_digits cs) as [ds r1] eqn:Hs. apply span_digits_length in Hs.
  destruct (int_ok ds) eqn:Hok; [|done].
  assert (0 < length ds)%nat by (destruct ds; [done|simpl; lia]).
  destruct (lex_frac r1) as [[fs r2]|] eqn:Hf; [|done]. apply lex_frac_length in Hf.
  simpl. destruct (lex_exp r2) as [[ex r3]|] eqn:He; [|done].
  apply lex_exp_length in He. simpl. intros; simplify_eq. lia.
Qed.

Lemma next_length c cs ot r :
  next c cs = Some (ot, r) → (length r ≤ length cs)%nat.
Proof.
  unfold next.
  repeat (match goal with
          | |- context [if ?b then _ else _] => destruct b
          end; [first [by intros; simplify_eq | idtac]|]); try done.
  all: try (destruct (strip _ cs) as [r'|] eqn:Hs; [|done];
            apply strip_length in Hs; simpl; by intros; simplify_eq).
  - destruct (lex_string Plain cs) as [[s r']|] eqn:Hs; [|done].
    apply lex_string_length in Hs. simpl. intros; simplify_eq. lia.
  - destruct (lex_number true cs) as [[n r']|] eqn:Hs; [|done].
    apply lex_number_length in Hs. simpl. intros; simplify_eq. lia.
  - destruct (lex_number false (c :: cs)) as [[n r']|] eqn:Hs; [|done].
    apply lex_number_length in Hs. simpl in *. intros; simplify_eq. lia.
Qed.

(** When a text has tokens at all, the fuel that [JSON.parse] gives its
    lexer finds them. *)
Lemma lex_enough m n cs ts :
  lex n cs = Some ts → (length cs < m)%nat → lex m cs = Some ts.
Proof.
  revert n cs ts. induction m as [|m IH]; intros n cs ts H Hm; [lia|].
  destruct n as [|n]; [done|]. simpl in *.
  destruct cs as [|c cs]; [done|].
  destruct (next c cs) as [[ot r]|] eqn:Hn; [|done]. simpl in *.
  apply next_length in Hn.
  destruct (lex n r) as [ts'|] eqn:Hl; [|done].
  by rewrite (IH n r ts') by (done || lia).
Qed.

(** *** The tokens of the texts that [Stringify] writes *)

Lemma lex_quote f s r ts :
  lex f r = Some ts →
  lex (S f) (list_ascii_of_string (quote s) ++ r) = Some (TString s :: ts).
Proof.
  intros H. unfold quote. rewrite list_ascii_of_string_of_list_ascii.
  cbn [app lex].
  change (next dquote ?x) with
    ('(s, r') ← lex_string Plain x; Some (Some (TString (string_of_list_ascii s)), r')).
  rewrite <- app_assoc. cbn [app].
  rewrite StringifyFacts.lex_quote_chars. cbn [mbind option_bind].
  rewrite H. cbn [mbind option_bind push_token].
  by rewrite string_of_list_ascii_of_string.
Qed.

Lemma lex_lbrace f r ts :
  lex f r = Some ts → lex (S f) (list_ascii_of_string "{" ++ r) = Some (TLBrace :: ts).
Proof. intros H. simpl. by rewrite H. Qed.

Lemma lex_rbrace f r ts :
  lex f r = Some ts → lex (S f) (list_ascii_of_string "}" ++ r) = Some (TRBrace :: ts).
Proof. intros H. simpl. by rewrite H. Qed.

Lemma lex_colon f r ts :
  lex f r = Some ts → lex (S f) (list_ascii_of_string ":" ++ r) = Some (TColon :: ts).
Proof. intros H. simpl. by rewrite H. Qed.

Lemma lex_comma f r ts :
  lex f r = Some ts → lex (S f) (list_ascii_of_string "," ++ r) = Some (TComma :: ts).
Proof. intros H. simpl. by rewrite H. Qed.

Lemma lex_boolean f b r ts :
  lex f r = Some ts →
  lex (S f) (list_ascii_of_string (boolean b) ++ r)
  = Some ((if b then TTrue else TFalse) :: ts).
Proof. intros H. destruct b; simpl; by rewrite H. Qed.

Lemma lex_newline f r ts :
  lex f r = Some ts → lex (S f) (list_ascii_of_string newline ++ r) = Some ts.
Proof. intros H. simpl. by rewrite H. Qed.

End LexFacts.

Create HintDb lexing.
#[local] Hint Resolve LexFacts.lex_quote LexFacts.lex_lbrace LexFacts.lex_rbrace
  LexFacts.lex_colon LexFacts.lex_comma LexFacts.lex_boolean LexFacts.lex_newline
  : lexing.

(** A text whose tokens make up one value parses to that value. *)
Lemma parse_tokens text n ts v :
  JSON.lex n (list_ascii_of_string text) = Some ts →
  JSON.parse_value (S (length ts)) ts = Some (v, []) →
  JSON.parse text = Some v.
Proof.
  intros Hlex Hp. unfold JSON.parse.
  rewrite (LexFacts.lex_enough _ _ _ _ Hlex) by (rewrite list_ascii_of_string_length; lia).
  cbn [mbind option_bind]. by rewrite Hp.
Qed.

Lemma parse_stop_message k :
  JSON.parse (CLI.stop_message k +:+ newline)
  = Some (JSON.Object [("type", JSON.Str "stop"); ("processId", JSON.Str k)]).
Proof.
  apply (parse_tokens _ 11 [JSON.TLBrace; JSON.TString "type"; JSON.TColon;
                            JSON.TString "stop"; JSON.TComma; JSON.TString "processId";
                            JSON.TColon; JSON.TString k; JSON.TRBrace]); [|done].
  unfold CLI.stop_message, Stringify.object, Stringify.members, Stringify.member.
  rewrite ?list_ascii_of_string_app, <- ?app_assoc.
  rewrite <- (app_nil_r (list_ascii_of_string newline)).
  auto 20 with lexing.
Qed.

Lemma parse_start_message script b :
  JSON.parse (CLI.start_message script b +:+ newline) = Some (start_value script b).
Proof.
  apply (parse_tokens _ 19 [JSON.TLBrace; JSON.TString "type"; JSON.TColon;
                            JSON.TString "start"; JSON.TComma; JSON.TString "script";
                            JSON.TColon; JSON.TString script; JSON.TComma;
                            JSON.TString "options"; JSON.TColon; JSON.TLBrace;
                            JSON.TString "restart"; JSON.TColon;
                            (if b then JSON.TTrue else JSON.TFalse);
                            JSON.TRBrace; JSON.TRBrace]); [|by destruct b].
  unfold CLI.start_message, Stringify.object, Stringify.members, Stringify.member.
  rewrite ?list_ascii_of_string_app, <- ?app_assoc.
  rewrite <- (app_nil_r (list_ascii_of_string newline)).
  auto 30 with lexing.
Qed.

Lemma parse_written_OkId k line :
  written (OkId k) = Some line →
  JSON.parse line = Some (JSON.Object [("status", JSON.Str "ok"); ("id", JSON.Str k)]).
Proof.
  intros [= <-].
  apply (parse_tokens _ 11 [JSON.TLBrace; JSON.TString "status"; JSON.TColon;
                            JSON.TString "ok"; JSON.TComma; JSON.TString "id";
                            JSON.TColon; JSON.TString k; JSON.TRBrace]); [|done].
  unfold Stringify.object, Stringify.members, Stringify.member.
  rewrite ?list_ascii_of_string_app, <- ?app_assoc.
  rewrite <- (app_nil_r (list_ascii_of_string newline)).
  auto 20 with lexing.
Qed.

Lemma parse_written_Stopped line :
  written Stopped = Some line →
  JSON.parse line = Some (JSON.Object [("status", JSON.Str "stopped")]).
Proof. by intros [= <-]. Qed.

Lemma parse_written_ErrorDoc reason line :
  written (ErrorDoc reason) = Some line →
  JSON.parse line = Some (JSON.Object [("error", JSON.Str reason)]).
Proof.
  intros [= <-].
  apply (parse_tokens _ 7 [JSON.TLBrace; JSON.TString "error"; JSON.TColon;
                           JSON.TString reason; JSON.TRBrace]); [|done].
  unfold Stringify.object, Stringify.members, Stringify.member.
  rewrite ?list_ascii_of_string_app, <- ?app_assoc.
  rewrite <- (app_nil_r (list_ascii_of_string newline)).
  auto 20 with lexing.
Qed.

(** *** Printable texts *)

Lemma printable_app s t : printable s → printable t → printable (s +:+ t).
Proof.
  unfold printable. rewrite list_ascii_of_string_app. apply Forall_app_2.
Qed.

Lemma printable_quote s : printable (Stringify.quote s).
Proof.
  unfold printable, Stringify.quote. rewrite list_ascii_of_string_of_list_ascii.
  apply Forall_cons. split; [by apply Nat.leb_le; vm_compute|].
  apply Forall_app. split.
  - apply Forall_forall. intros x Hx.
    apply list_elem_of_bind in Hx as (c & Hx & _).
    by eapply StringifyFacts.quote_char_printable.
  - apply Forall_singleton. by apply Nat.leb_le; vm_compute.
Qed.

Lemma printable_boolean b : printable (Stringify.boolean b).
Proof. destruct b; repeat constructor; by apply Nat.leb_le; vm_compute. Qed.

Lemma printable_punctuation s :
  s ∈ ["{"; "}"; ":"; ","] → printable s.
Proof.
  intros H. repeat (apply elem_of_cons in H as [->|H];
                    [repeat constructor; by apply Nat.leb_le; vm_compute|]).
  by apply elem_of_nil in H.
Qed.

Lemma printable_no_newline s : printable s → newline_char ∉ list_ascii_of_string s.
Proof.
  unfold printable. rewrite Forall_forall. intros H Hn.
  specialize (H _ Hn). vm_compute in H. lia.
Qed.

Create HintDb printing.
#[local] Hint Resolve printable_quote printable_boolean printable_app : printing.
#[local] Hint Extern 1 (printable _) =>
  apply printable_punctuation; set_solver : printing.

Lemma written_line doc line :
  written doc = Some line → ∃ text, line = text +:+ newline ∧ printable text.
Proof.
  destruct doc; intros [= <-]; eexists; (split; [done|]);
    unfold Stringify.object, Stringify.members, Stringify.member;
    auto 20 with printing.
Qed.

Lemma printable_start_message script b : printable (CLI.start_message script b).
Proof.
  unfold CLI.start_message, Stringify.object, Stringify.members, Stringify.member.
  auto 30 with printing.
Qed.

Lemma printable_stop_message k : printable (CLI.stop_message k).
Proof.
  unfold CLI.stop_message, Stringify.object, Stringify.members, Stringify.member.
  auto 20 with printing.
Qed.

Lemma X14_reply_reassembled_witness :
  SocketManager.deliver (SocketManager.send_handler (CLI.stop_message "5"))
    (replies stopped_chunks) SocketManager.pending
  = SocketManager.mkAttempt (joined stopped_chunks)
      (Some (SocketManager.Fulfilled (JSON.Object [("status", JSON.Str "stopped")])))
      [SocketManager.SockWrite (CLI.stop_message "5" +:+ newline);
       SocketManager.SockEnd].
Proof.
  pose proof (X14_reply_reassembled (CLI.stop_message "5")
                (Stringify.object [Stringify.member "status" (Stringify.quote "stopped")])
                ["{"; Stringify.quote "status" +:+ ":"]
                (Stringify.quote "stopped" +:+ "}" +:+ newline) []) as H.
  destruct H as (_ & H & _).
  - apply printable_no_newline.
    unfold Stringify.object, Stringify.members, Stringify.member.
    auto with printing.
  - discriminate.
  - right. split; reflexivity.
  - exact H.
Defined.

Lemma X12_connect_retries_witness :
  ∃ j, 0 ≤ j ≤ 4
       ∧ (∀ k, 0 ≤ k < j →
            is_rejected (SocketManager.connect_attempt (third_time_lucky []) k))
       ∧ SocketManager.connect (third_time_lucky [])
         = (SocketManager.Returns true,
            [SocketManager.Tried 0; SocketManager.Slept 1000;
             SocketManager.Tried 1; SocketManager.Slept 1000;
             SocketManager.Tried 2]).
Proof.
  destruct (X12_connect_retries (third_time_lucky [])) as (j & Hj & Hrej & _ & _).
  exists j. split; [exact Hj|]. split; [exact Hrej|]. vm_compute. reflexivity.
Defined.

Lemma X13_sendMessage_retries_witness :
  SocketManager.sendMessage (CLI.stop_message "5") 0 (third_time_lucky stopped_chunks)
  = (SocketManager.Throws SocketManager.failed_after_retries, [])
  ∧ ∃ j, 0 ≤ j < 2
         ∧ SocketManager.sendMessage (CLI.stop_message "5") 2
             (third_time_lucky stopped_chunks)
           = (completion_of
                (SocketManager.send_attempt (CLI.stop_message "5")
                   (third_time_lucky stopped_chunks) j),
              retried 0 j ++ [SocketManager.Tried j]).
Proof.
  destruct (X13_sendMessage_retries (CLI.stop_message "5") 0
              (third_time_lucky stopped_chunks)) as [H0 _].
  destruct (X13_sendMessage_retries (CLI.stop_message "5") 2
              (third_time_lucky stopped_chunks)) as [_ H2].
  split; [apply H0; lia|].
  destruct H2 as (j & Hj & _ & _ & H); [lia|].
  exists j. split; [exact Hj|exact H].
Defined.

(** X15.  [JSON.parse] reads back what [JSON.stringify] writes for a
    string: the quotation of any string parses to that string.  The
    quotation holds no control character, so no newline: a line of the
    protocol that is made of quotations and punctuation ends at its first
    newline. *)
Theorem X15_quote_round_trip (s : string) :
  JSON.parse (Stringify.quote s) = Some (JSON.Str s)
  ∧ JSON.parse (Stringify.quote s +:+ newline) = Some (JSON.Str s)
  ∧ printable (Stringify.quote s)
  ∧ JS.endsWith (Stringify.quote s) newline = false.
Proof.
  assert (H1 : JSON.parse (Stringify.quote s) = Some (JSON.Str s)).
  { apply (parse_tokens _ 2 [JSON.TString s]); [|done].
    rewrite <- (app_nil_r (list_ascii_of_string _)). by apply LexFacts.lex_quote. }
  split_and!; [done|by apply parse_newline|apply printable_quote|].
  apply (proper_prefix_no_newline _ newline (Stringify.quote s));
    [done|discriminate|].
  apply printable_no_newline, printable_quote.
Qed.

(** ** A command from the client to the daemon and back *)

Section EndToEnd.
Import SocketManager.

Lemma send_handler_actions request ev a :
  ∃ more, actions (send_handler request ev a) = actions a ++ more.
Proof.
  destruct ev as [|data|err|]; simpl.
  - by eexists.
  - destruct (JS.endsWith _ _); [|exists []; by rewrite app_nil_r].
    destruct (JSON.parse _); unfold resolve, reject, settle; simpl;
      destruct (state a); simpl; eauto using app_nil_r; exists []; by rewrite app_nil_r.
  - unfold reject, settle. simpl. destruct (state a); simpl; by eexists.
  - unfold reject, settle. simpl. destruct (state a); simpl; by eexists.
Qed.

Lemma deliver_actions request events : ∀ a,
  ∃ more, actions (deliver (send_handler request) events a) = actions a ++ more.
Proof.
  induction events as [|ev events IH]; intros a; [exists []; by rewrite app_nil_r|].
  simpl. destruct (IH (send_handler request ev a)) as [more2 ->].
  destruct (send_handler_actions request ev a) as [more1 ->].
  exists (more1 ++ more2). by rewrite app_assoc.
Qed.

(** The first thing that an attempt does to its socket, once connected, is
    to write the request and a newline. *)
Lemma request_written request events :
  hd_error (actions (deliver (send_handler request) (OnConnect :: events) pending))
  = Some (SockWrite (request +:+ newline)).
Proof.
  simpl. by destruct (deliver_actions request events (act (SockWrite (request +:+ newline)) pending))
    as [more ->].
Qed.

(** An attempt that reads the line that the daemon wrote for [doc] is
    fulfilled with the parse of that line. *)
Lemma attempt_reads_written request doc chunks last later v :
  written doc = Some (joined (chunks ++ [last])) →
  plain (joined (chunks ++ [last])) = true → last ≠ EmptyString →
  JSON.parse (joined (chunks ++ [last])) = Some v →
  state (deliver (send_handler request) (replies (chunks ++ [last]) ++ later) pending)
  = Some (Fulfilled v).
Proof.
  intros Hw Hplain Hlast Hp.
  destruct (written_line _ _ Hw) as (text & Hline & Hprint).
  unfold replies. rewrite deliver_app.
  rewrite (reply_completes request text chunks last);
    [|by apply printable_no_newline|done|by rewrite DecoderFacts.plain_joined].
  apply deliver_settled; [apply send_handler_settled|]. simpl.
  unfold parsed_reply. by rewrite <- Hline, Hp.
Qed.

Lemma sendMessage_first request sockets v :
  send_attempt request sockets 0 = Some (Fulfilled v) →
  (sendMessage request 3 sockets).1 = Returns v.
Proof. intros H. unfold sendMessage. simpl. by rewrite H. Qed.

Lemma first_argument_cons a args : a ≠ EmptyString → CLI.first_argument (a :: args) = Some a.
Proof.
  intros Ha. simpl. destruct (String.eqb_spec a EmptyString); [done|done].
Qed.

(** The line of a request is its own text when its arguments are
    well-formed. *)
Lemma toString_start_message script b :
  JS.well_formed script = true →
  JS.toString (CLI.start_message script b +:+ newline)
  = CLI.start_message script b +:+ newline.
Proof.
  intros H. rewrite DecoderFacts.toString_newline. f_equal.
  apply DecoderFacts.toString_well_formed.
  unfold CLI.start_message, Stringify.object, Stringify.members, Stringify.member.
  repeat first [done | by destruct b | apply DecoderFacts.well_formed_quote
               | apply DecoderFacts.well_formed_app].
Qed.

Lemma toString_stop_message k :
  JS.well_formed k = true →
  JS.toString (CLI.stop_message k +:+ newline) = CLI.stop_message k +:+ newline.
Proof.
  intros H. rewrite DecoderFacts.toString_newline. f_equal.
  apply DecoderFacts.toString_well_formed.
  unfold CLI.stop_message, Stringify.object, Stringify.members, Stringify.member.
  repeat first [done | apply DecoderFacts.well_formed_quote
               | apply DecoderFacts.well_formed_app].
Qed.

(** The answer to [start] with the reading of a clock holds characters of
    one byte only. *)
Lemma plain_written_OkId (z : Z) line :
  written (OkId (pretty z)) = Some line → plain line = true.
Proof.
  intros [= <-].
  unfold Stringify.object, Stringify.members, Stringify.member.
  rewrite !DecoderFacts.plain_app.
  by rewrite !DecoderFacts.plain_quote by (done || apply DecoderFacts.plain_pretty).
Qed.

Lemma plain_written_Stopped line : written Stopped = Some line → plain line = true.
Proof. by intros [= <-]. Qed.

End EndToEnd.

(** X16.  A [start] command goes round.  The client sends the script and
    the restart flag as one line; the daemon that receives the line in one
    chunk on a connection with an empty buffer starts the script with
    exactly these arguments, registers it under the reading of its clock and
    answers with that id; the client that reads the answer, however it is
    cut into chunks, reports that same id.  (The flag is looked for among
    all the arguments, the script name included.  The script name is a
    string of the client: its bytes are well-formed UTF-8.) *)
Theorem X16_start_goes_round (d : Daemon) (sock : Socket) (clock : Clock)
    (script : string) (flags chunks : list string) (last : string)
    (later : list SocketManager.SocketEvent)
    (sockets : Z → list SocketManager.SocketEvent) :
  let args := script :: flags in
  let restart := CLI.includes args "--restart" in
  let request := CLI.start_message script restart in
  let k := pretty (clock 0%nat) in
  script ≠ EmptyString → JS.well_formed script = true →
  buffer_of sock d = EmptyString →
  written (OkId k) = Some (joined (chunks ++ [last])) → last ≠ EmptyString →
  sockets 0 = replies (chunks ++ [last]) ++ later →
  ∃ d', hd_error (SocketManager.actions
                    (SocketManager.deliver (SocketManager.send_handler request)
                       (sockets 0) SocketManager.pending))
        = Some (SocketManager.SockWrite (request +:+ newline))
        ∧ on_data sock clock (request +:+ newline) d = Some d'
        ∧ manager d'
          = (start clock script (mkOptions (Some restart) None) (manager d)).2
        ∧ wire d' = wire d ++ [(sock, OkId k)]
        ∧ CLI.handleStart args sockets
          = Some (SocketManager.Returns
                    [CLI.LogInfo ("Started process with ID: " +:+ k)]).
Proof.
  intros args restart request k Hscript Hwf Hbuf Hw Hlast Hsock.
  eexists. split_and!.
  - rewrite Hsock. apply request_written.
  - rewrite (on_data_parsed _ _ _ _ (start_value script restart)).
    + unfold dispatch, dispatch_when. simpl. reflexivity.
    + rewrite Hbuf. unfold request. rewrite toString_start_message by done.
      apply endsWith_newline.
    + rewrite Hbuf. unfold request. rewrite toString_start_message by done.
      apply parse_start_message.
    + done.
  - done.
  - done.
  - unfold CLI.handleStart.
    change (CLI.first_argument args) with (CLI.first_argument (script :: flags)).
    rewrite first_argument_cons by done.
    fold restart request.
    rewrite (sendMessage_first request sockets
               (JSON.Object [("status", JSON.Str "ok"); ("id", JSON.Str k)])); [done|].
    unfold SocketManager.send_attempt. rewrite Hsock.
    apply (attempt_reads_written _ (OkId k));
      [done|by apply (plain_written_OkId (clock 0%nat))|done|].
    by apply (parse_written_OkId k).
Qed.

(** X17.  A [stop] command is always reported as failed.  The client sends
    the id as one line; the daemon that receives the line in one chunk
    performs the stop and answers with the status [stopped]; the client,
    which takes only the status [ok] for success, logs that it failed to
    stop the process.  (The id is a string of the client: its bytes are
    well-formed UTF-8.) *)
Theorem X17_stop_reported_as_failed (d : Daemon) (sock : Socket) (clock : Clock)
    (k : string) (more chunks : list string) (last : string)
    (later : list SocketManager.SocketEvent)
    (sockets : Z → list SocketManager.SocketEvent) :
  let request := CLI.stop_message k in
  k ≠ EmptyString → JS.well_formed k = true →
  buffer_of sock d = EmptyString →
  written Stopped = Some (joined (chunks ++ [last])) → last ≠ EmptyString →
  sockets 0 = replies (chunks ++ [last]) ++ later →
  ∃ d', hd_error (SocketManager.actions
                    (SocketManager.deliver (SocketManager.send_handler request)
                       (sockets 0) SocketManager.pending))
        = Some (SocketManager.SockWrite (request +:+ newline))
        ∧ on_data sock clock (request +:+ newline) d = Some d'
        ∧ manager d' = stop k (manager d)
        ∧ wire d' = wire d ++ [(sock, Stopped)]
        ∧ CLI.handleStop (k :: more) sockets
          = SocketManager.Returns
              [CLI.LogError ("Failed to stop process " +:+ k)].
Proof.
  intros request Hk Hwf Hbuf Hw Hlast Hsock.
  eexists. split_and!.
  - rewrite Hsock. apply request_written.
  - rewrite (on_data_parsed _ _ _ _
               (JSON.Object [("type", JSON.Str "stop"); ("processId", JSON.Str k)])).
    + apply dispatch_stop. done.
    + rewrite Hbuf. unfold request. rewrite toString_stop_message by done.
      apply endsWith_newline.
    + rewrite Hbuf. unfold request. rewrite toString_stop_message by done.
      apply parse_stop_message.
    + done.
  - done.
  - done.
  - unfold CLI.handleStop. rewrite first_argument_cons by done.
    fold request.
    rewrite (sendMessage_first request sockets
               (JSON.Object [("status", JSON.Str "stopped")])); [done|].
    unfold SocketManager.send_attempt. rewrite Hsock.
    apply (attempt_reads_written _ Stopped);
      [done|by apply plain_written_Stopped|done|].
    by apply parse_written_Stopped.
Qed.

Lemma X16_start_goes_round_witness :
  ∃ d', on_data 3 (sample_clock 1700 1701)
          (CLI.start_message "app.js" true +:+ newline) new_daemon = Some d'
        ∧ wire d' = [(3%nat, OkId "1700")]
        ∧ CLI.handleStart ["app.js"; "--restart"] (λ _, replies (started_chunks "1700"))
          = Some (SocketManager.Returns
                    [CLI.LogInfo "Started process with ID: 1700"]).
Proof.
  destruct (X16_start_goes_round new_daemon 3 (sample_clock 1700 1701) "app.js"
              ["--restart"]
              ["{" +:+ Stringify.quote "status"; ":" +:+ Stringify.quote "ok" +:+ ","]
              (Stringify.member "id" (Stringify.quote "1700") +:+ "}" +:+ newline)
              [] (λ _, replies (started_chunks "1700")))
    as (d' & _ & Hd & _ & Hw & Hc);
    [discriminate|reflexivity|reflexivity|reflexivity|discriminate|reflexivity|].
  exists d'. split; [exact Hd|]. split; [exact Hw|exact Hc].
Defined.

Lemma X17_stop_reported_as_failed_witness :
  ∃ d', on_data 3 (sample_clock 9 9) (CLI.stop_message "5" +:+ newline)
          (set_manager new_daemon three_entries) = Some d'
        ∧ getProcess "5" (manager d') = None
        ∧ wire d' = [(3%nat, Stopped)]
        ∧ CLI.handleStop ["5"] (λ _, replies stopped_chunks)
          = SocketManager.Returns [CLI.LogError "Failed to stop process 5"].
Proof.
  destruct (X17_stop_reported_as_failed (set_manager new_daemon three_entries) 3
              (sample_clock 9 9) "5" []
              ["{"; Stringify.quote "status" +:+ ":"]
              (Stringify.quote "stopped" +:+ "}" +:+ newline)
              [] (λ _, replies stopped_chunks))
    as (d' & _ & Hd & Hm & Hw & Hc);
    [discriminate|reflexivity|reflexivity|reflexivity|discriminate|reflexivity|].
  exists d'. split; [exact Hd|]. split; [by rewrite Hm|]. split; [exact Hw|exact Hc].
Defined.

(** ** The supervisor of the daemon *)

Section Supervisor.
Import DaemonManager.
Variable number_of : string → number.
Variable probe : number → bool.

Lemma Number_empty : Number_ number_of EmptyString = Integer 0.
Proof. done. Qed.

Lemma isDaemonRunning_emptied w :
  pid_file w = Some EmptyString →
  isDaemonRunning number_of probe w = (false, w, []).
Proof.
  intros H. unfold isDaemonRunning. rewrite H. simpl.
  unfold write_pid. rewrite <- H. by destruct w.
Qed.

Lemma stopDaemon_emptied w :
  pid_file w = Some EmptyString →
  stopDaemon number_of w = (w, [Terminate (Integer 0)]).
Proof.
  intros H. unfold stopDaemon. rewrite H. simpl.
  unfold write_pid. rewrite <- H. by destruct w.
Qed.

Lemma isDaemonRunning_false w w' t :
  isDaemonRunning number_of probe w = (false, w', t) →
  w' = match pid_file w with
       | None => w
       | Some _ => write_pid EmptyString w
       end.
Proof.
  unfold isDaemonRunning. destruct (pid_file w) as [c|]; [|by intros [= <- _]].
  destruct (_ || _); [by intros [= <- _]|].
  destruct (probe _); [done|by intros [= <- _]].
Qed.

End Supervisor.

Lemma pretty_N_go_nonempty x s : s ≠ EmptyString → pretty_N_go x s ≠ EmptyString.
Proof.
  revert s. induction (N.lt_wf_0 x) as [x _ IH]; intros s Hs.
  destruct (decide (x = 0)%N) as [->|Hx]; [by rewrite pretty_N_go_0|].
  rewrite pretty_N_go_step by lia. apply IH; [|done].
  apply N.div_lt; lia.
Qed.

Lemma pretty_positive_nonempty (z : Z) : 0 < z → pretty z ≠ EmptyString.
Proof.
  destruct z as [|p|p]; [lia| |lia]. intros _.
  unfold pretty, pretty_Z, pretty, pretty_positive, pretty, pretty_N.
  destruct (decide (N.pos p = 0)%N); [done|].
  rewrite pretty_N_go_step by lia. by apply pretty_N_go_nonempty.
Qed.

(** X18.  Once the status check has found no running daemon, it keeps
    finding none, without asking the system about any process: a check that
    returns false leaves the PID file absent if it was absent and empty
    otherwise (it never removes it, and never touches the socket file), and
    on that world the check returns false again, changes nothing and sends
    no signal. *)
Theorem X18_not_running_is_stable (number_of : string → DaemonManager.number)
    (probe probe' : DaemonManager.number → bool)
    (w w' : DaemonManager.World) (t : list DaemonManager.Action) :
  DaemonManager.isDaemonRunning number_of probe w = (false, w', t) →
  DaemonManager.pid_file w'
  = (λ _, EmptyString) <$> DaemonManager.pid_file w
  ∧ DaemonManager.socket_file w' = DaemonManager.socket_file w
  ∧ DaemonManager.isDaemonRunning number_of probe' w' = (false, w', []).
Proof.
  intros H. apply isDaemonRunning_false in H. subst w'.
  destruct w as [[c|] s]; simpl.
  - split_and!; [done|done|]. by apply isDaemonRunning_emptied.
  - done.
Qed.

(** X19.  [stopDaemon] empties the PID file and never removes it, and a
    second stop signals process 0.  After a stop the status check finds no
    daemon without asking the system.  [stopDaemon] reads the emptied file
    as the number 0, which it does not reject (only NaN is rejected, there
    is no test for a positive number): called on a world that a stop or a
    failed status check has left behind, it calls [process.kill(0)]. *)
Theorem X19_stop_twice_signals_zero (number_of : string → DaemonManager.number)
    (probe : DaemonManager.number → bool) (w : DaemonManager.World) :
  let w1 := (DaemonManager.stopDaemon number_of w).1 in
  DaemonManager.pid_file w1 = (λ _, EmptyString) <$> DaemonManager.pid_file w
  ∧ DaemonManager.socket_file w1 = DaemonManager.socket_file w
  ∧ DaemonManager.isDaemonRunning number_of probe w1 = (false, w1, [])
  ∧ DaemonManager.stopDaemon number_of w1
    = (w1, match DaemonManager.pid_file w with
           | Some _ => [DaemonManager.Terminate (DaemonManager.Integer 0)]
           | None => []
           end)
  ∧ ∀ w2 t,
      DaemonManager.isDaemonRunning number_of probe w = (false, w2, t) →
      DaemonManager.stopDaemon number_of w2
      = (w2, match DaemonManager.pid_file w with
             | Some _ => [DaemonManager.Terminate (DaemonManager.Integer 0)]
             | None => []
             end).
Proof.
  intros w1.
  assert (Hw1 : w1 = match DaemonManager.pid_file w with
                     | None => w
                     | Some _ => DaemonManager.write_pid EmptyString w
                     end).
  { unfold w1, DaemonManager.stopDaemon.
    destruct (DaemonManager.pid_file w); [|done]. by destruct (DaemonManager.isNaN _). }
  clearbody w1. subst w1.
  destruct w as [[c|] s]; simpl.
  - split_and!; try done.
    intros w2 t H. apply isDaemonRunning_false in H. by subst w2.
  - split_and!; try done.
    intros w2 t H. apply isDaemonRunning_false in H. by subst w2.
Qed.

(** X20.  [ensureDaemonRunning] starts the daemon once.  When the status
    check finds no daemon, the call removes the socket file, spawns the
    daemon, records the decimal form of its process id in the PID file and
    returns once a connection succeeds; the socket file is then the one
    that the new daemon has bound.  If the system then answers for that
    process id (and [Number] reads the decimal form back), a further call
    probes that process and does nothing else: no second daemon, no write,
    the socket file left in place, whatever its own spawn and sockets would
    have been. *)
Theorem X20_ensure_starts_once (number_of : string → DaemonManager.number)
    (probe : DaemonManager.number → bool) (pid : Z)
    (sockets sockets' : Z → list SocketManager.SocketEvent) (spawned' : option Z)
    (bound bound' : bool)
    (w w0 : DaemonManager.World) (t : list DaemonManager.Action) :
  DaemonManager.isDaemonRunning number_of probe w = (false, w0, t) →
  0 < pid →
  (SocketManager.connect sockets).1 = SocketManager.Returns true →
  number_of (pretty pid) = DaemonManager.Integer pid →
  probe (DaemonManager.Integer pid) = true →
  let w1 := DaemonManager.mkWorld (Some (pretty pid)) true in
  DaemonManager.ensureDaemonRunning number_of probe (Some pid) bound sockets w
  = (DaemonManager.Done, w1, t ++ [DaemonManager.Spawn])
  ∧ DaemonManager.ensureDaemonRunning number_of probe spawned' bound' sockets' w1
    = (DaemonManager.Done, w1, [DaemonManager.Probe (DaemonManager.Integer pid)]).
Proof.
  intros Hrun Hpid Hconn Hnum Hprobe w1.
  pose proof (pretty_positive_nonempty pid Hpid) as Hne.
  apply String.eqb_neq in Hne.
  split.
  - unfold DaemonManager.ensureDaemonRunning. rewrite Hrun.
    destruct (Z.eqb_spec pid 0) as [|_]; [lia|]. by rewrite Hconn.
  - unfold DaemonManager.ensureDaemonRunning, DaemonManager.isDaemonRunning,
      DaemonManager.Number_.
    simpl. rewrite Hne, Hnum. simpl.
    destruct (Z.leb_spec pid 0) as [|_]; [lia|]. by rewrite Hprobe.
Qed.

Lemma X18_not_running_is_stable_witness :
  DaemonManager.isDaemonRunning sample_number_of sample_probe stale_world
  = (false, DaemonManager.mkWorld (Some EmptyString) true,
     [DaemonManager.Probe (DaemonManager.Integer 4100)])
  ∧ DaemonManager.isDaemonRunning sample_number_of sample_probe
      (DaemonManager.mkWorld (Some EmptyString) true)
    = (false, DaemonManager.mkWorld (Some EmptyString) true, []).
Proof.
  split; [reflexivity|].
  destruct (X18_not_running_is_stable sample_number_of sample_probe sample_probe
              stale_world (DaemonManager.mkWorld (Some EmptyString) true)
              [DaemonManager.Probe (DaemonManager.Integer 4100)] eq_refl)
    as (_ & _ & H).
  exact H.
Defined.

Lemma X19_stop_twice_signals_zero_witness :
  ∃ w2, DaemonManager.isDaemonRunning sample_number_of sample_probe stale_world
        = (false, w2, [DaemonManager.Probe (DaemonManager.Integer 4100)])
        ∧ DaemonManager.stopDaemon sample_number_of w2
          = (w2, [DaemonManager.Terminate (DaemonManager.Integer 0)]).
Proof.
  destruct (X19_stop_twice_signals_zero sample_number_of sample_probe stale_world)
    as (_ & _ & _ & _ & H).
  exists (DaemonManager.mkWorld (Some EmptyString) true).
  split; [reflexivity|].
  exact (H _ [DaemonManager.Probe (DaemonManager.Integer 4100)] eq_refl).
Defined.

Lemma X20_ensure_starts_once_witness :
  DaemonManager.ensureDaemonRunning sample_number_of sample_probe (Some 4242) false
    (third_time_lucky []) stale_world
  = (DaemonManager.Done, DaemonManager.mkWorld (Some "4242") true,
     [DaemonManager.Probe (DaemonManager.Integer 4100); DaemonManager.Spawn])
  ∧ DaemonManager.ensureDaemonRunning sample_number_of sample_probe (Some 4243) false
      (third_time_lucky []) (DaemonManager.mkWorld (Some "4242") true)
    = (DaemonManager.Done, DaemonManager.mkWorld (Some "4242") true,
       [DaemonManager.Probe (DaemonManager.Integer 4242)]).
Proof.
  apply (X20_ensure_starts_once sample_number_of sample_probe 4242
           (third_time_lucky []) (third_time_lucky []) (Some 4243) false false
           stale_world (DaemonManager.mkWorld (Some EmptyString) true)
           [DaemonManager.Probe (DaemonManager.Integer 4100)]);
    [reflexivity|lia|reflexivity|reflexivity|reflexivity].
Defined.
